(** * sftp-cli: path lexicon, dynamic list and remote directory reader

    A shallow embedding of [src/sftp_list.c] and [src/sftp_path.c].

    The C code works on heap buffers through raw pointers, and several of
    the properties checked below depend on exactly which byte of which
    buffer a statement touches.  Buffers are therefore modelled as the list
    of their cells, a pointer as an optional buffer ([None] is [NULL]), and
    every access outside a buffer, through [NULL], or reading a cell that
    was never written, is the explicit outcome [Fault]. *)

From Stdlib Require Import ZArith List Ascii String Bool Lia.
Import ListNotations.
Open Scope Z_scope.

Set Implicit Arguments.

(** ** Outcomes of C computations *)

Module Outcome.

Inductive result (A : Type) : Type :=
| Ret (a : A)
| Fault.

Arguments Ret {A} a.
Arguments Fault {A}.

Definition bind {A B : Type} (m : result A) (k : A -> result B) : result B :=
  match m with
  | Ret a => k a
  | Fault => Fault
  end.

End Outcome.
Export Outcome.

Notation "x <- m ;; k" := (bind m (fun x => k))
  (at level 61, m at next level, right associativity).
Notation "' p <- m ;; k" := (bind m (fun p => k))
  (at level 61, p pattern, m at next level, right associativity).

(** ** Machine integers

    [size_t] is 64 bits wide; arithmetic on it wraps. *)

Definition SIZE_MAX : Z := 2 ^ 64 - 1.
Definition PTRDIFF_MAX : Z := 2 ^ 63 - 1.

Definition size_t (z : Z) : Z := z mod 2 ^ 64.

(** [(ssize_t) n] for a [size_t] value [n]. *)
Definition ssize_t (n : Z) : Z :=
  if n <=? PTRDIFF_MAX then n else n - 2 ^ 64.

(** What an [int] becomes when it is stored in a [uint8_t] and in an
    [int8_t]. *)
Definition uint8_t (z : Z) : Z := z mod 2 ^ 8.
Definition int8_t (z : Z) : Z := (z + 2 ^ 7) mod 2 ^ 8 - 2 ^ 7.

(** ** Memory cells, buffers and pointers *)

Inductive memval : Type :=
| Undef
| Byte (c : ascii).

Definition buffer : Type := list memval.
Definition ptr : Type := option buffer.

Definition NUL : ascii := Ascii.zero.
Definition PATH_SEPARATOR : ascii := "/"%char.

Definition blen (b : buffer) : Z := Z.of_nat (List.length b).

(** [b[i]] as an rvalue. *)
Definition load (b : buffer) (i : Z) : result ascii :=
  if (0 <=? i) && (i <? blen b) then
    match nth (Z.to_nat i) b Undef with
    | Byte c => Ret c
    | Undef => Fault
    end
  else Fault.

(** [b[i] = c]. *)
Definition store (b : buffer) (i : Z) (c : ascii) : result buffer :=
  if (0 <=? i) && (i <? blen b) then
    Ret (firstn (Z.to_nat i) b ++ Byte c :: skipn (Z.to_nat i + 1) b)
  else Fault.

Definition deref (p : ptr) : result buffer :=
  match p with
  | Some b => Ret b
  | None => Fault
  end.

(** The bytes of a string, and the buffer of a string literal: its bytes
    followed by the terminator. *)
Definition bytes (s : list ascii) : buffer := map Byte s.
Definition lit (s : list ascii) : buffer := bytes s ++ [Byte NUL].
Definition str (s : string) : list ascii := list_ascii_of_string s.

(** ** The C library

    The allocator is idealised: a request succeeds exactly when its size
    is representable as an object size.  [calloc] zeroes the block,
    [malloc] leaves it undefined. *)

Definition calloc (n : Z) : ptr :=
  if n <=? PTRDIFF_MAX then Some (repeat (Byte NUL) (Z.to_nat n)) else None.

Definition malloc (n : Z) : ptr :=
  if n <=? PTRDIFF_MAX then Some (repeat Undef (Z.to_nat n)) else None.

(** The characters of the C string that starts at the beginning of a
    buffer: everything before the first terminator.  Running off the end of
    the buffer or into an undefined cell is a fault. *)
Fixpoint cstring (b : buffer) : result (list ascii) :=
  match b with
  | [] => Fault
  | Undef :: _ => Fault
  | Byte c :: b' =>
      if Ascii.eqb c NUL then Ret []
      else s <- cstring b' ;; Ret (c :: s)
  end.

Definition strlen (p : ptr) : result Z :=
  b <- deref p ;;
  s <- cstring b ;;
  Ret (Z.of_nat (List.length s)).

(** Writes the characters [s] and a terminator into [dst] from offset [n]. *)
Definition write_string (dst : buffer) (n : Z) (s : list ascii) : result buffer :=
  if (0 <=? n) && (n + Z.of_nat (List.length s) + 1 <=? blen dst) then
    Ret (firstn (Z.to_nat n) dst ++ lit s
           ++ skipn (Z.to_nat n + List.length s + 1) dst)
  else Fault.

Definition strcpy (dst : ptr) (src : ptr) : result buffer :=
  d <- deref dst ;;
  b <- deref src ;;
  s <- cstring b ;;
  write_string d 0 s.

Definition strcat (dst : ptr) (src : ptr) : result buffer :=
  d <- deref dst ;;
  n <- strlen dst ;;
  b <- deref src ;;
  s <- cstring b ;;
  write_string d n s.

(** Cell-level access, used where C copies a [char] without inspecting it:
    an undefined cell is copied as it is. *)
Definition peek (b : buffer) (i : Z) : result memval :=
  if (0 <=? i) && (i <? blen b) then Ret (nth (Z.to_nat i) b Undef) else Fault.

Definition poke (b : buffer) (i : Z) (v : memval) : result buffer :=
  if (0 <=? i) && (i <? blen b) then
    Ret (firstn (Z.to_nat i) b ++ v :: skipn (Z.to_nat i + 1) b)
  else Fault.

(** ** sftp_list.c: the dynamic list *)

(** The slots of a [void **] array: a slot is [None] until it is assigned. *)
Definition slots (A : Type) : Type := list (option A).

(** [sizeof (void * )]. *)
Definition PTR_SIZE : Z := 8.

Module ListT.

(** [ListT]: [list] is [None] when the pointer is [NULL], otherwise the
    slots of the block it points to. *)
Record t (A : Type) : Type := mk {
  list : option (slots A);
  length : Z;
  allocated : Z
}.

End ListT.

Arguments ListT.mk {A} list length allocated.

Module DynList.

Section Elements.

Variable A : Type.

(** [malloc (bytes)] seen as an array of pointers. *)
Definition malloc_slots (nbytes : Z) : option (slots A) :=
  if nbytes <=? PTRDIFF_MAX
  then Some (repeat None (Z.to_nat (nbytes / PTR_SIZE)))
  else None.

(** [realloc (old, bytes)]: the old slots are kept as far as the new block
    reaches, the rest is unassigned.  On failure the result is [NULL]. *)
Definition realloc_slots (old : option (slots A)) (nbytes : Z) : option (slots A) :=
  if nbytes <=? PTRDIFF_MAX then
    let n := Z.to_nat (nbytes / PTR_SIZE) in
    let kept := firstn n (match old with Some s => s | None => [] end) in
    Some (kept ++ repeat None (n - List.length kept))
  else None.

Definition List_new (length type_size : Z) : ListT.t A :=
  ListT.mk (malloc_slots (size_t (length * type_size))) 0 length.

Definition List_re_alloc (self : ListT.t A) (new_size : Z) : ListT.t A :=
  if ListT.allocated self >=? new_size then self
  else
    let new_size :=
      Z.land (size_t (new_size + Z.shiftr new_size 3 + 6)) (SIZE_MAX - 3) in
    match realloc_slots (ListT.list self) (size_t (new_size * PTR_SIZE)) with
    | None => ListT.mk None (ListT.length self) (ListT.allocated self)
    | Some l => ListT.mk (Some l) (ListT.length self) new_size
    end.

(** [self->list[i] = attr]. *)
Definition set_slot (self : ListT.t A) (i : Z) (attr : A) : result (ListT.t A) :=
  match ListT.list self with
  | None => Fault
  | Some l =>
      if (0 <=? i) && (i <? Z.of_nat (List.length l)) then
        Ret (ListT.mk
               (Some (firstn (Z.to_nat i) l ++ Some attr :: skipn (Z.to_nat i + 1) l))
               (ListT.length self) (ListT.allocated self))
      else Fault
  end.

(** [self->list[i]] as an rvalue. *)
Definition get_slot (self : ListT.t A) (i : Z) : result A :=
  match ListT.list self with
  | None => Fault
  | Some l =>
      if (0 <=? i) && (i <? Z.of_nat (List.length l)) then
        match nth (Z.to_nat i) l None with
        | Some a => Ret a
        | None => Fault
        end
      else Fault
  end.

Definition set_length (self : ListT.t A) (n : Z) : ListT.t A :=
  ListT.mk (ListT.list self) n (ListT.allocated self).

Definition List_push (self : ListT.t A) (attr : A) : result (ListT.t A) :=
  let self := List_re_alloc self (size_t (ListT.length self + 1)) in
  self <- set_slot self (ListT.length self) attr ;;
  Ret (set_length self (size_t (ListT.length self + 1))).

Definition List_is_empty (self : ListT.t A) : bool :=
  ListT.length self =? 0.

(** [List_pop] returns the popped pointer ([None] for [NULL]) and the list. *)
Definition List_pop (self : ListT.t A) : result (option A * ListT.t A) :=
  if negb (List_is_empty self) then
    let self := set_length self (size_t (ListT.length self - 1)) in
    a <- get_slot self (ListT.length self) ;;
    Ret (Some a, self)
  else Ret (None, self).

(** Modelled from the spec: [List_get] is called by [path_mkdir_parents]
    but is not defined in [sftp_list.c].  The specification gives it as
    [get(seq, i)], the element at index [i], failing with OUT_OF_RANGE when
    [i >= length]; the failure is rendered as a [NULL] result. *)
Definition List_get (self : ListT.t A) (i : Z) : result (option A) :=
  if i <? ListT.length self then a <- get_slot self i ;; Ret (Some a)
  else Ret None.

(** The elements of a list, first to last, when all of its first [length]
    slots are assigned. *)
Definition elements (self : ListT.t A) : result (list A) :=
  match ListT.list self with
  | None => Fault
  | Some l =>
      if Z.of_nat (List.length l) <? ListT.length self then Fault
      else
        fold_right (fun o acc =>
                      match o with
                      | Some a => r <- acc ;; Ret (a :: r)
                      | None => Fault
                      end)
                   (Ret []) (firstn (Z.to_nat (ListT.length self)) l)
  end.

End Elements.

End DynList.

Import DynList.

(** ** sftp_path.c: the path lexicon *)

Module Path.

(** The body of [for (i = start; i < stop; i++) sliced[i - start] = path_str[i];]
    with [n] iterations left. *)
Fixpoint slice_copy (n : nat) (path_str : ptr) (sliced : buffer) (start i : Z)
  : result buffer :=
  match n with
  | O => Ret sliced
  | S n' =>
      src <- deref path_str ;;
      v <- peek src i ;;
      sliced' <- poke sliced (size_t (i - start)) v ;;
      slice_copy n' path_str sliced' start (i + 1)
  end.

(** [path_str_slice].  Every path through the function after the length
    test writes through [sliced_path_str], so a failed [calloc] faults. *)
Definition path_str_slice (path_str : ptr) (start stop : Z) : result ptr :=
  let length := size_t (stop - start) in
  if length <? 1 then Ret None
  else
    sliced <- deref (calloc length) ;;
    sliced <- slice_copy (Z.to_nat (stop - start)) path_str sliced start start ;;
    sliced <- store sliced (size_t (stop - 1)) NUL ;;
    Ret (Some sliced).

(** The loop of [path_remove_prefix]: counts separators from index [i],
    for at most [n] more iterations. *)
Fixpoint count_prefix (n : nat) (cleaned : ptr) (i num : Z) : result Z :=
  match n with
  | O => Ret num
  | S n' =>
      b <- deref cleaned ;;
      c <- load b i ;;
      if Ascii.eqb c PATH_SEPARATOR
      then count_prefix n' cleaned (i + 1) (size_t (num + 1))
      else Ret num
  end.

Definition path_remove_prefix (path_str : ptr) (length : Z) : result ptr :=
  if length <? 2 then Ret path_str
  else
    b <- deref path_str ;;
    c0 <- load b 0 ;;
    dot_slash <- (if Ascii.eqb c0 "."%char
                  then c1 <- load b 1 ;; Ret (Ascii.eqb c1 PATH_SEPARATOR)
                  else Ret false) ;;
    '(cleaned, length, is_root_dir) <-
       (if dot_slash : bool
        then p <- path_str_slice path_str 2 length ;;
             Ret (p, size_t (length - 2), 0)
        else Ret (path_str, length, 1)) ;;
    num_slash_prefix <- count_prefix (Z.to_nat length) cleaned 0 0 ;;
    if num_slash_prefix =? 0 then Ret cleaned
    else path_str_slice cleaned (size_t (num_slash_prefix - is_root_dir)) length.

(** The loop of [path_remove_suffix].  Its index only ever increases, so it
    walks the cells from the starting index towards the end of the buffer
    and stops at the first cell that is not a separator; walking off the
    buffer is a fault. *)
Fixpoint count_suffix (cells : buffer) (num : Z) : result Z :=
  match cells with
  | [] => Fault
  | Undef :: _ => Fault
  | Byte c :: cells' =>
      if Ascii.eqb c PATH_SEPARATOR
      then count_suffix cells' (size_t (num + 1))
      else Ret num
  end.

Definition path_remove_suffix (path_str : ptr) (length : Z) : result ptr :=
  if length <? 2 then Ret path_str
  else
    let i := ssize_t length - 1 in
    num_slash_suffix <-
      (if -1 <? i
       then b <- deref path_str ;; count_suffix (skipn (Z.to_nat i) b) 0
       else Ret 0) ;;
    if num_slash_suffix =? 0 then Ret path_str
    else path_str_slice path_str 0 (size_t (length - num_slash_suffix + 1)).

Section Buffers.

(** The buffer sizes come from [sftp_path.h], which is not among the
    sources; they are parameters of the model. *)
Variable BUF_SIZE_FS_NAME : Z.
Variable BUF_SIZE_FS_PATH : Z.

(** The loop of [path_join] over the remaining variadic arguments. *)
Fixpoint join_loop (args : list ptr) (i num_paths : Z) (path_buf : ptr)
  (path_len : Z) : result ptr :=
  match args with
  | [] => Ret path_buf
  | fs_name :: args' =>
      if path_len <? BUF_SIZE_FS_PATH then
        fs_len <- strlen fs_name ;;
        fs_name <- path_remove_prefix fs_name fs_len ;;
        fs_len <- strlen fs_name ;;
        fs_name <- path_remove_suffix fs_name fs_len ;;
        n <- strlen fs_name ;;
        let path_len := size_t (path_len + n) in
        buf <- strcat path_buf fs_name ;;
        if i <? size_t (num_paths - 1) then
          buf <- store buf path_len PATH_SEPARATOR ;;
          join_loop args' (i + 1) num_paths (Some buf) (size_t (path_len + 1))
        else join_loop args' (i + 1) num_paths (Some buf) path_len
      else Ret path_buf
  end.

(** [path_join(num_paths, ...)] with [num_paths] the number of arguments. *)
Definition path_join (args : list ptr) : result ptr :=
  join_loop args 0 (Z.of_nat (List.length args)) (calloc BUF_SIZE_FS_PATH) 0.

(** Modelled from the spec: the macro [FS_JOIN_PATH] is defined in the
    absent [sftp_path.h].  The specification knows one join operation,
    [join(parts...)], and the comment of [path_join] recommends the macro
    in place of the function, so the macro is [path_join] applied to its
    arguments and their count. *)
Definition FS_JOIN_PATH (args : list ptr) : result ptr := path_join args.

(** [path_buf_clear]. *)
Fixpoint buf_clear_loop (n : nat) (path_buf : buffer) (i : Z) : result buffer :=
  match n with
  | O => Ret path_buf
  | S n' =>
      path_buf' <- store path_buf i NUL ;;
      buf_clear_loop n' path_buf' (i + 1)
  end.

Definition path_buf_clear (path_buf : buffer) (length : Z) : result buffer :=
  buf_clear_loop (Z.to_nat length) path_buf 0.

(** Modelled from the spec: [path_split] calls [List_push] with a third
    argument, a byte count, while the [List_push] of [sftp_list.c] takes
    two.  The specification has [push(seq, elem)] append the element and
    [split] return the sequence of components, so the three-argument call
    appends a copy of the first [size] bytes of [attr]. *)
Definition List_push_sized (self : ListT.t buffer) (attr : buffer) (size : Z)
  : result (ListT.t buffer) :=
  if size <=? blen attr
  then List_push self (firstn (Z.to_nat size) attr)
  else Fault.

(** The loop of [path_split], with [n] iterations left. *)
Fixpoint split_loop (n : nat) (path_str : ptr) (i : Z)
  (path_list : ListT.t buffer) (path_buf : buffer) (path_buf_len : Z)
  : result (ListT.t buffer * buffer * Z) :=
  match n with
  | O => Ret (path_list, path_buf, path_buf_len)
  | S n' =>
      src <- deref path_str ;;
      c <- load src i ;;
      if negb (Ascii.eqb c PATH_SEPARATOR) then
        path_buf <- store path_buf path_buf_len c ;;
        split_loop n' path_str (i + 1) path_list path_buf (size_t (path_buf_len + 1))
      else
        path_buf <- store path_buf path_buf_len NUL ;;
        path_list <- List_push_sized path_list path_buf (size_t (path_buf_len + 1)) ;;
        path_buf <- path_buf_clear path_buf BUF_SIZE_FS_NAME ;;
        split_loop n' path_str (i + 1) path_list path_buf 0
  end.

Definition path_split (path_str : ptr) (length : Z) : result (ListT.t buffer) :=
  let path_list := List_new buffer 0 PTR_SIZE in
  path_buf <- deref (malloc BUF_SIZE_FS_NAME) ;;
  '(path_list, path_buf, path_buf_len) <-
     split_loop (Z.to_nat length) path_str 0 path_list path_buf 0 ;;
  List_push_sized path_list path_buf (size_t (path_buf_len + 1)).

(** [!strcmp (path_str, s)]. *)
Definition streq (path_str : ptr) (s : list ascii) : result bool :=
  b <- deref path_str ;;
  t <- cstring b ;;
  Ret (if list_eq_dec ascii_dec t s then true else false).

Definition path_is_dotted (path_str : ptr) (length : Z) : result bool :=
  if 2 <? length then Ret false
  else
    dot <- streq path_str (str ".") ;;
    if dot : bool then Ret true else streq path_str (str "..").

Definition path_is_hidden (path_str : ptr) (length : Z) : result bool :=
  if length =? 0 then Ret false
  else
    b <- deref path_str ;;
    c <- load b 0 ;;
    Ret (Ascii.eqb c "."%char).

(** The search loop of [path_replace_grandparent], with [n] iterations
    left. *)
Fixpoint find_slash (n : nat) (path_str : ptr) (slash_index : Z) : result Z :=
  match n with
  | O => Ret slash_index
  | S n' =>
      b <- deref path_str ;;
      c <- load b slash_index ;;
      if Ascii.eqb c PATH_SEPARATOR then Ret slash_index
      else find_slash n' path_str (slash_index + 1)
  end.

(** [path_replace_grandparent]; [return false] in a function that returns
    [char *] is a null pointer. *)
Definition path_replace_grandparent (path_str : ptr) (length_str : Z)
  (grandparent : ptr) : result ptr :=
  if length_str <? 3 then Ret None
  else
    slash_index <- find_slash (Z.to_nat length_str) path_str 0 ;;
    if slash_index =? length_str then Ret path_str
    else
      replaced_head <- path_str_slice path_str (size_t (slash_index + 1)) length_str ;;
      FS_JOIN_PATH [grandparent; replaced_head].

(** *** The local path materializer

    [stat] and [mkdir] act on the local file system.  It is an abstract
    state [world] with the two system calls as functions: [stat] gives the
    return code, [mkdir] the return code and the new state.  The calls made
    are recorded in order.

    The code hands a system call a pointer and does not look at what it
    points to.  The call is given what it reads through the pointer: the
    string that starts there, or [Fault] when the cells hold no
    terminated string; what it does then is up to the file system. *)

Definition path_arg (path : ptr) : result (list ascii) :=
  b <- deref path ;; cstring b.

Inductive syscall : Type :=
| Stat (path : result (list ascii))
| Mkdir (path : result (list ascii)) (mode : Z).

Section Materializer.

Variable world : Type.
Variable stat : world -> result (list ascii) -> Z.
Variable mkdir : world -> result (list ascii) -> Z -> Z * world.

(** [FS_CREATE_PERM] comes from the absent header. *)
Variable FS_CREATE_PERM : Z.

(** The loop of [path_mkdir_parents], with [n] iterations left.  The
    result is the return value, the file system and the calls made.  The
    value of [mkdir] is tested as it is stored in [result], an [int8_t];
    the report of a failure prints the string at [path_buf]. *)
Fixpoint mkdir_loop (n : nat) (path_list : ListT.t buffer) (i : Z)
  (path_buf : ptr) (w : world) (calls : list syscall)
  : result (Z * world * list syscall) :=
  match n with
  | O => Ret (1, w, calls)
  | S n' =>
      path_buf <-
        (if negb (i =? 0)
         then part <- List_get path_list i ;; FS_JOIN_PATH [path_buf; part]
         else Ret path_buf) ;;
      let p := path_arg path_buf in
      if stat w p =? -1 then
        let '(result, w') := mkdir w p FS_CREATE_PERM in
        if negb (int8_t result =? 0)
        then _ <- p ;; Ret (0, w', calls ++ [Stat p; Mkdir p FS_CREATE_PERM])
        else mkdir_loop n' path_list (i + 1) path_buf w'
               (calls ++ [Stat p; Mkdir p FS_CREATE_PERM])
      else mkdir_loop n' path_list (i + 1) path_buf w (calls ++ [Stat p])
  end.

Definition path_mkdir_parents (path_str : ptr) (length : Z) (w : world)
  : result (Z * world * list syscall) :=
  path_list <- path_split path_str length ;;
  path_buf <- List_get path_list 0 ;;
  mkdir_loop (Z.to_nat (ListT.length path_list)) path_list 0 path_buf w [].

End Materializer.

(** *** File system entries *)

(** [FileTypesT]; the enumeration is declared in an absent header, the two
    constants are the ones the reader uses. *)
Inductive FileTypesT : Type :=
| FS_REG_FILE
| FS_DIRECTORY.

Record FileSystemT : Type := mkFileSystem {
  name : ptr;
  relative_path : ptr;
  absolute_path : ptr;
  grandparent_path : ptr;
  parent_path : ptr;
  type : FileTypesT
}.

Definition FileSystem_from_path (path : ptr) (type : FileTypesT)
  : result FileSystemT :=
  let file_system :=
    mkFileSystem (malloc BUF_SIZE_FS_NAME) (malloc BUF_SIZE_FS_PATH)
      (malloc BUF_SIZE_FS_PATH) (malloc BUF_SIZE_FS_PATH)
      (malloc BUF_SIZE_FS_PATH) type in
  b <- deref path ;;
  c <- load b 0 ;;
  file_system <-
    (if Ascii.eqb c PATH_SEPARATOR then
       a <- strcpy (absolute_path file_system) path ;;
       Ret (mkFileSystem (name file_system) (relative_path file_system)
              (Some a) (grandparent_path file_system)
              (parent_path file_system) type)
     else
       r <- strcpy (relative_path file_system) path ;;
       Ret (mkFileSystem (name file_system) (Some r)
              (absolute_path file_system) (grandparent_path file_system)
              (parent_path file_system) type)) ;;
  n <- strlen path ;;
  split <- path_split path n ;;
  '(last, _) <- List_pop split ;;
  nm <- strcpy (name file_system) last ;;
  Ret (mkFileSystem (Some nm) (relative_path file_system)
         (absolute_path file_system) (grandparent_path file_system)
         (parent_path file_system) type).

(** [FileSystem_copy (self, dest)]; the result is the new [dest]. *)
Definition FileSystem_copy (self dest : FileSystemT) : result FileSystemT :=
  nm <- strcpy (name dest) (name self) ;;
  r <- strcpy (relative_path dest) (relative_path self) ;;
  Ret (mkFileSystem (Some nm) (Some r) (absolute_path dest)
         (grandparent_path dest) (parent_path dest) (type dest)).

Definition FileSystem_list_push (self : ListT.t FileSystemT) (fs : FileSystemT)
  : result (ListT.t FileSystemT) :=
  let self := List_re_alloc self (size_t (ListT.length self + 1)) in
  fresh <- FileSystem_from_path (relative_path fs) (type fs) ;;
  self <- set_slot self (ListT.length self) fresh ;;
  dest <- get_slot self (ListT.length self) ;;
  let i := ListT.length self in
  let self := set_length self (size_t (ListT.length self + 1)) in
  dest <- FileSystem_copy fs dest ;;
  set_slot self i dest.

(** *** The remote directory reader *)

(** The attributes [sftp_readdir] returns: the fields the reader uses. *)
Record sftp_attributes : Type := mkAttr {
  attr_name : ptr;
  attr_type : Z
}.

(** libssh's constants. *)
Definition SSH_FILEXFER_TYPE_REGULAR : Z := 1.
Definition SSH_FILEXFER_TYPE_DIRECTORY : Z := 2.
Definition SSH_FX_OK : Z := 0.

(** The remote side of one call, as libssh presents it: whether
    [sftp_opendir] gives a handle, the attributes the successive
    [sftp_readdir] calls return before [NULL], the status of
    [sftp_closedir], and whether [sftp_closedir] frees the handle it is
    given.  libssh's does, whatever it returns: it ends with
    [SAFE_FREE (dir)]. *)
Record remote : Type := mkRemote {
  opendir_ok : bool;
  readdir_stream : list sftp_attributes;
  closedir_status : Z;
  closedir_frees_handle : bool
}.

(** What the reader reports through [DBG_ERR] and [DBG_INFO]. *)
Inductive report : Type :=
| OPEN_FAILED
| CLOSE_FAILED
| IGNORED (type_code : Z).

(** The [switch] on [attr->type]: the entry type, or [None] for the
    [default] branch. *)
Definition file_system_type_of (attr_type : Z) : option FileTypesT :=
  if attr_type =? SSH_FILEXFER_TYPE_REGULAR then Some FS_REG_FILE
  else if attr_type =? SSH_FILEXFER_TYPE_DIRECTORY then Some FS_DIRECTORY
  else None.

(** The [while] loop of [path_read_remote_dir] over what [sftp_readdir]
    still has to return. *)
Fixpoint read_loop (stream : list sftp_attributes) (path : ptr)
  (path_content_list : ListT.t FileSystemT) (log : list report)
  : result (ListT.t FileSystemT * list report) :=
  match stream with
  | [] => Ret (path_content_list, log)
  | attr :: stream' =>
      attr_relative_path <- FS_JOIN_PATH [path; attr_name attr] ;;
      match file_system_type_of (attr_type attr) with
      | Some file_system_type =>
          file_system <- FileSystem_from_path attr_relative_path file_system_type ;;
          path_content_list <- FileSystem_list_push path_content_list file_system ;;
          read_loop stream' path path_content_list log
      | None =>
          read_loop stream' path path_content_list
            (log ++ [IGNORED (attr_type attr)])
      end
  end.

(** [path_read_remote_dir]: the returned pointer ([None] for [NULL]) and
    the reports.  The status of [sftp_closedir] is tested as it is stored
    in [result], a [uint8_t]; the report of a failure reads [dir->name]
    after the call, through a dangling pointer when the handle was
    freed.  The report of a failed [sftp_opendir] prints the string at
    [path]. *)
Definition path_read_remote_dir (session : remote) (path : ptr)
  : result (option (ListT.t FileSystemT) * list report) :=
  let path_content_list := List_new FileSystemT 1 PTR_SIZE in
  if negb (opendir_ok session) then
    _ <- path_arg path ;; Ret (None, [OPEN_FAILED])
  else
    '(path_content_list, log) <-
       read_loop (readdir_stream session) path path_content_list [] ;;
    let result := uint8_t (closedir_status session) in
    if negb (result =? SSH_FX_OK) then
      _ <- (if closedir_frees_handle session then Fault else Ret tt) ;;
      Ret (None, log ++ [CLOSE_FAILED])
    else Ret (Some path_content_list, log).

End Buffers.

End Path.

Import Path.

(** * Specification-level notions *)

(** A string that can be the contents of a C string. *)
Definition nul_free (s : list ascii) : Prop := Forall (fun c => c <> NUL) s.

(** What [path_join] does to one argument before appending it. *)
Definition strip_part (fs_name : ptr) : result ptr :=
  fs_len <- strlen fs_name ;;
  fs_name <- path_remove_prefix fs_name fs_len ;;
  fs_len <- strlen fs_name ;;
  path_remove_suffix fs_name fs_len.

(** The string [path_join] builds from the stripped arguments: each one
    followed by a separator, except the last. *)
Fixpoint join_with (qs : list (list ascii)) : list ascii :=
  match qs with
  | [] => []
  | q :: qs' =>
      match qs' with
      | [] => q
      | _ :: _ => q ++ PATH_SEPARATOR :: join_with qs'
      end
  end.

(** A zeroed block of [size] bytes whose first bytes are [content]. *)
Definition path_buffer (size : Z) (content : list ascii) : buffer :=
  bytes content ++ repeat (Byte NUL) (Z.to_nat size - List.length content).

(** An argument of [path_join] that is stripped to the string [q]. *)
Definition strips_to (fs_name : ptr) (q : list ascii) : Prop :=
  exists b, strip_part fs_name = Ret (Some b) /\ cstring b = Ret q.

(** A well-formed list whose elements are [xs]: the block has [allocated]
    slots, the first [length] of them hold [xs], and the block is one the
    allocator can have returned. *)
Definition list_holds {A : Type} (self : ListT.t A) (xs : list A) : Prop :=
  exists rest : slots A,
    ListT.list self = Some (map Some xs ++ rest) /\
    ListT.length self = Z.of_nat (List.length xs) /\
    ListT.allocated self = Z.of_nat (List.length xs + List.length rest) /\
    ListT.allocated self * PTR_SIZE <= PTRDIFF_MAX.

(** The invariant of the dynamic sequence. *)
Definition list_invariant {A : Type} (self : ListT.t A) : Prop :=
  0 <= ListT.length self <= ListT.allocated self.

(** The new capacity [List_re_alloc] computes. *)
Definition over_allocate (new_size : Z) : Z :=
  Z.land (size_t (new_size + Z.shiftr new_size 3 + 6)) (SIZE_MAX - 3).

(** [n] successive calls of [List_push]. *)
Fixpoint push_all {A : Type} (self : ListT.t A) (xs : list A)
  : result (ListT.t A) :=
  match xs with
  | [] => Ret self
  | x :: xs' => self' <- List_push self x ;; push_all self' xs'
  end.

(** The components of a path: what lies between consecutive separators,
    empty components included. *)
Fixpoint split_sep (s : list ascii) : list (list ascii) :=
  match s with
  | [] => [[]]
  | c :: s' =>
      if Ascii.eqb c PATH_SEPARATOR then [] :: split_sep s'
      else (c :: hd [] (split_sep s')) :: tl (split_sep s')
  end.

Definition sep_free (s : list ascii) : Prop :=
  Forall (fun c => c <> PATH_SEPARATOR) s.

(** A block of [size] bytes that starts with [content] and is [fill]
    everywhere else. *)
Definition block (size : Z) (content : list ascii) (fill : memval) : buffer :=
  bytes content ++ repeat fill (Z.to_nat size - List.length content).

(** A freshly allocated block of [size] bytes into which the string [s]
    was copied. *)
Definition named (size : Z) (s : list ascii) : buffer :=
  lit s ++ repeat Undef (Z.to_nat size - List.length s - 1).

(** The entry [FileSystem_from_path] builds for a relative path [rel]
    whose last component is [nm]. *)
Definition entry (BN BP : Z) (nm rel : list ascii) (ty : FileTypesT)
  : FileSystemT :=
  mkFileSystem (Some (named BN nm)) (Some (named BP rel))
    (malloc BP) (malloc BP) (malloc BP) ty.

(** A string the two stripping functions leave alone: no terminator
    inside, no leading separator, no leading "./", no trailing separator. *)
Definition plainb (s : list ascii) : bool :=
  forallb (fun c => negb (Ascii.eqb c NUL)) s
  && match s with
     | c0 :: _ => negb (Ascii.eqb c0 PATH_SEPARATOR)
     | [] => true
     end
  && match s with
     | c0 :: c1 :: _ => negb (Ascii.eqb c0 "."%char && Ascii.eqb c1 PATH_SEPARATOR)
     | _ => true
     end
  && negb (Ascii.eqb (last s NUL) PATH_SEPARATOR).

(** A single component: no terminator and no separator inside. *)
Definition componentb (s : list ascii) : bool :=
  forallb (fun c => negb (Ascii.eqb c NUL) && negb (Ascii.eqb c PATH_SEPARATOR)) s.

(** The stream a mock session emits for a list of names and type codes. *)
Definition mock_stream (items : list (list ascii * Z)) : list sftp_attributes :=
  map (fun item => mkAttr (Some (lit (fst item))) (snd item)) items.

(** The entries the reader is expected to return for a directory [dir]:
    one per item of a recognised type, in the order of the items. *)
Definition expected_entries (BN BP : Z) (dir : list ascii)
  (items : list (list ascii * Z)) : list FileSystemT :=
  flat_map (fun item =>
              match file_system_type_of (snd item) with
              | Some ty =>
                  [entry BN BP (fst item) (dir ++ PATH_SEPARATOR :: fst item) ty]
              | None => []
              end) items.

(** The reports expected for the items of other types. *)
Definition expected_reports (items : list (list ascii * Z)) : list report :=
  flat_map (fun item =>
              match file_system_type_of (snd item) with
              | Some _ => []
              | None => [IGNORED (snd item)]
              end) items.

(** An item the reader can store: its name is one component that fits the
    name buffer, and its path fits the path buffer. *)
Definition storable (BN BP : Z) (dir : list ascii) (item : list ascii * Z)
  : bool :=
  componentb (fst item)
  && (Z.of_nat (List.length (fst item)) <? BN)
  && (Z.of_nat (List.length (dir ++ PATH_SEPARATOR :: fst item)) <? BP).

(** A directory path the reader can work with: relative, plain, and made
    of components that fit the name buffer. *)
Definition readable (BN : Z) (dir : list ascii) : bool :=
  plainb dir
  && negb (Nat.eqb (List.length dir) 0)
  && forallb (fun comp => Z.of_nat (List.length comp) <? BN) (split_sep dir).

(** The C string a returned pointer points to. *)
Definition string_of (r : result ptr) : result (list ascii) :=
  p <- r ;; b <- deref p ;; cstring b.

(** The strings all the arguments of [path_join] are stripped to. *)
Fixpoint strip_all (args : list ptr) : result (list (list ascii)) :=
  match args with
  | [] => Ret []
  | a :: args' =>
      q <- string_of (strip_part a) ;;
      qs <- strip_all args' ;;
      Ret (q :: qs)
  end.

(** The specification's [strip_leading] and [strip_trailing]: the two
    functions applied to a string and its length. *)
Definition strip_leading (path_str : ptr) : result ptr :=
  length <- strlen path_str ;; path_remove_prefix path_str length.

Definition strip_trailing (path_str : ptr) : result ptr :=
  length <- strlen path_str ;; path_remove_suffix path_str length.

(** The mutations of a dynamic sequence, and a run of them.  [List_pop]
    on an empty list returns [NULL] and leaves the list as it is. *)
Inductive mutation (A : Type) : Type :=
| Push (x : A)
| Pop.

Arguments Pop {A}.

Fixpoint run {A : Type} (self : ListT.t A) (ops : list (mutation A))
  : result (ListT.t A) :=
  match ops with
  | [] => Ret self
  | Push x :: ops' => self' <- List_push self x ;; run self' ops'
  | Pop :: ops' => r <- List_pop self ;; run (snd r) ops'
  end.

(** The number of separators in a string. *)
Definition count_sep (s : list ascii) : nat :=
  List.length (filter (Ascii.eqb PATH_SEPARATOR) s).

(** The paths [path_mkdir_parents] probes for a path made of the
    components [comps]: the first component, then each longer prefix. *)
Fixpoint prefix_paths_from (prefix : list ascii) (comps : list (list ascii))
  : list (list ascii) :=
  match comps with
  | [] => []
  | c :: comps' =>
      let prefix' := prefix ++ PATH_SEPARATOR :: c in
      prefix' :: prefix_paths_from prefix' comps'
  end.

Definition prefix_paths (comps : list (list ascii)) : list (list ascii) :=
  match comps with
  | [] => []
  | c :: comps' => c :: prefix_paths_from c comps'
  end.

(** What the materializer does with the file system for a list of paths:
    each path in turn is probed with [stat] and, when [stat] returns -1,
    created with [mkdir]; the first failing [mkdir] ends the run with 0. *)
Section Materialize.

Variable world : Type.
Variable stat : world -> result (list ascii) -> Z.
Variable mkdir : world -> result (list ascii) -> Z -> Z * world.
Variable mode : Z.

Fixpoint materialize (paths : list (list ascii)) (w : world)
  (calls : list syscall) : Z * world * list syscall :=
  match paths with
  | [] => (1, w, calls)
  | p :: paths' =>
      if stat w (Ret p) =? -1 then
        let '(result, w') := mkdir w (Ret p) mode in
        if negb (result =? 0)
        then (0, w', calls ++ [Stat (Ret p); Mkdir (Ret p) mode])
        else materialize paths' w' (calls ++ [Stat (Ret p); Mkdir (Ret p) mode])
      else materialize paths' w (calls ++ [Stat (Ret p)])
  end.

End Materialize.

(** A component the materializer can handle: not empty, no separator or
    terminator inside, and short enough for the name buffer. *)
Definition dir_nameb (BN : Z) (c : list ascii) : bool :=
  componentb c
  && negb (Nat.eqb (List.length c) 0)
  && (Z.of_nat (List.length c) <? BN).

(** A prefix that stays as it is when it is joined to the next component. *)
Definition steady (prefix : list ascii) : Prop :=
  plainb prefix = true /\ prefix <> [] /\ prefix <> ["."%char].

(** A model file system for the examples: the list of the directories that
    exist.  [mkdir] fails on a directory that exists.  As under POSIX, the
    empty path names nothing: [stat] and [mkdir] fail on it, and they fail
    when there is no string to read. *)
Definition model_stat (w : list (list ascii)) (path : result (list ascii)) : Z :=
  match path with
  | Ret ((_ :: _) as p) => if in_dec (list_eq_dec ascii_dec) p w then 0 else -1
  | _ => -1
  end.

Definition model_mkdir (w : list (list ascii)) (path : result (list ascii))
  (mode : Z) : Z * list (list ascii) :=
  match path with
  | Ret ((_ :: _) as p) =>
      if in_dec (list_eq_dec ascii_dec) p w then (-1, w) else (0, w ++ [p])
  | _ => (-1, w)
  end.

(** The entry types the reader is to give the remote type codes of the
    SFTP protocol: 1 is a regular file, 2 a directory; entries of any other
    type are left out. *)
Definition expected_type (type_code : Z) : option FileTypesT :=
  match type_code with
  | 1 => Some FS_REG_FILE
  | 2 => Some FS_DIRECTORY
  | _ => None
  end.

(** The names of the items the reader is to keep, with their entry types,
    and the type codes of the others. *)
Definition kept (items : list (list ascii * Z))
  : list (list ascii * FileTypesT) :=
  flat_map (fun item =>
              match expected_type (snd item) with
              | Some ty => [(fst item, ty)]
              | None => []
              end) items.

Definition skipped (items : list (list ascii * Z)) : list Z :=
  flat_map (fun item =>
              match expected_type (snd item) with
              | Some _ => []
              | None => [snd item]
              end) items.

(** [n] successive calls of [List_pop]: the pointers returned, in the order
    of the calls, and the list that is left. *)
Fixpoint pop_all {A : Type} (n : nat) (self : ListT.t A)
  : result (list (option A) * ListT.t A) :=
  match n with
  | O => Ret ([], self)
  | S n' =>
      r <- List_pop self ;;
      rs <- pop_all n' (snd r) ;;
      Ret (fst r :: fst rs, snd rs)
  end.

(** The outcome of [path_remove_prefix] on the pointer [p] to a buffer
    that starts with the bytes [s], read off the first two of them. *)
Definition remove_prefix_result (s : list ascii) (p : ptr) : result ptr :=
  match s with
  | c0 :: c1 :: t =>
      if Ascii.eqb c0 "."%char && Ascii.eqb c1 PATH_SEPARATOR then
        match t with
        | [] => Ret None
        | _ :: _ => Fault
        end
      else if Ascii.eqb c0 PATH_SEPARATOR then
        if Ascii.eqb c1 PATH_SEPARATOR then Fault
        else Ret (Some (lit (removelast s)))
      else Ret p
  | _ => Ret p
  end.

(** The number of separators a string starts with. *)
Fixpoint leading_seps (s : list ascii) : nat :=
  match s with
  | [] => O
  | c :: s' => if Ascii.eqb c PATH_SEPARATOR then S (leading_seps s') else O
  end.

(** [nul_free] as a test. *)
Definition nul_freeb (s : list ascii) : bool :=
  forallb (fun c => negb (Ascii.eqb c NUL)) s.

(** * Properties *)

(** ** Buffers *)

Lemma bind_ret {A B : Type} (m : result A) (k : A -> result B) (b : B) :
  bind m k = Ret b -> exists a, m = Ret a /\ k a = Ret b.
Proof. destruct m as [a|]; simpl; [eauto | discriminate]. Qed.

Lemma blen_nonneg (b : buffer) : 0 <= blen b.
Proof. unfold blen; lia. Qed.

Lemma blen_app (a b : buffer) : blen (a ++ b) = blen a + blen b.
Proof. unfold blen; rewrite length_app; lia. Qed.

Lemma blen_cons (v : memval) (b : buffer) : blen (v :: b) = 1 + blen b.
Proof. unfold blen; simpl List.length; lia. Qed.

Lemma blen_nil : blen [] = 0.
Proof. reflexivity. Qed.

Lemma blen_bytes (s : list ascii) : blen (bytes s) = Z.of_nat (List.length s).
Proof. unfold blen, bytes; now rewrite length_map. Qed.

Lemma blen_lit (s : list ascii) : blen (lit s) = Z.of_nat (List.length s) + 1.
Proof. unfold lit; rewrite blen_app, blen_bytes; reflexivity. Qed.

Lemma blen_repeat (v : memval) (n : nat) : blen (repeat v n) = Z.of_nat n.
Proof. unfold blen; now rewrite repeat_length. Qed.

Create Rewrite HintDb blen.
#[local] Hint Rewrite blen_app blen_cons blen_nil blen_bytes blen_lit blen_repeat : blen.

Lemma in_bounds_mid (a : buffer) (v : memval) (r : buffer) :
  (0 <=? blen a) && (blen a <? blen (a ++ v :: r)) = true.
Proof.
  apply andb_true_intro; split.
  - apply Z.leb_le, blen_nonneg.
  - apply Z.ltb_lt. autorewrite with blen. pose proof (blen_nonneg r); lia.
Qed.

Lemma nth_mid (a : buffer) (v : memval) (r : buffer) :
  nth (Z.to_nat (blen a)) (a ++ v :: r) Undef = v.
Proof.
  unfold blen; rewrite Nat2Z.id, app_nth2, Nat.sub_diag by lia; reflexivity.
Qed.

Lemma firstn_mid (a : buffer) (r : buffer) :
  firstn (Z.to_nat (blen a)) (a ++ r) = a.
Proof.
  unfold blen; rewrite Nat2Z.id, firstn_app, Nat.sub_diag, firstn_all; simpl.
  apply app_nil_r.
Qed.

Lemma skipn_mid (a : buffer) (v : memval) (r : buffer) :
  skipn (Z.to_nat (blen a) + 1) (a ++ v :: r) = r.
Proof.
  unfold blen; rewrite Nat2Z.id, skipn_app, skipn_all2 by lia.
  replace (List.length a + 1 - List.length a)%nat with 1%nat by lia.
  reflexivity.
Qed.

Lemma peek_mid (a : buffer) (v : memval) (r : buffer) :
  peek (a ++ v :: r) (blen a) = Ret v.
Proof. unfold peek; now rewrite in_bounds_mid, nth_mid. Qed.

Lemma poke_mid (a : buffer) (w : memval) (r : buffer) (v : memval) :
  poke (a ++ w :: r) (blen a) v = Ret (a ++ v :: r).
Proof. unfold poke; now rewrite in_bounds_mid, firstn_mid, skipn_mid. Qed.

Lemma load_mid (a : buffer) (c : ascii) (r : buffer) :
  load (a ++ Byte c :: r) (blen a) = Ret c.
Proof. unfold load; now rewrite in_bounds_mid, nth_mid. Qed.

Lemma store_mid (a : buffer) (w : memval) (r : buffer) (c : ascii) :
  store (a ++ w :: r) (blen a) c = Ret (a ++ Byte c :: r).
Proof. unfold store; now rewrite in_bounds_mid, firstn_mid, skipn_mid. Qed.

Lemma store_out (b : buffer) (i : Z) (c : ascii) :
  blen b <= i -> store b i c = Fault.
Proof.
  intros H; unfold store.
  replace (i <? blen b) with false by (symmetry; apply Z.ltb_ge; lia).
  now rewrite andb_false_r.
Qed.

Lemma poke_length (b b' : buffer) (i : Z) (v : memval) :
  poke b i v = Ret b' -> blen b' = blen b.
Proof.
  unfold poke; destruct ((0 <=? i) && (i <? blen b)) eqn:E; [|discriminate].
  apply andb_prop in E as [E1 E2]; apply Z.leb_le in E1; apply Z.ltb_lt in E2.
  intros [= <-]; unfold blen in *.
  rewrite length_app, length_cons, length_firstn, length_skipn. lia.
Qed.

Lemma size_t_small (z : Z) : 0 <= z < 2 ^ 64 -> size_t z = z.
Proof. intros H; unfold size_t; now apply Z.mod_small. Qed.

(** ** C strings *)

Lemma cstring_bytes (s : list ascii) (rest : buffer) :
  nul_free s -> cstring (bytes s ++ Byte NUL :: rest) = Ret s.
Proof.
  induction 1 as [|c s Hc _ IH]; simpl; [reflexivity|].
  destruct (Ascii.eqb_spec c NUL) as [->|_]; [contradiction|].
  now rewrite IH.
Qed.

Lemma cstring_lit (s : list ascii) : nul_free s -> cstring (lit s) = Ret s.
Proof. apply cstring_bytes. Qed.

Lemma cstring_inv (b : buffer) (s : list ascii) :
  cstring b = Ret s ->
  nul_free s /\ exists rest, b = bytes s ++ Byte NUL :: rest.
Proof.
  revert s; induction b as [|v b IH]; intros s; simpl; [discriminate|].
  destruct v as [|c]; [discriminate|].
  destruct (Ascii.eqb_spec c NUL) as [->|Hc].
  - intros [= <-]; split; [constructor | now exists b].
  - intros H; apply bind_ret in H as (s' & Hs' & [= <-]).
    destruct (IH _ Hs') as (Hn & rest & ->).
    split; [now constructor | now exists rest].
Qed.

Lemma strlen_bytes (s : list ascii) (rest : buffer) :
  nul_free s ->
  strlen (Some (bytes s ++ Byte NUL :: rest)) = Ret (Z.of_nat (List.length s)).
Proof. intros H; unfold strlen; simpl; now rewrite cstring_bytes. Qed.

(** ** [path_str_slice] *)

Lemma slice_copy_spec (s2 : buffer) :
  forall (d2 s1 s3 d1 d3 : buffer) (start : Z),
    List.length s2 = List.length d2 ->
    0 <= start ->
    blen s1 = start + blen d1 ->
    blen s1 + blen s2 < 2 ^ 64 ->
    slice_copy (List.length s2) (Some (s1 ++ s2 ++ s3)) (d1 ++ d2 ++ d3)
      start (blen s1)
    = Ret (d1 ++ s2 ++ d3).
Proof.
  induction s2 as [|v s2 IH]; intros d2 s1 s3 d1 d3 start Hlen Hstart Hs1 Hmax.
  - destruct d2; [reflexivity | discriminate].
  - destruct d2 as [|w d2]; [discriminate|].
    injection Hlen as Hlen.
    autorewrite with blen in Hmax.
    pose proof (blen_nonneg d1). pose proof (blen_nonneg s2).
    cbn [slice_copy deref bind List.length app].
    rewrite peek_mid; cbn [bind].
    replace (size_t (blen s1 - start)) with (blen d1)
      by (rewrite size_t_small; lia).
    rewrite poke_mid; cbn [bind].
    specialize (IH d2 (s1 ++ [v]) s3 (d1 ++ [v]) d3 start Hlen Hstart).
    autorewrite with blen in IH.
    rewrite <- !app_assoc in IH; cbn [app] in IH.
    replace (blen s1 + 1) with (blen s1 + (1 + 0)) by lia.
    apply IH; lia.
Qed.

Lemma slice_copy_length (n : nat) :
  forall (p : ptr) (d d' : buffer) (start i : Z),
    slice_copy n p d start i = Ret d' -> blen d' = blen d.
Proof.
  induction n as [|n IH]; intros p d d' start i; simpl.
  - now intros [= <-].
  - intros H.
    apply bind_ret in H as (src & _ & H).
    apply bind_ret in H as (v & _ & H).
    apply bind_ret in H as (d1 & Hd1 & H).
    apply IH in H. apply poke_length in Hd1. lia.
Qed.

Lemma calloc_ok (n : Z) :
  n <= PTRDIFF_MAX -> calloc n = Some (repeat (Byte NUL) (Z.to_nat n)).
Proof. intros H; unfold calloc; now rewrite (proj2 (Z.leb_le _ _) H). Qed.

Lemma malloc_ok (n : Z) :
  n <= PTRDIFF_MAX -> malloc n = Some (repeat Undef (Z.to_nat n)).
Proof. intros H; unfold malloc; now rewrite (proj2 (Z.leb_le _ _) H). Qed.

(** A slice that starts at index 0 overwrites its own last byte. *)
Lemma slice_from_zero (a : buffer) (v : memval) (r : buffer) :
  blen a + 1 <= PTRDIFF_MAX ->
  path_str_slice (Some (a ++ v :: r)) 0 (blen a + 1) = Ret (Some (a ++ [Byte NUL])).
Proof.
  intros Hmax. pose proof (blen_nonneg a) as Ha.
  unfold PTRDIFF_MAX in Hmax.
  unfold path_str_slice.
  rewrite Z.sub_0_r, size_t_small by lia.
  replace (blen a + 1 <? 1) with false by (symmetry; apply Z.ltb_ge; lia).
  rewrite calloc_ok by (unfold PTRDIFF_MAX; lia); cbn [deref bind].
  assert (Hn : Z.to_nat (blen a + 1) = List.length (a ++ [v])).
  { unfold blen; rewrite length_app; simpl; lia. }
  rewrite Hn.
  pose proof (slice_copy_spec (a ++ [v]) (repeat (Byte NUL) (List.length (a ++ [v])))
                [] r [] [] (start := 0)) as H.
  cbn [app] in H. rewrite app_nil_r, <- app_assoc in H; cbn [app] in H.
  change (blen []) with 0 in H.
  rewrite H; cycle 1.
  { now rewrite repeat_length. }
  { lia. }
  { lia. }
  { autorewrite with blen. lia. }
  cbn [bind].
  replace (blen a + 1 - 1) with (blen a) by lia.
  rewrite size_t_small by lia.
  rewrite app_nil_r, store_mid. reflexivity.
Qed.

(** A slice that starts after index 0 writes its terminator past the end
    of the block it allocated. *)
Lemma slice_from_later (p : ptr) (start stop : Z) :
  0 < start < stop -> stop <= PTRDIFF_MAX ->
  path_str_slice p start stop = Fault.
Proof.
  intros Hs Hmax. unfold PTRDIFF_MAX in Hmax.
  unfold path_str_slice.
  rewrite size_t_small by lia.
  replace (stop - start <? 1) with false by (symmetry; apply Z.ltb_ge; lia).
  rewrite calloc_ok by (unfold PTRDIFF_MAX; lia); cbn [deref bind].
  destruct (slice_copy _ _ _ _ _) as [d|] eqn:E; [|reflexivity].
  apply slice_copy_length in E. rewrite blen_repeat in E.
  cbn [bind]. rewrite size_t_small by lia.
  rewrite store_out; [reflexivity | lia].
Qed.

Lemma slice_empty (p : ptr) (start : Z) :
  path_str_slice p start start = Ret None.
Proof. unfold path_str_slice. now rewrite Z.sub_diag. Qed.

(** With [stop < start] the length wraps around and no block that large
    can be allocated; the terminator is written through [NULL]. *)
Lemma slice_reversed (p : ptr) (start stop : Z) :
  0 <= stop < start -> start <= PTRDIFF_MAX ->
  path_str_slice p start stop = Fault.
Proof.
  intros Hs Hmax. unfold PTRDIFF_MAX in Hmax.
  unfold path_str_slice.
  assert (Hw : size_t (stop - start) = 2 ^ 64 + (stop - start)).
  { unfold size_t.
    replace (stop - start) with ((stop - start + 2 ^ 64) + (-1) * 2 ^ 64) by lia.
    rewrite Z_mod_plus_full, Z.mod_small; lia. }
  rewrite Hw.
  replace (2 ^ 64 + (stop - start) <? 1) with false
    by (symmetry; apply Z.ltb_ge; lia).
  unfold calloc.
  replace (2 ^ 64 + (stop - start) <=? PTRDIFF_MAX) with false
    by (symmetry; apply Z.leb_gt; unfold PTRDIFF_MAX; lia).
  reflexivity.
Qed.

(** ** [path_remove_suffix] and [path_remove_prefix] *)

Lemma skipn_blen (a r : buffer) : skipn (Z.to_nat (blen a)) (a ++ r) = r.
Proof.
  unfold blen; rewrite Nat2Z.id, skipn_app, skipn_all, Nat.sub_diag.
  reflexivity.
Qed.

Lemma ssize_t_small (n : Z) : n <= PTRDIFF_MAX -> ssize_t n = n.
Proof. intros H; unfold ssize_t; now rewrite (proj2 (Z.leb_le _ _) H). Qed.

Lemma length_snoc {X : Type} (l : list X) (x : X) :
  Z.of_nat (List.length (l ++ [x])) = Z.of_nat (List.length l) + 1.
Proof. rewrite length_app; simpl; lia. Qed.

Lemma bytes_snoc (s : list ascii) (c : ascii) (rest : buffer) :
  bytes (s ++ [c]) ++ rest = bytes s ++ Byte c :: rest.
Proof. unfold bytes; rewrite map_app, <- app_assoc; reflexivity. Qed.

Lemma remove_suffix_short (p : ptr) (length : Z) :
  length < 2 -> path_remove_suffix p length = Ret p.
Proof.
  intros H; unfold path_remove_suffix.
  now rewrite (proj2 (Z.ltb_lt _ _) H).
Qed.

(** A string that does not end in a separator is returned as it is. *)
Lemma remove_suffix_keep (s : list ascii) (c : ascii) (rest : buffer) :
  c <> PATH_SEPARATOR ->
  Z.of_nat (List.length (s ++ [c])) <= PTRDIFF_MAX ->
  let p := Some (bytes (s ++ [c]) ++ Byte NUL :: rest) in
  path_remove_suffix p (Z.of_nat (List.length (s ++ [c]))) = Ret p.
Proof.
  intros Hc Hmax p; subst p. unfold path_remove_suffix.
  destruct (Z.ltb_spec (Z.of_nat (List.length (s ++ [c]))) 2) as [|_];
    [reflexivity|].
  rewrite ssize_t_small by assumption.
  rewrite length_snoc in *.
  replace (-1 <? Z.of_nat (List.length s) + 1 - 1) with true
    by (symmetry; apply Z.ltb_lt; lia).
  cbn [deref bind].
  rewrite bytes_snoc.
  replace (Z.of_nat (List.length s) + 1 - 1) with (blen (bytes s))
    by (rewrite blen_bytes; lia).
  rewrite skipn_blen. cbn [count_suffix].
  destruct (Ascii.eqb_spec c PATH_SEPARATOR) as [->|_]; [contradiction|].
  reflexivity.
Qed.

(** A string that ends in a separator loses exactly that one character,
    whatever precedes it. *)
Lemma remove_suffix_chop (s : list ascii) (rest : buffer) :
  1 <= Z.of_nat (List.length s) ->
  Z.of_nat (List.length (s ++ [PATH_SEPARATOR])) <= PTRDIFF_MAX ->
  path_remove_suffix (Some (bytes (s ++ [PATH_SEPARATOR]) ++ Byte NUL :: rest))
    (Z.of_nat (List.length (s ++ [PATH_SEPARATOR])))
  = Ret (Some (lit s)).
Proof.
  intros Hlen Hmax. unfold path_remove_suffix.
  rewrite ssize_t_small by assumption.
  rewrite length_snoc in *.
  replace (Z.of_nat (List.length s) + 1 <? 2) with false
    by (symmetry; apply Z.ltb_ge; lia).
  replace (-1 <? Z.of_nat (List.length s) + 1 - 1) with true
    by (symmetry; apply Z.ltb_lt; lia).
  cbn [deref bind].
  rewrite bytes_snoc.
  replace (Z.of_nat (List.length s) + 1 - 1) with (blen (bytes s))
    by (rewrite blen_bytes; lia).
  rewrite skipn_blen. cbn [count_suffix].
  change (Ascii.eqb PATH_SEPARATOR PATH_SEPARATOR) with true.
  change (Ascii.eqb NUL PATH_SEPARATOR) with false.
  cbn [bind]. change (size_t (0 + 1)) with 1.
  change (1 =? 0) with false. cbv iota.
  replace (size_t (Z.of_nat (List.length s) + 1 - 1 + 1))
    with (blen (bytes s) + 1)
    by (rewrite blen_bytes, size_t_small; unfold PTRDIFF_MAX in Hmax; lia).
  rewrite slice_from_zero by (rewrite blen_bytes; lia).
  reflexivity.
Qed.

Lemma remove_prefix_short (p : ptr) (length : Z) :
  length < 2 -> path_remove_prefix p length = Ret p.
Proof.
  intros H; unfold path_remove_prefix.
  now rewrite (proj2 (Z.ltb_lt _ _) H).
Qed.

Lemma load_bytes_0 (c : ascii) (s : list ascii) (rest : buffer) :
  load (bytes (c :: s) ++ rest) 0 = Ret c.
Proof. exact (load_mid [] c (bytes s ++ rest)). Qed.

Lemma load_bytes_1 (c0 c1 : ascii) (s : list ascii) (rest : buffer) :
  load (bytes (c0 :: c1 :: s) ++ rest) 1 = Ret c1.
Proof. exact (load_mid [Byte c0] c1 (bytes s ++ rest)). Qed.

(** A string that starts neither with a separator nor with "./" is
    returned as it is. *)
Lemma remove_prefix_keep (c0 : ascii) (s : list ascii) (rest : buffer) :
  c0 <> PATH_SEPARATOR ->
  (c0 = "."%char -> forall t, s <> PATH_SEPARATOR :: t) ->
  let p := Some (bytes (c0 :: s) ++ Byte NUL :: rest) in
  path_remove_prefix p (Z.of_nat (List.length (c0 :: s))) = Ret p.
Proof.
  intros Hc0 Hdot p; subst p. unfold path_remove_prefix.
  destruct (Z.ltb_spec (Z.of_nat (List.length (c0 :: s))) 2) as [|Hlen];
    [reflexivity|].
  cbn [deref bind]. rewrite load_bytes_0; cbn [bind].
  destruct s as [|c1 s]; [simpl in Hlen; lia|].
  assert (Hds : (if Ascii.eqb c0 "."%char
                 then c1' <- load (bytes (c0 :: c1 :: s) ++ Byte NUL :: rest) 1 ;;
                      Ret (Ascii.eqb c1' PATH_SEPARATOR)
                 else Ret false) = Ret false).
  { destruct (Ascii.eqb_spec c0 "."%char) as [E|_]; [|reflexivity].
    rewrite load_bytes_1; cbn [bind].
    destruct (Ascii.eqb_spec c1 PATH_SEPARATOR) as [->|_]; [|reflexivity].
    exfalso; exact (Hdot E s eq_refl). }
  rewrite Hds; cbn [bind].
  replace (Z.to_nat (Z.of_nat (List.length (c0 :: c1 :: s))))
    with (S (List.length (c1 :: s))) by (simpl; lia).
  cbn [count_prefix deref bind]. rewrite load_bytes_0; cbn [bind].
  destruct (Ascii.eqb_spec c0 PATH_SEPARATOR) as [->|_]; [contradiction|].
  reflexivity.
Qed.

(** A string with exactly one leading separator loses its last character:
    the slice taken from index 0 overwrites it. *)
Lemma remove_prefix_chop (c1 : ascii) (u w : list ascii) (c : ascii)
  (rest : buffer) :
  PATH_SEPARATOR :: c1 :: u = w ++ [c] ->
  c1 <> PATH_SEPARATOR ->
  Z.of_nat (List.length (w ++ [c])) <= PTRDIFF_MAX ->
  path_remove_prefix (Some (bytes (w ++ [c]) ++ Byte NUL :: rest))
    (Z.of_nat (List.length (w ++ [c])))
  = Ret (Some (lit w)).
Proof.
  intros Hw Hc1 Hmax.
  assert (L0 : load (bytes (w ++ [c]) ++ Byte NUL :: rest) 0 = Ret PATH_SEPARATOR)
    by (rewrite <- Hw; apply load_bytes_0).
  assert (L1 : load (bytes (w ++ [c]) ++ Byte NUL :: rest) 1 = Ret c1)
    by (rewrite <- Hw; apply load_bytes_1).
  assert (Hn : Z.to_nat (Z.of_nat (List.length (w ++ [c]))) = S (S (List.length u)))
    by (rewrite <- Hw; simpl; lia).
  unfold path_remove_prefix.
  replace (Z.of_nat (List.length (w ++ [c])) <? 2) with false
    by (symmetry; apply Z.ltb_ge; lia).
  cbn [deref bind]. rewrite L0; cbn [bind].
  change (Ascii.eqb PATH_SEPARATOR ".") with false. cbn [bind].
  rewrite Hn.
  cbn [count_prefix deref bind]. rewrite L0; cbn [bind].
  change (Ascii.eqb PATH_SEPARATOR PATH_SEPARATOR) with true. cbv iota.
  change (0 + 1) with 1. rewrite L1; cbn [bind].
  destruct (Ascii.eqb_spec c1 PATH_SEPARATOR) as [->|_]; [contradiction|].
  change (size_t 1) with 1. cbn [bind].
  change (1 =? 0) with false. cbv iota.
  change (size_t (1 - 1)) with 0.
  rewrite bytes_snoc.
  replace (Z.of_nat (List.length (w ++ [c]))) with (blen (bytes w) + 1)
    by (rewrite blen_bytes, length_snoc; reflexivity).
  rewrite slice_from_zero; [reflexivity|].
  rewrite blen_bytes. rewrite length_snoc in Hmax. lia.
Qed.

(** ** [path_join] *)

Lemma path_buffer_unfold (size : Z) (acc : list ascii) (n : nat) :
  (List.length acc + n <= Z.to_nat size)%nat ->
  path_buffer size acc
  = bytes acc ++ repeat (Byte NUL) n
      ++ repeat (Byte NUL) (Z.to_nat size - List.length acc - n).
Proof.
  intros H; unfold path_buffer. rewrite <- repeat_app.
  do 2 f_equal; lia.
Qed.

Lemma blen_path_buffer (size : Z) (acc : list ascii) :
  Z.of_nat (List.length acc) <= size -> blen (path_buffer size acc) = size.
Proof.
  intros H; unfold path_buffer. autorewrite with blen. lia.
Qed.

Lemma strlen_path_buffer (size : Z) (acc : list ascii) :
  nul_free acc -> Z.of_nat (List.length acc) < size ->
  strlen (Some (path_buffer size acc)) = Ret (Z.of_nat (List.length acc)).
Proof.
  intros Hn H. rewrite (@path_buffer_unfold size acc 1) by lia.
  now apply strlen_bytes.
Qed.

Lemma write_string_path_buffer (size : Z) (acc q : list ascii) :
  Z.of_nat (List.length acc) + Z.of_nat (List.length q) < size ->
  write_string (path_buffer size acc) (Z.of_nat (List.length acc)) q
  = Ret (path_buffer size (acc ++ q)).
Proof.
  intros H. unfold write_string.
  rewrite blen_path_buffer by lia.
  replace ((0 <=? Z.of_nat (List.length acc))
           && (Z.of_nat (List.length acc) + Z.of_nat (List.length q) + 1 <=? size))
    with true
    by (symmetry; apply andb_true_intro; split; apply Z.leb_le; lia).
  cbv iota. f_equal.
  rewrite (@path_buffer_unfold size acc (List.length q + 1)) by lia.
  rewrite (@path_buffer_unfold size (acc ++ q) 1) by (rewrite length_app; lia).
  rewrite Nat2Z.id.
  rewrite firstn_app, firstn_all2 by (unfold bytes; rewrite length_map; lia).
  replace (List.length acc - List.length (bytes acc))%nat with 0%nat
    by (unfold bytes; rewrite length_map; lia).
  cbn [firstn]. rewrite app_nil_r.
  rewrite skipn_app, skipn_all2 by (unfold bytes; rewrite length_map; lia).
  cbn [app].
  rewrite skipn_app, skipn_all2
    by (unfold bytes; rewrite length_map, repeat_length; lia).
  cbn [app].
  replace (List.length acc + List.length q + 1 - List.length (bytes acc)
           - List.length (repeat (Byte NUL) (List.length q + 1)))%nat
    with 0%nat
    by (unfold bytes; rewrite length_map, repeat_length; lia).
  cbn [skipn].
  unfold lit, bytes. rewrite map_app, length_app, <- !app_assoc.
  cbn [repeat app]. apply (f_equal (@Ret buffer)). do 4 f_equal. lia.
Qed.

Lemma store_path_buffer (size : Z) (acc : list ascii) (c : ascii) :
  Z.of_nat (List.length acc) < size ->
  store (path_buffer size acc) (Z.of_nat (List.length acc)) c
  = Ret (path_buffer size (acc ++ [c])).
Proof.
  intros H.
  rewrite (@path_buffer_unfold size acc 1) by lia.
  cbn [repeat app].
  rewrite <- blen_bytes, store_mid. apply (f_equal (@Ret buffer)).
  unfold path_buffer, bytes. rewrite map_app, length_app, <- app_assoc.
  cbn [map app List.length]. do 3 f_equal. lia.
Qed.

Lemma nul_free_app (a b : list ascii) :
  nul_free a -> nul_free b -> nul_free (a ++ b).
Proof. intros Ha Hb; apply Forall_app; now split. Qed.

Lemma separator_not_nul : PATH_SEPARATOR <> NUL.
Proof. discriminate. Qed.

Lemma join_with_cons (q q' : list ascii) (qs : list (list ascii)) :
  join_with (q :: q' :: qs) = q ++ PATH_SEPARATOR :: join_with (q' :: qs).
Proof. reflexivity. Qed.

(** The loop invariant of [path_join]: the buffer is zeroed behind what
    has been written, and [path_len] is the length written. *)
Lemma join_loop_spec (size : Z) (args : list ptr) :
  forall (qs : list (list ascii)) (acc : list ascii) (i num_paths : Z),
    Forall2 strips_to args qs ->
    nul_free acc ->
    0 <= i -> i + Z.of_nat (List.length args) = num_paths ->
    num_paths < 2 ^ 64 ->
    Z.of_nat (List.length (acc ++ join_with qs)) < size -> size < 2 ^ 64 ->
    join_loop size args i num_paths (Some (path_buffer size acc))
      (Z.of_nat (List.length acc))
    = Ret (Some (path_buffer size (acc ++ join_with qs))).
Proof.
  induction args as [|a args IH];
    intros qs acc i num_paths HF Hacc Hi Hnum Hnmax Hsize Hsmax;
    inversion HF as [|a' q args' qs' (b & Hstrip & Hq) HF']; subst.
  - simpl. now rewrite app_nil_r.
  - assert (Hlen : Z.of_nat (List.length acc) + Z.of_nat (List.length q) < size).
    { rewrite length_app in Hsize.
      destruct qs' as [|q' qs'']; [cbn in Hsize; lia|].
      rewrite join_with_cons, length_app in Hsize. lia. }
    cbn [join_loop].
    replace (Z.of_nat (List.length acc) <? size) with true
      by (symmetry; apply Z.ltb_lt; lia).
    unfold strip_part in Hstrip.
    apply bind_ret in Hstrip as (n1 & -> & Hstrip).
    apply bind_ret in Hstrip as (p1 & H1 & Hstrip).
    apply bind_ret in Hstrip as (n2 & H2 & Hstrip).
    cbn [bind]. rewrite H1; cbn [bind]. rewrite H2; cbn [bind].
    rewrite Hstrip; cbn [bind].
    destruct (cstring_inv _ Hq) as (Hqn & rest & ->).
    rewrite strlen_bytes by assumption; cbn [bind].
    unfold strcat; cbn [deref bind].
    rewrite strlen_path_buffer by (assumption || lia); cbn [bind].
    rewrite cstring_bytes by assumption; cbn [bind].
    rewrite write_string_path_buffer by lia; cbn [bind].
    cbn [List.length] in Hnmax |- *. rewrite Nat2Z.inj_succ in Hnmax |- *.
    rewrite !size_t_small by lia.
    replace (Z.of_nat (List.length acc) + Z.of_nat (List.length q))
      with (Z.of_nat (List.length (acc ++ q))) by (rewrite length_app; lia).
    destruct qs' as [|q' qs''].
    + inversion HF'; subst. cbn [List.length].
      replace (i <? i + Z.succ (Z.of_nat 0) - 1) with false
        by (symmetry; apply Z.ltb_ge; lia).
      reflexivity.
    + inversion HF' as [|? ? args'' ? ? ?]; subst.
      cbn [List.length] in Hnmax |- *. rewrite Nat2Z.inj_succ in Hnmax |- *.
      replace (i <? i + Z.succ (Z.succ (Z.of_nat (List.length args''))) - 1)
        with true by (symmetry; apply Z.ltb_lt; lia).
      rewrite join_with_cons, length_app in Hsize.
      rewrite store_path_buffer by (rewrite length_app; lia).
      cbn [bind].
      replace (Z.of_nat (List.length (acc ++ q)) + 1)
        with (Z.of_nat (List.length ((acc ++ q) ++ [PATH_SEPARATOR])))
        by (rewrite !length_app; simpl; lia).
      rewrite (IH (q' :: qs'') ((acc ++ q) ++ [PATH_SEPARATOR]) (i + 1)
                 (i + Z.succ (Z.succ (Z.of_nat (List.length args''))))).
      * rewrite join_with_cons. now rewrite <- !app_assoc.
      * assumption.
      * apply nul_free_app; [now apply nul_free_app|].
        constructor; [exact separator_not_nul | constructor].
      * lia.
      * cbn [List.length]. lia.
      * assumption.
      * rewrite <- !app_assoc. cbn [app].
        rewrite !length_app. cbn [List.length]. rewrite !length_app in Hsize.
        cbn [List.length] in Hsize. lia.
      * assumption.
Qed.

Lemma path_join_spec (size : Z) (args : list ptr) (qs : list (list ascii)) :
  Forall2 strips_to args qs ->
  Z.of_nat (List.length (join_with qs)) < size <= PTRDIFF_MAX ->
  Z.of_nat (List.length args) < 2 ^ 64 ->
  path_join size args = Ret (Some (path_buffer size (join_with qs))).
Proof.
  intros HF [Hlen Hmax] Hargs. unfold path_join.
  rewrite calloc_ok by assumption.
  change (repeat (Byte NUL) (Z.to_nat size)) with
    (bytes [] ++ repeat (Byte NUL) (Z.to_nat size)).
  replace (Z.to_nat size) with (Z.to_nat size - List.length (@nil ascii))%nat
    by (simpl; lia).
  fold (path_buffer size []).
  apply (@join_loop_spec size args qs [] 0); try assumption; try lia.
  - constructor.
  - unfold PTRDIFF_MAX in Hmax; lia.
Qed.

Lemma cstring_path_buffer (size : Z) (s : list ascii) :
  nul_free s -> Z.of_nat (List.length s) < size ->
  cstring (path_buffer size s) = Ret s.
Proof.
  intros Hn H. rewrite (@path_buffer_unfold size s 1) by lia.
  now apply cstring_bytes.
Qed.

(** ** The dynamic list *)

Lemma firstn_at {X : Type} (a r : list X) : firstn (List.length a) (a ++ r) = a.
Proof.
  rewrite firstn_app, Nat.sub_diag, firstn_all; simpl. apply app_nil_r.
Qed.

Lemma skipn_succ_at {X : Type} (a : list X) (v : X) (r : list X) :
  skipn (List.length a + 1) (a ++ v :: r) = r.
Proof.
  rewrite skipn_app, skipn_all2 by lia.
  replace (List.length a + 1 - List.length a)%nat with 1%nat by lia.
  reflexivity.
Qed.

Lemma nth_at {X : Type} (a : list X) (v : X) (r : list X) (d : X) :
  nth (List.length a) (a ++ v :: r) d = v.
Proof. rewrite app_nth2, Nat.sub_diag by lia; reflexivity. Qed.

Lemma land_clear_low (x : Z) :
  0 <= x < 2 ^ 64 -> Z.land x (SIZE_MAX - 3) = 4 * (x / 4).
Proof.
  intros Hx. apply Z.bits_inj'. intros k Hk.
  rewrite Z.land_spec.
  replace (4 * (x / 4)) with (Z.shiftl (Z.shiftr x 2) 2)
    by (rewrite Z.shiftl_mul_pow2, Z.shiftr_div_pow2 by lia;
        change (2 ^ 2) with 4; lia).
  change (SIZE_MAX - 3) with (Z.shiftl (Z.ones 62) 2).
  rewrite !Z.shiftl_spec by assumption.
  destruct (Z.ltb_spec k 2) as [Hlt|Hge].
  - rewrite !(fun a => Z.testbit_neg_r a (k - 2)) by lia. apply andb_false_r.
  - rewrite Z.shiftr_spec by lia.
    replace (k - 2 + 2) with k by lia.
    destruct (Z.ltb_spec k 64) as [Hk64|Hk64].
    + rewrite Z.ones_spec_low by lia. apply andb_true_r.
    + rewrite Z.ones_spec_high by lia. rewrite andb_false_r.
      symmetry. rewrite <- (Z.mod_small x (2 ^ 64)) by assumption.
      apply Z.mod_pow2_bits_high; lia.
Qed.

Lemma over_allocate_bounds (n : Z) :
  0 <= n <= 2 ^ 60 ->
  n + 3 <= over_allocate n /\ 8 * over_allocate n <= 9 * n + 48.
Proof.
  intros Hn. unfold over_allocate.
  rewrite Z.shiftr_div_pow2 by lia. change (2 ^ 3) with 8.
  pose proof (Z.mul_div_le n 8 ltac:(lia)) as Hle.
  assert (0 <= n / 8) by (apply Z.div_pos; lia).
  rewrite size_t_small by lia.
  rewrite land_clear_low by lia.
  pose proof (Z.mul_div_le (n + n / 8 + 6) 4 ltac:(lia)).
  pose proof (Z.div_mod (n + n / 8 + 6) 4 ltac:(lia)).
  pose proof (Z.mod_pos_bound (n + n / 8 + 6) 4 ltac:(lia)).
  lia.
Qed.

Section ListFacts.

Variable A : Type.
Implicit Types (self : ListT.t A) (xs : list A) (x : A).

Lemma list_holds_invariant self xs :
  list_holds self xs -> list_invariant self.
Proof.
  intros (rest & _ & Hl & Ha & _). unfold list_invariant. lia.
Qed.

Lemma list_holds_length self xs :
  list_holds self xs -> ListT.length self = Z.of_nat (List.length xs).
Proof. now intros (rest & _ & Hl & _). Qed.

Lemma list_holds_small self xs :
  list_holds self xs -> Z.of_nat (List.length xs) <= ListT.allocated self < 2 ^ 60.
Proof.
  intros (rest & _ & Hl & Ha & Hm). unfold PTR_SIZE, PTRDIFF_MAX in Hm. lia.
Qed.

Lemma list_holds_new (n : Z) :
  0 <= n -> n * PTR_SIZE <= PTRDIFF_MAX ->
  list_holds (List_new A n PTR_SIZE) [].
Proof.
  intros Hn Hm. exists (repeat None (Z.to_nat n)).
  unfold List_new, malloc_slots. cbn [ListT.list ListT.length ListT.allocated].
  rewrite size_t_small by (unfold PTR_SIZE, PTRDIFF_MAX in *; lia).
  rewrite (proj2 (Z.leb_le _ _) Hm).
  unfold PTR_SIZE at 2. rewrite Z.div_mul by discriminate.
  rewrite repeat_length. cbn [map app List.length].
  repeat split; try assumption; lia.
Qed.

(** What [List_re_alloc] leaves when asked for room for one more element:
    either a block with a free slot, or [NULL]. *)
Lemma re_alloc_for_push self xs :
  list_holds self xs ->
  let self1 := List_re_alloc self (size_t (ListT.length self + 1)) in
  ListT.length self1 = Z.of_nat (List.length xs) /\
  ((exists (o : option A) (rest : slots A),
       ListT.list self1 = Some (map Some xs ++ o :: rest) /\
       ListT.allocated self1 = Z.of_nat (List.length xs + S (List.length rest)) /\
       ListT.allocated self1 * PTR_SIZE <= PTRDIFF_MAX /\
       ListT.allocated self <= ListT.allocated self1)
   \/ (ListT.list self1 = None /\ 2 ^ 59 <= Z.of_nat (List.length xs))).
Proof.
  intros H. pose proof (list_holds_small H) as Hsmall.
  destruct H as (rest & Hlist & Hl & Ha & Hm).
  intros self1; subst self1. unfold List_re_alloc.
  rewrite Hl, size_t_small by lia.
  destruct (Z.geb_spec (ListT.allocated self) (Z.of_nat (List.length xs) + 1))
    as [Hge|Hlt].
  - split; [assumption|]. left.
    destruct rest as [|o rest]; [cbn [List.length] in Ha; lia|].
    exists o, rest. repeat split; try assumption. lia.
  - fold (over_allocate (Z.of_nat (List.length xs) + 1)).
    pose proof (@over_allocate_bounds (Z.of_nat (List.length xs) + 1) ltac:(lia))
      as Hov.
    set (new_size := over_allocate (Z.of_nat (List.length xs) + 1)) in *.
    assert (Hrest : rest = []) by (destruct rest; [reflexivity | simpl in Ha; lia]).
    subst rest. rewrite app_nil_r in Hlist.
    unfold realloc_slots. rewrite Hlist.
    rewrite size_t_small by (unfold PTR_SIZE; lia).
    rewrite !Z.div_mul by (unfold PTR_SIZE; discriminate).
    destruct (Z.leb_spec (new_size * PTR_SIZE) PTRDIFF_MAX) as [Hok|Hbig];
      cbn [ListT.list ListT.length ListT.allocated].
    + split; [reflexivity|]. left.
      rewrite firstn_all2 by (rewrite length_map; lia).
      rewrite length_map.
      destruct (Z.to_nat new_size - List.length xs)%nat as [|k] eqn:Ek; [lia|].
      exists None, (repeat None k). cbn [repeat].
      rewrite repeat_length.
      repeat split; try assumption; lia.
    + split; [reflexivity|]. right. split; [reflexivity|].
      unfold PTR_SIZE, PTRDIFF_MAX in Hbig. lia.
Qed.

Lemma set_slot_at self (a : slots A) (o : option A) (r : slots A) x :
  ListT.list self = Some (a ++ o :: r) ->
  set_slot self (Z.of_nat (List.length a)) x
  = Ret (ListT.mk (Some (a ++ Some x :: r)) (ListT.length self)
           (ListT.allocated self)).
Proof.
  intros H. unfold set_slot. rewrite H.
  replace ((0 <=? Z.of_nat (List.length a))
           && (Z.of_nat (List.length a) <? Z.of_nat (List.length (a ++ o :: r))))
    with true.
  2:{ symmetry; apply andb_true_intro; split;
      [apply Z.leb_le | apply Z.ltb_lt; rewrite length_app; simpl]; lia. }
  now rewrite Nat2Z.id, firstn_at, skipn_succ_at.
Qed.

Lemma get_slot_at self (a : slots A) x (r : slots A) :
  ListT.list self = Some (a ++ Some x :: r) ->
  get_slot self (Z.of_nat (List.length a)) = Ret x.
Proof.
  intros H. unfold get_slot. rewrite H.
  replace ((0 <=? Z.of_nat (List.length a))
           && (Z.of_nat (List.length a)
               <? Z.of_nat (List.length (a ++ Some x :: r))))
    with true.
  2:{ symmetry; apply andb_true_intro; split;
      [apply Z.leb_le | apply Z.ltb_lt; rewrite length_app; simpl]; lia. }
  now rewrite Nat2Z.id, nth_at.
Qed.

Lemma map_snoc {X Y : Type} (f : X -> Y) (l : list X) (x : X) (r : list Y) :
  map f (l ++ [x]) ++ r = map f l ++ f x :: r.
Proof. rewrite map_app, <- app_assoc; reflexivity. Qed.

(** A push that returns leaves a well-formed list with the element
    appended, and never shrinks the block. *)
Lemma List_push_inv self self' xs x :
  list_holds self xs ->
  List_push self x = Ret self' ->
  list_holds self' (xs ++ [x]) /\ ListT.allocated self <= ListT.allocated self'.
Proof.
  intros H. pose proof (list_holds_small H) as Hsmall.
  destruct (re_alloc_for_push H) as (Hl1 & Hcase).
  unfold List_push.
  set (self1 := List_re_alloc self (size_t (ListT.length self + 1))) in *.
  rewrite Hl1 in *.
  destruct Hcase as [(o & rest & Hlist & Ha & Hm & Hmono) | (Hnull & _)].
  - rewrite <- (length_map Some xs), (set_slot_at _ _ _ _ x Hlist).
    cbn [bind set_length ListT.list ListT.length ListT.allocated].
    rewrite Hl1, size_t_small by lia. intros [= <-]. split; [|assumption].
    exists rest. unfold set_length.
    cbn [ListT.list ListT.length ListT.allocated].
    rewrite map_snoc, length_app. cbn [List.length].
    repeat split; try assumption; lia.
  - unfold set_slot. rewrite Hnull. discriminate.
Qed.

(** A push onto a list of fewer than 2^59 elements returns. *)
Lemma List_push_ok self xs x :
  list_holds self xs ->
  Z.of_nat (List.length xs) < 2 ^ 59 ->
  exists self', List_push self x = Ret self'.
Proof.
  intros H Hlen.
  destruct (re_alloc_for_push H) as (Hl1 & Hcase).
  unfold List_push.
  set (self1 := List_re_alloc self (size_t (ListT.length self + 1))) in *.
  rewrite Hl1 in *.
  destruct Hcase as [(o & rest & Hlist & _) | (_ & Hbig)]; [|lia].
  rewrite <- (length_map Some xs), (set_slot_at _ _ _ _ x Hlist).
  cbn [bind]. eauto.
Qed.

Lemma List_pop_holds self xs x :
  list_holds self (xs ++ [x]) ->
  exists self',
    List_pop self = Ret (Some x, self') /\ list_holds self' xs /\
    ListT.allocated self' = ListT.allocated self.
Proof.
  intros H. pose proof (list_holds_small H) as Hsmall.
  destruct H as (rest & Hlist & Hl & Ha & Hm).
  rewrite length_app in *. cbn [List.length] in *.
  rewrite map_snoc in Hlist.
  unfold List_pop, List_is_empty. rewrite Hl.
  replace (Z.of_nat (List.length xs + 1) =? 0) with false
    by (symmetry; apply Z.eqb_neq; lia).
  cbn [negb]. cbv iota.
  cbn [set_length ListT.length].
  replace (size_t (Z.of_nat (List.length xs + 1) - 1))
    with (Z.of_nat (List.length (map Some xs)))
    by (rewrite length_map, size_t_small; lia).
  rewrite (@get_slot_at _ (map Some xs) x rest) by exact Hlist.
  cbn [bind]. eexists; split; [reflexivity|]. split; [|reflexivity].
  exists (Some x :: rest). unfold set_length.
  cbn [ListT.list ListT.length ListT.allocated].
  rewrite length_map. cbn [List.length].
  repeat split; try assumption; lia.
Qed.

Lemma List_pop_empty self :
  list_holds self [] -> List_pop self = Ret (None, self).
Proof.
  intros (rest & _ & Hl & _). unfold List_pop, List_is_empty.
  now rewrite Hl.
Qed.

Lemma List_get_holds self (a : list A) x (r : list A) :
  list_holds self (a ++ x :: r) ->
  List_get self (Z.of_nat (List.length a)) = Ret (Some x).
Proof.
  intros (rest & Hlist & Hl & _).
  unfold List_get. rewrite Hl.
  replace (Z.of_nat (List.length a) <? Z.of_nat (List.length (a ++ x :: r)))
    with true
    by (symmetry; apply Z.ltb_lt; rewrite length_app; simpl; lia).
  rewrite map_app, <- app_assoc in Hlist. cbn [map app] in Hlist.
  rewrite <- (length_map Some a), (get_slot_at _ _ _ _ Hlist).
  reflexivity.
Qed.

Lemma collect_map_some xs :
  fold_right (fun (o : option A) acc =>
                match o with
                | Some a => r <- acc ;; Ret (a :: r)
                | None => Fault
                end) (Ret []) (map Some xs)
  = Ret xs.
Proof. induction xs as [|x xs IH]; simpl; [reflexivity | now rewrite IH]. Qed.

Lemma elements_holds self xs : list_holds self xs -> elements self = Ret xs.
Proof.
  intros (rest & Hlist & Hl & Ha & _). unfold elements. rewrite Hlist, Hl.
  replace (Z.of_nat (List.length (map Some xs ++ rest)) <? Z.of_nat (List.length xs))
    with false
    by (symmetry; apply Z.ltb_ge; rewrite length_app, length_map; lia).
  rewrite Nat2Z.id, <- (length_map Some xs), firstn_at.
  apply collect_map_some.
Qed.

Lemma push_all_holds (ys : list A) :
  forall self xs,
    list_holds self xs ->
    Z.of_nat (List.length (xs ++ ys)) <= 2 ^ 59 ->
    exists self',
      push_all self ys = Ret self' /\ list_holds self' (xs ++ ys) /\
      ListT.allocated self <= ListT.allocated self'.
Proof.
  induction ys as [|y ys IH]; intros self xs H Hlen.
  - exists self. rewrite app_nil_r. repeat split; [assumption | lia].
  - rewrite length_app in Hlen. cbn [List.length] in Hlen.
    destruct (@List_push_ok self xs y H ltac:(lia)) as (self1 & Hpush).
    destruct (List_push_inv y H Hpush) as (H1 & Hmono).
    cbn [push_all]. rewrite Hpush. cbn [bind].
    destruct (IH self1 (xs ++ [y]) H1) as (self' & Hall & H' & Hmono').
    { rewrite !length_app. cbn [List.length]. lia. }
    exists self'. rewrite <- app_assoc in H'. cbn [app] in H'.
    repeat split; try assumption. lia.
Qed.

End ListFacts.

(** ** [path_split] *)

Lemma split_sep_nonempty (s : list ascii) : split_sep s <> [].
Proof.
  destruct s as [|c s]; simpl; [discriminate|].
  destruct (Ascii.eqb c PATH_SEPARATOR); discriminate.
Qed.

Lemma split_sep_hd_tl (s : list ascii) :
  split_sep s = hd [] (split_sep s) :: tl (split_sep s).
Proof.
  pose proof (split_sep_nonempty s). now destruct (split_sep s).
Qed.

Lemma split_sep_app (cur s : list ascii) :
  sep_free cur ->
  split_sep (cur ++ s) = (cur ++ hd [] (split_sep s)) :: tl (split_sep s).
Proof.
  induction 1 as [|c cur Hc _ IH]; simpl.
  - apply split_sep_hd_tl.
  - destruct (Ascii.eqb_spec c PATH_SEPARATOR) as [->|_]; [contradiction|].
    now rewrite IH.
Qed.

Lemma split_sep_sep_free (cur : list ascii) :
  sep_free cur -> split_sep cur = [cur].
Proof.
  intros H. rewrite <- (app_nil_r cur) at 1.
  rewrite split_sep_app by assumption. simpl. now rewrite app_nil_r.
Qed.

Lemma split_sep_at_sep (cur s : list ascii) :
  sep_free cur ->
  split_sep (cur ++ PATH_SEPARATOR :: s) = cur :: split_sep s.
Proof.
  intros H. rewrite split_sep_app by assumption. simpl. now rewrite app_nil_r.
Qed.

Lemma sep_free_snoc (cur : list ascii) (c : ascii) :
  sep_free cur -> c <> PATH_SEPARATOR -> sep_free (cur ++ [c]).
Proof. intros H Hc. apply Forall_app; split; [assumption | now constructor]. Qed.

Lemma blen_block (size : Z) (cur : list ascii) (fill : memval) :
  Z.of_nat (List.length cur) <= size -> blen (block size cur fill) = size.
Proof. intros H; unfold block; autorewrite with blen; lia. Qed.

Lemma block_unfold (size : Z) (cur : list ascii) (fill : memval) :
  Z.of_nat (List.length cur) < size ->
  block size cur fill
  = bytes cur ++ fill :: repeat fill (Z.to_nat size - List.length cur - 1).
Proof.
  intros H; unfold block.
  destruct (Z.to_nat size - List.length cur)%nat as [|n] eqn:E; [lia|].
  cbn [repeat]. do 3 f_equal. lia.
Qed.

Lemma store_block (size : Z) (cur : list ascii) (fill : memval) (c : ascii) :
  Z.of_nat (List.length cur) < size ->
  store (block size cur fill) (Z.of_nat (List.length cur)) c
  = Ret (block size (cur ++ [c]) fill).
Proof.
  intros H. rewrite block_unfold by assumption.
  rewrite <- blen_bytes, store_mid. apply (f_equal (@Ret buffer)).
  unfold block. rewrite bytes_snoc, length_app. cbn [List.length].
  do 3 f_equal. lia.
Qed.

Lemma firstn_block (size : Z) (cur : list ascii) (fill : memval) :
  firstn (List.length cur) (block size cur fill) = bytes cur.
Proof.
  unfold block. rewrite <- (length_map Byte cur). apply firstn_at.
Qed.

Lemma firstn_block_succ (size : Z) (cur : list ascii) (fill : memval) :
  Z.of_nat (List.length cur) < size ->
  firstn (List.length cur + 1) (block size cur fill) = bytes cur ++ [fill].
Proof.
  intros H. rewrite block_unfold by assumption.
  change (bytes cur ++ fill :: ?r) with (bytes cur ++ [fill] ++ r).
  rewrite app_assoc.
  replace (List.length cur + 1)%nat with (List.length (bytes cur ++ [fill]))
    by (rewrite length_app; unfold bytes; rewrite length_map; reflexivity).
  apply firstn_at.
Qed.

Lemma buf_clear_loop_spec (r : buffer) :
  forall a : buffer,
    buf_clear_loop (List.length r) (a ++ r) (blen a)
    = Ret (a ++ repeat (Byte NUL) (List.length r)).
Proof.
  induction r as [|v r IH]; intros a; cbn [buf_clear_loop List.length repeat].
  - reflexivity.
  - rewrite store_mid. cbn [bind].
    replace (blen a + 1) with (blen (a ++ [Byte NUL]))
      by (autorewrite with blen; lia).
    change (a ++ Byte NUL :: r) with (a ++ [Byte NUL] ++ r).
    rewrite app_assoc, IH, <- app_assoc. reflexivity.
Qed.

Lemma path_buf_clear_block (size : Z) (b : buffer) :
  blen b = size -> path_buf_clear b size = Ret (block size [] (Byte NUL)).
Proof.
  intros H. unfold path_buf_clear, block. cbn [bytes map app List.length].
  rewrite Nat.sub_0_r.
  replace (Z.to_nat size) with (List.length b) by (unfold blen in H; lia).
  exact (buf_clear_loop_spec b []).
Qed.

Lemma List_push_sized_spec (L : ListT.t buffer) (done : list buffer)
  (b : buffer) (n : nat) :
  list_holds L done ->
  Z.of_nat (List.length done) < 2 ^ 59 ->
  (n <= List.length b)%nat -> Z.of_nat n < 2 ^ 64 ->
  exists L',
    List_push_sized L b (size_t (Z.of_nat n)) = Ret L' /\
    list_holds L' (done ++ [firstn n b]).
Proof.
  intros HL Hdone Hn Hmax. unfold List_push_sized.
  rewrite size_t_small by lia.
  replace (Z.of_nat n <=? blen b) with true
    by (symmetry; apply Z.leb_le; unfold blen; lia).
  rewrite Nat2Z.id.
  destruct (@List_push_ok _ L done (firstn n b) HL Hdone) as (L' & HL').
  exists L'. split; [assumption|].
  exact (proj1 (List_push_inv _ HL HL')).
Qed.

(** The loop invariant of [path_split]: [path_buf] holds the component
    being read, and is zeroed behind it once a separator has been seen. *)
Lemma split_loop_spec (BN : Z) (s : list ascii) :
  forall (pre cur : list ascii) (rest : buffer) (L : ListT.t buffer)
         (done : list buffer) (fill : memval)
         (init : list (list ascii)) (last : list ascii),
    sep_free cur ->
    split_sep (cur ++ s) = init ++ [last] ->
    Forall (fun comp => Z.of_nat (List.length comp) < BN) (init ++ [last]) ->
    list_holds L done ->
    Z.of_nat (List.length done + List.length init) < 2 ^ 59 ->
    BN < 2 ^ 64 ->
    exists L',
      split_loop BN (List.length s) (Some (bytes (pre ++ s) ++ rest))
        (Z.of_nat (List.length pre)) L (block BN cur fill)
        (Z.of_nat (List.length cur))
      = Ret (L', block BN last (match init with [] => fill | _ => Byte NUL end),
             Z.of_nat (List.length last)) /\
      list_holds L' (done ++ map lit init).
Proof.
  induction s as [|c s IH];
    intros pre cur rest L done fill init last Hcur Hsplit Hsizes HL Hcount HBN.
  - rewrite app_nil_r, split_sep_sep_free in Hsplit by assumption.
    change [cur] with ([] ++ [cur]) in Hsplit.
    apply app_inj_tail in Hsplit as [<- <-].
    exists L. cbn [split_loop map List.length]. rewrite !app_nil_r. now split.
  - cbn [split_loop List.length deref bind].
    assert (Hload : load (bytes (pre ++ c :: s) ++ rest) (Z.of_nat (List.length pre))
                    = Ret c).
    { unfold bytes. rewrite map_app, <- app_assoc. cbn [map app].
      rewrite <- (length_map Byte pre). apply load_mid. }
    rewrite Hload. cbn [bind].
    destruct (Ascii.eqb_spec c PATH_SEPARATOR) as [->|Hc]; cbn [negb]; cbv iota.
    + (* a separator: the component is pushed and the buffer cleared *)
      rewrite split_sep_at_sep in Hsplit by assumption.
      destruct (exists_last (split_sep_nonempty s)) as (init' & last' & Hs).
      rewrite Hs, app_comm_cons in Hsplit.
      apply app_inj_tail in Hsplit as [<- <-].
      assert (Hlen : Z.of_nat (List.length cur) < BN)
        by (inversion Hsizes; assumption).
      rewrite store_block by assumption. cbn [bind].
      cbn [List.length] in Hcount.
      destruct (@List_push_sized_spec L done (block BN (cur ++ [NUL]) fill)
                  (List.length (cur ++ [NUL])) HL ltac:(lia))
        as (L1 & Hpush & Hholds1).
      { pose proof (@blen_block BN (cur ++ [NUL]) fill) as Hb.
        rewrite length_app in *. cbn [List.length] in *. unfold blen in Hb. lia. }
      { rewrite length_app. cbn [List.length]. lia. }
      rewrite firstn_block in Hholds1.
      replace (bytes (cur ++ [NUL])) with (lit cur) in Hholds1
        by (unfold lit, bytes; now rewrite map_app).
      rewrite length_app in Hpush. cbn [List.length] in Hpush.
      replace (Z.of_nat (List.length cur + 1))
        with (Z.of_nat (List.length cur) + 1) in Hpush by lia.
      rewrite Hpush. cbn [bind].
      rewrite path_buf_clear_block
        by (apply blen_block; rewrite length_app; cbn [List.length]; lia).
      cbn [bind].
      destruct (IH (pre ++ [PATH_SEPARATOR]) [] rest L1
                  (done ++ [lit cur]) (Byte NUL) init' last')
        as (L' & Hloop & Hholds').
      * constructor.
      * exact Hs.
      * now inversion Hsizes.
      * exact Hholds1.
      * rewrite length_app. cbn [List.length]. lia.
      * assumption.
      * exists L'. split.
        -- rewrite <- app_assoc in Hloop. cbn [app] in Hloop.
           rewrite length_app in Hloop. cbn [List.length] in Hloop.
           replace (Z.of_nat (List.length pre) + 1)
             with (Z.of_nat (List.length pre + 1)) by lia.
           cbn [List.length] in Hloop. change (Z.of_nat 0) with 0 in Hloop.
           rewrite Hloop.
           now destruct init'.
        -- rewrite <- app_assoc in Hholds'. exact Hholds'.
    + (* an ordinary character: appended to the component *)
      assert (Hcur' : sep_free (cur ++ [c])) by now apply sep_free_snoc.
      assert (Hsplit' : split_sep ((cur ++ [c]) ++ s) = init ++ [last])
        by (rewrite <- app_assoc; exact Hsplit).
      assert (Hlen : Z.of_nat (List.length (cur ++ [c])) < BN).
      { rewrite <- Hsplit', split_sep_app in Hsizes by assumption.
        inversion Hsizes as [|? ? Hhd _]; subst.
        rewrite length_app in Hhd. lia. }
      rewrite length_app in Hlen. cbn [List.length] in Hlen.
      rewrite store_block by lia. cbn [bind].
      rewrite size_t_small by lia.
      destruct (IH (pre ++ [c]) (cur ++ [c]) rest L done fill init last)
        as (L' & Hloop & Hholds'); try assumption.
      exists L'. split; [|assumption].
      rewrite <- app_assoc in Hloop. cbn [app] in Hloop.
      rewrite !length_app in Hloop. cbn [List.length] in Hloop.
      replace (Z.of_nat (List.length pre) + 1)
        with (Z.of_nat (List.length pre + 1)) by lia.
      replace (Z.of_nat (List.length cur) + 1)
        with (Z.of_nat (List.length cur + 1)) by lia.
      exact Hloop.
Qed.

(** [path_split] on a string whose components all fit the name buffer.
    The last component is pushed without a terminator of its own: it is
    terminated only when the buffer was cleared before, that is when the
    path contains a separator. *)
Lemma path_split_spec (BN : Z) (w : list ascii) (rest : buffer)
  (init : list (list ascii)) (last : list ascii) :
  split_sep w = init ++ [last] ->
  Forall (fun comp => Z.of_nat (List.length comp) < BN) (init ++ [last]) ->
  Z.of_nat (List.length init) < 2 ^ 59 ->
  BN <= PTRDIFF_MAX ->
  exists L,
    path_split BN (Some (bytes w ++ rest)) (Z.of_nat (List.length w)) = Ret L /\
    list_holds L
      (map lit init
         ++ [bytes last ++ [match init with [] => Undef | _ => Byte NUL end]]).
Proof.
  intros Hsplit Hsizes Hcount HBN.
  assert (HBN' : BN < 2 ^ 64) by (unfold PTRDIFF_MAX in HBN; lia).
  unfold path_split. rewrite malloc_ok by assumption. cbn [deref bind].
  rewrite Nat2Z.id.
  pose proof (@list_holds_new buffer 0 ltac:(lia) ltac:(discriminate)) as Hnew.
  destruct (@split_loop_spec BN w [] [] rest (List_new buffer 0 PTR_SIZE) []
              Undef init last) as (L1 & Hloop & Hholds1);
    try assumption.
  { constructor. }
  cbn [app List.length] in Hloop. change (Z.of_nat 0) with 0 in Hloop.
  change (block BN [] Undef) with (repeat Undef (Z.to_nat BN - 0)) in Hloop.
  rewrite Nat.sub_0_r in Hloop. rewrite Hloop. cbn [bind].
  set (fill := match init with [] => Undef | _ => Byte NUL end) in *.
  assert (Hlast : Z.of_nat (List.length last) < BN).
  { apply Forall_app in Hsizes as [_ Hl]. now inversion Hl. }
  destruct (@List_push_sized_spec L1 (map lit init) (block BN last fill)
              (List.length last + 1) Hholds1) as (L & Hpush & Hholds).
  { rewrite length_map. assumption. }
  { pose proof (@blen_block BN last fill ltac:(lia)) as Hb.
    unfold blen in Hb. lia. }
  { lia. }
  exists L. rewrite firstn_block_succ in Hholds by assumption.
  split; [|assumption].
  replace (Z.of_nat (List.length last) + 1)
    with (Z.of_nat (List.length last + 1)) by lia.
  assumption.
Qed.

(** ** Entries *)

Lemma cstring_named (size : Z) (s : list ascii) :
  nul_free s -> cstring (named size s) = Ret s.
Proof.
  intros H. unfold named, lit. rewrite <- app_assoc. now apply cstring_bytes.
Qed.

Lemma write_string_at_0 (s : list ascii) (old r : buffer) :
  List.length old = (List.length s + 1)%nat ->
  write_string (old ++ r) 0 s = Ret (lit s ++ r).
Proof.
  intros H. unfold write_string.
  replace ((0 <=? 0) && (0 + Z.of_nat (List.length s) + 1 <=? blen (old ++ r)))
    with true.
  2:{ symmetry; apply andb_true_intro; split; apply Z.leb_le; [lia|].
      rewrite blen_app. pose proof (blen_nonneg r). unfold blen. lia. }
  cbn [Z.to_nat firstn app Nat.add].
  rewrite <- H, skipn_app, skipn_all, Nat.sub_diag. reflexivity.
Qed.

Lemma strcpy_malloc (size : Z) (b : buffer) (s : list ascii) :
  cstring b = Ret s ->
  Z.of_nat (List.length s) < size <= PTRDIFF_MAX ->
  strcpy (malloc size) (Some b) = Ret (named size s).
Proof.
  intros Hs [Hlen Hmax]. unfold strcpy.
  rewrite malloc_ok by assumption. cbn [deref bind]. rewrite Hs. cbn [bind].
  replace (Z.to_nat size)
    with ((List.length s + 1) + (Z.to_nat size - List.length s - 1))%nat by lia.
  rewrite repeat_app.
  rewrite write_string_at_0 by apply repeat_length.
  reflexivity.
Qed.

Lemma strcpy_same (size : Z) (s : list ascii) :
  nul_free s ->
  strcpy (Some (named size s)) (Some (named size s)) = Ret (named size s).
Proof.
  intros Hs. unfold strcpy. cbn [deref bind].
  rewrite cstring_named by assumption. cbn [bind].
  unfold named. apply write_string_at_0.
  unfold lit. rewrite length_app. unfold bytes. rewrite length_map. reflexivity.
Qed.

Lemma nul_free_split_sep (s : list ascii) :
  nul_free s -> Forall nul_free (split_sep s).
Proof.
  induction 1 as [|c s Hc Hs IH]; simpl.
  - repeat constructor.
  - destruct (Ascii.eqb c PATH_SEPARATOR).
    + constructor; [constructor | assumption].
    + rewrite split_sep_hd_tl in IH. inversion IH; subst.
      constructor; [now constructor | assumption].
Qed.

Lemma split_sep_app_sep (a b : list ascii) :
  split_sep (a ++ PATH_SEPARATOR :: b) = split_sep a ++ split_sep b.
Proof.
  induction a as [|c a IH]; [reflexivity|].
  cbn [app split_sep]. rewrite IH.
  destruct (Ascii.eqb c PATH_SEPARATOR); [reflexivity|].
  rewrite (split_sep_hd_tl a) at 1 2. reflexivity.
Qed.

(** ** Strings that are stripped to themselves *)

Lemma plainb_nul_free (s : list ascii) : plainb s = true -> nul_free s.
Proof.
  unfold plainb. intros H.
  apply andb_prop in H as [H _]. apply andb_prop in H as [H _].
  apply andb_prop in H as [H _].
  apply Forall_forall. intros c Hc.
  rewrite forallb_forall in H. specialize (H c Hc).
  destruct (Ascii.eqb_spec c NUL); [discriminate | assumption].
Qed.

Lemma componentb_nul_free (s : list ascii) : componentb s = true -> nul_free s.
Proof.
  unfold componentb. intros H. apply Forall_forall. intros c Hc.
  rewrite forallb_forall in H. specialize (H c Hc).
  apply andb_prop in H as [H _].
  destruct (Ascii.eqb_spec c NUL); [discriminate | assumption].
Qed.

Lemma componentb_sep_free (s : list ascii) : componentb s = true -> sep_free s.
Proof.
  unfold componentb. intros H. apply Forall_forall. intros c Hc.
  rewrite forallb_forall in H. specialize (H c Hc).
  apply andb_prop in H as [_ H].
  destruct (Ascii.eqb_spec c PATH_SEPARATOR); [discriminate | assumption].
Qed.

Lemma sep_free_last (s : list ascii) (d : ascii) :
  sep_free s -> d <> PATH_SEPARATOR -> last s d <> PATH_SEPARATOR.
Proof.
  induction 1 as [|c s Hc Hs IH]; intros Hd; [assumption|].
  destruct s as [|c' s]; [assumption|]. exact (IH Hd).
Qed.

Lemma componentb_plainb (s : list ascii) : componentb s = true -> plainb s = true.
Proof.
  intros H. pose proof (componentb_sep_free _ H) as Hsep.
  pose proof (componentb_nul_free _ H) as Hnul.
  unfold plainb. repeat (apply andb_true_intro; split).
  - apply forallb_forall. intros c Hc.
    unfold nul_free in Hnul. rewrite Forall_forall in Hnul.
    specialize (Hnul c Hc).
    now destruct (Ascii.eqb_spec c NUL).
  - destruct s as [|c0 s]; [reflexivity|]. inversion Hsep; subst.
    now destruct (Ascii.eqb_spec c0 PATH_SEPARATOR).
  - destruct s as [|c0 [|c1 s]]; try reflexivity.
    inversion Hsep as [|? ? _ Hs]; inversion Hs; subst.
    destruct (Ascii.eqb_spec c1 PATH_SEPARATOR); [contradiction|].
    now rewrite andb_false_r.
  - pose proof (@sep_free_last s NUL Hsep ltac:(discriminate)).
    now destruct (Ascii.eqb_spec (last s NUL) PATH_SEPARATOR).
Qed.

Lemma strip_part_plain (s : list ascii) (rest : buffer) :
  plainb s = true ->
  Z.of_nat (List.length s) <= PTRDIFF_MAX ->
  let p := Some (bytes s ++ Byte NUL :: rest) in
  strip_part p = Ret p.
Proof.
  intros Hplain Hmax p; subst p.
  pose proof (plainb_nul_free _ Hplain) as Hnul.
  unfold strip_part. rewrite strlen_bytes by assumption. cbn [bind].
  destruct (Z.ltb_spec (Z.of_nat (List.length s)) 2) as [Hshort|Hlong].
  - rewrite remove_prefix_short by assumption. cbn [bind].
    rewrite strlen_bytes by assumption. cbn [bind].
    now apply remove_suffix_short.
  - unfold plainb in Hplain.
    apply andb_prop in Hplain as [Hplain Hlast].
    apply andb_prop in Hplain as [Hplain Hdot].
    apply andb_prop in Hplain as [_ Hhd].
    destruct s as [|c0 [|c1 s]]; try (simpl in Hlong; lia).
    rewrite remove_prefix_keep.
    + cbn [bind]. rewrite strlen_bytes by assumption. cbn [bind].
      destruct (@exists_last _ (c0 :: c1 :: s) ltac:(discriminate))
        as (s' & c & Hs).
      rewrite Hs in *. rewrite last_last in Hlast.
      apply remove_suffix_keep; [|assumption].
      now destruct (Ascii.eqb_spec c PATH_SEPARATOR).
    + now destruct (Ascii.eqb_spec c0 PATH_SEPARATOR).
    + intros -> t [= -> ->]. discriminate.
Qed.

Lemma strips_to_plain (s : list ascii) (rest : buffer) :
  plainb s = true ->
  Z.of_nat (List.length s) <= PTRDIFF_MAX ->
  strips_to (Some (bytes s ++ Byte NUL :: rest)) s.
Proof.
  intros Hplain Hmax. exists (bytes s ++ Byte NUL :: rest). split.
  - now apply strip_part_plain.
  - apply cstring_bytes. now apply plainb_nul_free.
Qed.

(** ** Entries and the reader's loop *)

Section Reader.

Variables BN BP : Z.
Hypothesis BN_max : BN <= PTRDIFF_MAX.
Hypothesis BP_max : BP <= 2 ^ 59.

Lemma length_split_sep (s : list ascii) :
  (List.length (split_sep s) <= List.length s + 1)%nat.
Proof.
  induction s as [|c s IH]; simpl; [lia|].
  destruct (Ascii.eqb c PATH_SEPARATOR); simpl; [lia|].
  rewrite (split_sep_hd_tl s) in IH. simpl in IH. lia.
Qed.

Lemma from_path_spec (rel : list ascii) (rest : buffer) (ty : FileTypesT)
  (init : list (list ascii)) (last : list ascii) :
  nul_free rel ->
  hd PATH_SEPARATOR rel <> PATH_SEPARATOR ->
  split_sep rel = init ++ [last] -> init <> [] ->
  Forall (fun comp => Z.of_nat (List.length comp) < BN) (init ++ [last]) ->
  Z.of_nat (List.length rel) < BP ->
  FileSystem_from_path BN BP (Some (bytes rel ++ Byte NUL :: rest)) ty
  = Ret (entry BN BP last rel ty).
Proof.
  intros Hnul Hhd Hsplit Hinit Hsizes Hlen.
  assert (HBP : BP <= PTRDIFF_MAX) by (unfold PTRDIFF_MAX; lia).
  destruct rel as [|c0 rel0] eqn:Hrel; [now cbn in Hhd|]. rewrite <- Hrel in *.
  unfold FileSystem_from_path. cbn [deref bind].
  rewrite Hrel at 1. rewrite load_bytes_0. cbn [bind].
  rewrite Hrel in Hhd. cbn [hd] in Hhd.
  destruct (Ascii.eqb_spec c0 PATH_SEPARATOR) as [E|_]; [contradiction|].
  cbn [relative_path name absolute_path grandparent_path parent_path].
  rewrite (@strcpy_malloc BP _ rel) by (try apply cstring_bytes; auto).
  cbn [bind relative_path name absolute_path grandparent_path parent_path].
  rewrite strlen_bytes by assumption. cbn [bind].
  pose proof (length_split_sep rel) as Hcount.
  rewrite Hsplit, length_app in Hcount. cbn [List.length] in Hcount.
  destruct (@path_split_spec BN rel (Byte NUL :: rest) init last Hsplit Hsizes
              ltac:(lia) BN_max) as (L & HL & Hholds).
  rewrite HL. cbn [bind].
  destruct init as [|i0 init']; [contradiction|].
  change (bytes last ++ [Byte NUL]) with (lit last) in Hholds.
  destruct (@List_pop_holds _ L (map lit (i0 :: init')) (lit last) Hholds)
    as (L' & Hpop & _).
  rewrite Hpop. cbn [bind].
  assert (Hlast : nul_free last).
  { pose proof (nul_free_split_sep Hnul) as HF. rewrite Hsplit in HF.
    apply Forall_app in HF as [_ HF]. now inversion HF. }
  rewrite (@strcpy_malloc BN _ last).
  - reflexivity.
  - now apply cstring_lit.
  - split; [|assumption].
    apply Forall_app in Hsizes as [_ HF]. now inversion HF.
Qed.

Lemma named_unfold (size : Z) (s : list ascii) :
  named size s
  = bytes s ++ Byte NUL :: repeat Undef (Z.to_nat size - List.length s - 1).
Proof. unfold named, lit. now rewrite <- app_assoc. Qed.

Lemma list_push_spec (L : ListT.t FileSystemT) (done : list FileSystemT)
  (rel : list ascii) (ty : FileTypesT)
  (init : list (list ascii)) (last : list ascii) :
  list_holds L done ->
  Z.of_nat (List.length done) < 2 ^ 59 ->
  nul_free rel ->
  hd PATH_SEPARATOR rel <> PATH_SEPARATOR ->
  split_sep rel = init ++ [last] -> init <> [] ->
  Forall (fun comp => Z.of_nat (List.length comp) < BN) (init ++ [last]) ->
  Z.of_nat (List.length rel) < BP ->
  exists L',
    FileSystem_list_push BN BP L (entry BN BP last rel ty) = Ret L' /\
    list_holds L' (done ++ [entry BN BP last rel ty]).
Proof.
  intros HL Hdone Hnul Hhd Hsplit Hinit Hsizes Hlen.
  assert (Hlast : nul_free last).
  { pose proof (nul_free_split_sep Hnul) as HF. rewrite Hsplit in HF.
    apply Forall_app in HF as [_ HF]. now inversion HF. }
  pose proof (list_holds_small HL) as Hsmall.
  destruct (re_alloc_for_push HL) as (Hl1 & Hcase).
  unfold FileSystem_list_push.
  set (self1 := List_re_alloc L (size_t (ListT.length L + 1))) in *.
  destruct Hcase as [(o & rest & Hlist & Ha & Hm & Hmono) | (_ & Hbig)]; [|lia].
  cbn [relative_path type entry].
  assert (Hfresh : FileSystem_from_path BN BP (Some (named BP rel)) ty
                   = Ret (entry BN BP last rel ty))
    by (rewrite named_unfold; now apply from_path_spec with (init := init)).
  rewrite Hfresh. cbn [bind].
  rewrite Hl1, <- (length_map Some done).
  rewrite (set_slot_at _ _ _ _ (entry BN BP last rel ty) Hlist).
  cbn [bind ListT.list ListT.length ListT.allocated].
  rewrite !Hl1, <- !(length_map Some done).
  rewrite (@get_slot_at _ _ (map Some done) (entry BN BP last rel ty) rest)
    by reflexivity.
  cbn [bind]. unfold FileSystem_copy.
  cbn [name relative_path absolute_path grandparent_path parent_path type entry].
  rewrite !strcpy_same by assumption. cbn [bind].
  fold (entry BN BP last rel ty).
  unfold set_length. cbn [ListT.list ListT.length ListT.allocated].
  erewrite set_slot_at by reflexivity.
  eexists; split; [reflexivity|].
  exists rest. cbn [ListT.list ListT.length ListT.allocated].
  rewrite length_map, map_snoc, length_app, size_t_small by lia.
  cbn [List.length].
  repeat split; try assumption; lia.
Qed.

Lemma storable_inv (dir : list ascii) (item : list ascii * Z) :
  storable BN BP dir item = true ->
  componentb (fst item) = true /\
  Z.of_nat (List.length (fst item)) < BN /\
  Z.of_nat (List.length (dir ++ PATH_SEPARATOR :: fst item)) < BP.
Proof.
  unfold storable. intros H.
  apply andb_prop in H as [H H3]. apply andb_prop in H as [H1 H2].
  apply Z.ltb_lt in H2, H3. auto.
Qed.

Lemma readable_inv (dir : list ascii) :
  readable BN dir = true ->
  plainb dir = true /\ hd PATH_SEPARATOR dir <> PATH_SEPARATOR /\
  Forall (fun comp => Z.of_nat (List.length comp) < BN) (split_sep dir).
Proof.
  unfold readable. intros H.
  apply andb_prop in H as [H H3]. apply andb_prop in H as [H1 H2].
  split; [assumption|]. split.
  - destruct dir as [|c0 dir]; [discriminate|]. cbn [hd].
    unfold plainb in H1.
    apply andb_prop in H1 as [H1 _]. apply andb_prop in H1 as [H1 _].
    apply andb_prop in H1 as [_ H1].
    now destruct (Ascii.eqb_spec c0 PATH_SEPARATOR).
  - apply Forall_forall. intros comp Hin.
    rewrite forallb_forall in H3. now apply Z.ltb_lt, H3.
Qed.

(** Joining a plain directory path and a one-component name. *)
Lemma join_dir_name (dir n : list ascii) (rest : buffer) :
  plainb dir = true -> componentb n = true ->
  Z.of_nat (List.length (dir ++ PATH_SEPARATOR :: n)) < BP ->
  FS_JOIN_PATH BP [Some (bytes dir ++ Byte NUL :: rest); Some (lit n)]
  = Ret (Some (path_buffer BP (dir ++ PATH_SEPARATOR :: n))).
Proof.
  intros Hdir Hn Hlen. unfold FS_JOIN_PATH.
  rewrite length_app in Hlen. cbn [List.length] in Hlen.
  assert (HBP : BP <= PTRDIFF_MAX) by (unfold PTRDIFF_MAX; lia).
  apply (@path_join_spec BP _ [dir; n]).
  - constructor; [|constructor; [|constructor]].
    + apply strips_to_plain; [assumption | lia].
    + apply strips_to_plain; [now apply componentb_plainb | lia].
  - cbn [join_with]. rewrite length_app. cbn [List.length]. lia.
  - cbn [List.length]. lia.
Qed.

(** The entry the loop stores for one item of a recognised type. *)
Lemma store_item (L : ListT.t FileSystemT) (done : list FileSystemT)
  (dir n : list ascii) (ty : FileTypesT) :
  list_holds L done ->
  Z.of_nat (List.length done) < 2 ^ 59 ->
  readable BN dir = true ->
  componentb n = true -> Z.of_nat (List.length n) < BN ->
  Z.of_nat (List.length (dir ++ PATH_SEPARATOR :: n)) < BP ->
  exists L',
    (file_system <-
       FileSystem_from_path BN BP
         (Some (path_buffer BP (dir ++ PATH_SEPARATOR :: n))) ty ;;
     FileSystem_list_push BN BP L file_system) = Ret L' /\
    list_holds L' (done ++ [entry BN BP n (dir ++ PATH_SEPARATOR :: n) ty]).
Proof.
  intros HL Hdone Hdir Hn HnBN Hlen.
  destruct (readable_inv _ Hdir) as (Hplain & Hhd & Hcomps).
  set (rel := dir ++ PATH_SEPARATOR :: n) in *.
  assert (Hnul : nul_free rel).
  { apply nul_free_app; [now apply plainb_nul_free|].
    constructor; [exact separator_not_nul | now apply componentb_nul_free]. }
  assert (Hhd' : hd PATH_SEPARATOR rel <> PATH_SEPARATOR).
  { subst rel. destruct dir; [now cbn in Hhd | exact Hhd]. }
  assert (Hsplit : split_sep rel = split_sep dir ++ [n]).
  { subst rel. rewrite split_sep_app_sep.
    now rewrite (split_sep_sep_free (componentb_sep_free _ Hn)). }
  assert (Hsizes : Forall (fun comp => Z.of_nat (List.length comp) < BN)
                     (split_sep dir ++ [n])).
  { apply Forall_app; split; [assumption | now constructor]. }
  rewrite (@path_buffer_unfold BP rel 1) by lia. cbn [repeat app].
  rewrite (@from_path_spec rel _ ty (split_sep dir) n Hnul Hhd' Hsplit
             (@split_sep_nonempty dir) Hsizes Hlen).
  cbn [bind].
  apply list_push_spec with (init := split_sep dir);
    try assumption; apply split_sep_nonempty.
Qed.

(** The loop of the reader over a stream of storable items: the entries of
    the recognised types are appended in the order of the stream, the others
    are reported and skipped. *)
Lemma read_loop_spec (dir : list ascii) (rest : buffer)
  (items : list (list ascii * Z)) :
  readable BN dir = true ->
  forall (L : ListT.t FileSystemT) (done : list FileSystemT) (log : list report),
    forallb (storable BN BP dir) items = true ->
    list_holds L done ->
    Z.of_nat (List.length done + List.length items) < 2 ^ 59 ->
    exists L',
      read_loop BN BP (mock_stream items) (Some (bytes dir ++ Byte NUL :: rest))
        L log
      = Ret (L', log ++ expected_reports items) /\
      list_holds L' (done ++ expected_entries BN BP dir items).
Proof.
  intros Hdir.
  destruct (readable_inv _ Hdir) as (Hplain & _ & _).
  induction items as [|[n code] items IH]; intros L done log Hitems HL Hcount.
  - exists L. cbn. rewrite !app_nil_r. now split.
  - cbn [forallb] in Hitems. apply andb_prop in Hitems as [Hitem Hitems].
    destruct (storable_inv _ _ Hitem) as (Hn & HnBN & Hlen).
    cbn [fst snd] in Hn, HnBN, Hlen.
    cbn [List.length] in Hcount.
    cbn [mock_stream map read_loop fst snd attr_name attr_type].
    rewrite join_dir_name by assumption. cbn [bind].
    cbn [expected_entries expected_reports flat_map fst snd].
    destruct (file_system_type_of code) as [ty|].
    + destruct (@store_item L done dir n ty HL ltac:(lia) Hdir Hn HnBN Hlen)
        as (L1 & Hstore & Hholds1).
      apply bind_ret in Hstore as (fs & Hfs & Hpush).
      rewrite Hfs. cbn [bind]. rewrite Hpush. cbn [bind].
      destruct (IH L1 (done ++ [entry BN BP n (dir ++ PATH_SEPARATOR :: n) ty])
                  log Hitems Hholds1) as (L' & Hloop & Hholds').
      { rewrite length_app. cbn [List.length]. lia. }
      exists L'. split.
      * exact Hloop.
      * rewrite <- app_assoc in Hholds'. exact Hholds'.
    + destruct (IH L done (log ++ [IGNORED code]) Hitems HL ltac:(lia))
        as (L' & Hloop & Hholds').
      exists L'. split.
      * rewrite <- app_assoc in Hloop. exact Hloop.
      * exact Hholds'.
Qed.

End Reader.

(** * The remote directory reader *)

Lemma uint8_t_range (z : Z) : 0 <= uint8_t z < 2 ^ 8.
Proof. unfold uint8_t. apply Z.mod_pos_bound. lia. Qed.

(** What [path_read_remote_dir] does once the loop has returned. *)
Lemma read_remote_dir_after_loop (BN BP : Z) (session : remote) (path : ptr)
  (gathered : ListT.t FileSystemT) (log : list report) :
  opendir_ok session = true ->
  read_loop BN BP (readdir_stream session) path
    (List_new FileSystemT 1 PTR_SIZE) [] = Ret (gathered, log) ->
  path_read_remote_dir BN BP session path
  = if uint8_t (closedir_status session) =? SSH_FX_OK
    then Ret (Some gathered, log)
    else if closedir_frees_handle session then Fault
         else Ret (None, log ++ [CLOSE_FAILED]).
Proof.
  intros Hopen Hloop. unfold path_read_remote_dir.
  rewrite Hopen. cbn [negb]. rewrite Hloop. cbn [bind]. cbv zeta.
  destruct (uint8_t (closedir_status session) =? SSH_FX_OK); cbn [negb];
    [reflexivity|].
  now destruct (closedir_frees_handle session).
Qed.

(** C1, amended.  When [sftp_opendir] succeeds and the loop over the
    entries completes, but the status of [sftp_closedir], as the code keeps
    it in a [uint8_t], is not [SSH_FX_OK], the list gathered by the loop is
    not returned: with a handle that can still be read after
    [sftp_closedir], [path_read_remote_dir] reports CLOSE_FAILED and
    returns [NULL].  With a library that frees the handle the report reads
    [dir->name] through a dangling pointer, and nothing is returned. *)
Theorem read_remote_dir_close_failed (BN BP : Z) (session : remote) (path : ptr)
  (gathered : ListT.t FileSystemT) (log : list report) :
  opendir_ok session = true ->
  read_loop BN BP (readdir_stream session) path
    (List_new FileSystemT 1 PTR_SIZE) [] = Ret (gathered, log) ->
  uint8_t (closedir_status session) <> SSH_FX_OK ->
  path_read_remote_dir BN BP session path
  = (if closedir_frees_handle session then Fault
     else Ret (None, log ++ [CLOSE_FAILED]))
  /\ forall (L : ListT.t FileSystemT) (log' : list report),
       path_read_remote_dir BN BP session path <> Ret (Some L, log').
Proof.
  intros Hopen Hloop Hclose.
  rewrite (@read_remote_dir_after_loop BN BP session path gathered log Hopen Hloop).
  rewrite (proj2 (Z.eqb_neq _ _) Hclose).
  split; [reflexivity|].
  intros L log'. now destruct (closedir_frees_handle session).
Qed.

Lemma read_remote_dir_close_failed_witness :
  path_read_remote_dir 16 64
    (mkRemote true (mock_stream [(str "f", SSH_FILEXFER_TYPE_REGULAR)]) (-1)
       false)
    (Some (lit (str "d")))
  = Ret (None, [CLOSE_FAILED]).
Proof.
  destruct (@read_remote_dir_close_failed 16 64
              (mkRemote true (mock_stream [(str "f", SSH_FILEXFER_TYPE_REGULAR)])
                 (-1) false)
              (Some (lit (str "d")))
              (ListT.mk (Some [Some (entry 16 64 (str "f") (str "d/f") FS_REG_FILE)])
                 1 1)
              []) as [H _].
  - reflexivity.
  - vm_compute. reflexivity.
  - vm_compute. discriminate.
  - exact H.
Defined.

(** C1, as stated, fails: with one regular file read and a failing
    [sftp_closedir], the loop has gathered one entry, but the call returns
    [NULL] when the handle can still be read and nothing when it was
    freed; in neither case the entry gathered. *)
Lemma read_remote_dir_close_failed_counterexample :
  (gathered <- read_loop 16 64
                 (mock_stream [(str "f", SSH_FILEXFER_TYPE_REGULAR)])
                 (Some (lit (str "d"))) (List_new FileSystemT 1 PTR_SIZE) [] ;;
   elements (fst gathered))
  = Ret [entry 16 64 (str "f") (str "d/f") FS_REG_FILE]
  /\ path_read_remote_dir 16 64
       (mkRemote true (mock_stream [(str "f", SSH_FILEXFER_TYPE_REGULAR)]) (-1)
          false)
       (Some (lit (str "d")))
     = Ret (None, [CLOSE_FAILED])
  /\ path_read_remote_dir 16 64
       (mkRemote true (mock_stream [(str "f", SSH_FILEXFER_TYPE_REGULAR)]) (-1)
          true)
       (Some (lit (str "d")))
     = Fault.
Proof. split; [|split]; vm_compute; reflexivity. Qed.

Lemma file_system_type_of_expected (type_code : Z) :
  file_system_type_of type_code = expected_type type_code.
Proof.
  unfold file_system_type_of, expected_type,
    SSH_FILEXFER_TYPE_REGULAR, SSH_FILEXFER_TYPE_DIRECTORY.
  destruct (Z.eqb_spec type_code 1) as [->|H1]; [reflexivity|].
  destruct (Z.eqb_spec type_code 2) as [->|H2]; [reflexivity|].
  destruct type_code as [|q|q]; try reflexivity.
  destruct q as [q|q|]; try reflexivity; [|contradiction].
  destruct q; try reflexivity. contradiction.
Qed.

Lemma expected_entries_kept (BN BP : Z) (dir : list ascii)
  (items : list (list ascii * Z)) :
  expected_entries BN BP dir items
  = map (fun e => entry BN BP (fst e) (dir ++ PATH_SEPARATOR :: fst e) (snd e))
      (kept items).
Proof.
  unfold expected_entries, kept.
  induction items as [|item items IH]; [reflexivity|].
  cbn [flat_map]. rewrite map_app, IH, file_system_type_of_expected.
  now destruct (expected_type (snd item)).
Qed.

Lemma expected_reports_skipped (items : list (list ascii * Z)) :
  expected_reports items = map IGNORED (skipped items).
Proof.
  unfold expected_reports, skipped.
  induction items as [|item items IH]; [reflexivity|].
  cbn [flat_map]. rewrite map_app, IH, file_system_type_of_expected.
  now destruct (expected_type (snd item)).
Qed.

(** X22.  With [sftp_opendir] and [sftp_closedir] succeeding, for every
    stream of entries whose names are single components that fit the
    buffers, read in a plain relative directory, [path_read_remote_dir]
    returns a list whose elements are exactly the entries of type code 1
    (stored as [FS_REG_FILE]) and 2 (stored as [FS_DIRECTORY]), in the
    order of the stream, each with its name and the directory path joined
    to it; the type codes of all other entries are reported in order and
    the entries skipped. *)
Theorem read_remote_dir_fidelity (BN BP : Z) (dir : list ascii)
  (items : list (list ascii * Z)) (frees : bool) :
  BN <= PTRDIFF_MAX -> BP <= 2 ^ 59 ->
  readable BN dir = true ->
  forallb (storable BN BP dir) items = true ->
  Z.of_nat (List.length items) < 2 ^ 59 ->
  exists L,
    path_read_remote_dir BN BP
      (mkRemote true (mock_stream items) SSH_FX_OK frees) (Some (lit dir))
    = Ret (Some L, map IGNORED (skipped items)) /\
    elements L
    = Ret (map (fun e => entry BN BP (fst e) (dir ++ PATH_SEPARATOR :: fst e)
                           (snd e))
             (kept items)).
Proof.
  intros HBN HBP Hdir Hitems Hcount.
  pose proof (@list_holds_new FileSystemT 1 ltac:(lia) ltac:(discriminate))
    as Hnew.
  destruct (@read_loop_spec BN BP HBN HBP dir [] items Hdir
              (List_new FileSystemT 1 PTR_SIZE) [] [] Hitems Hnew)
    as (L & Hloop & Hholds).
  { cbn [List.length]. lia. }
  exists L. rewrite <- expected_entries_kept, <- expected_reports_skipped.
  split; [|now apply elements_holds].
  now rewrite (@read_remote_dir_after_loop BN BP
                 (mkRemote true (mock_stream items) SSH_FX_OK frees)
                 (Some (lit dir)) L (expected_reports items) eq_refl Hloop).
Qed.

Lemma read_remote_dir_fidelity_witness :
  exists L,
    path_read_remote_dir 256 4096
      (mkRemote true
         (mock_stream [(str "a", SSH_FILEXFER_TYPE_REGULAR);
                       (str "b", SSH_FILEXFER_TYPE_DIRECTORY);
                       (str "c", 5)])
         SSH_FX_OK true)
      (Some (lit (str "d")))
    = Ret (Some L, [IGNORED 5]) /\
    elements L
    = Ret [entry 256 4096 (str "a") (str "d/a") FS_REG_FILE;
           entry 256 4096 (str "b") (str "d/b") FS_DIRECTORY].
Proof.
  apply (@read_remote_dir_fidelity 256 4096 (str "d")
           [(str "a", SSH_FILEXFER_TYPE_REGULAR);
            (str "b", SSH_FILEXFER_TYPE_DIRECTORY);
            (str "c", 5)] true).
  - vm_compute. discriminate.
  - vm_compute. discriminate.
  - reflexivity.
  - reflexivity.
  - reflexivity.
Defined.

(** * The path lexicon *)

(** C3.  What [path_str_slice] does for a string [s] and indices
    [start < stop <= length s]: from index 0 it returns the bytes
    [s[0 : stop - 1]] and a terminator in place of the last byte it copied;
    from any later index it writes the terminator past the end of the block
    it allocated.  The copy of [s[start : stop]] followed by a terminator is
    returned in neither case. *)
Theorem path_str_slice_outcome (s : list ascii) (start stop : Z) :
  0 <= start < stop -> stop <= Z.of_nat (List.length s) ->
  Z.of_nat (List.length s) < PTRDIFF_MAX ->
  path_str_slice (Some (lit s)) start stop
  = if start =? 0
    then Ret (Some (lit (firstn (Z.to_nat (stop - 1)) s)))
    else Fault.
Proof.
  intros Hs Hstop Hmax.
  destruct (Z.eqb_spec start 0) as [->|Hne].
  - destruct (@nth_split _ (Z.to_nat (stop - 1)) s NUL ltac:(lia))
      as (a & r & Ha & Hla).
    set (v := nth (Z.to_nat (stop - 1)) s NUL) in Ha.
    assert (Hfirst : firstn (Z.to_nat (stop - 1)) s = a)
      by (rewrite Ha, <- Hla; apply firstn_at).
    rewrite Hfirst.
    replace (lit s) with (bytes a ++ Byte v :: (bytes r ++ [Byte NUL]))
      by (rewrite Ha; unfold lit, bytes; rewrite map_app, <- app_assoc;
          reflexivity).
    replace stop with (blen (bytes a) + 1) by (rewrite blen_bytes; lia).
    apply slice_from_zero. rewrite blen_bytes. lia.
  - apply slice_from_later; lia.
Qed.

Lemma path_str_slice_outcome_witness :
  path_str_slice (Some (lit (str "abc"))) 0 3 = Ret (Some (lit (str "ab"))).
Proof.
  apply (@path_str_slice_outcome (str "abc") 0 3).
  - lia.
  - simpl. lia.
  - vm_compute. reflexivity.
Defined.

(** C4.  [path_remove_suffix] removes exactly one trailing separator: the
    string that precedes it is returned whether or not it ends in further
    separators, so a run of trailing separators is only shortened by one. *)
Theorem path_remove_suffix_removes_one (s : list ascii) :
  1 <= Z.of_nat (List.length s) ->
  Z.of_nat (List.length s) < PTRDIFF_MAX ->
  path_remove_suffix (Some (lit (s ++ [PATH_SEPARATOR])))
    (Z.of_nat (List.length (s ++ [PATH_SEPARATOR])))
  = Ret (Some (lit s)).
Proof.
  intros Hlen Hmax. apply remove_suffix_chop; [assumption|].
  rewrite length_snoc. lia.
Qed.

Lemma path_remove_suffix_removes_one_witness :
  path_remove_suffix (Some (lit (str "this////"))) 8
  = Ret (Some (lit (str "this///"))).
Proof.
  apply (@path_remove_suffix_removes_one (str "this///")).
  - simpl. lia.
  - vm_compute. reflexivity.
Defined.

(** C7.  Neither function is idempotent on the code: applied to "/ab",
    [path_remove_prefix] gives "/a", and applied to that, "/"; applied to
    "a//", [path_remove_suffix] gives "a/", and applied to that, "a". *)
Theorem strip_twice_differs :
  string_of (strip_leading (Some (lit (str "/ab")))) = Ret (str "/a") /\
  string_of (p <- strip_leading (Some (lit (str "/ab"))) ;; strip_leading p)
  = Ret (str "/") /\
  string_of (strip_trailing (Some (lit (str "a//")))) = Ret (str "a/") /\
  string_of (p <- strip_trailing (Some (lit (str "a//"))) ;; strip_trailing p)
  = Ret (str "a").
Proof. repeat split; vm_compute; reflexivity. Qed.

Lemma strip_all_strips_to (args : list ptr) :
  forall qs, strip_all args = Ret qs -> Forall2 strips_to args qs.
Proof.
  induction args as [|a args IH]; intros qs; cbn [strip_all].
  - intros [= <-]. constructor.
  - intros H. apply bind_ret in H as (q & Hq & H).
    apply bind_ret in H as (qs' & Hqs' & [= <-]).
    constructor; [|now apply IH].
    unfold string_of in Hq.
    apply bind_ret in Hq as (p & Hp & Hq).
    apply bind_ret in Hq as (b & Hb & Hq).
    destruct p as [b'|]; [|discriminate]. injection Hb as ->.
    now exists b.
Qed.

Lemma strips_to_nul_free (a : ptr) (q : list ascii) :
  strips_to a q -> nul_free q.
Proof. intros (b & _ & Hq). exact (proj1 (cstring_inv _ Hq)). Qed.

Lemma nul_free_join_with (qs : list (list ascii)) :
  Forall nul_free qs -> nul_free (join_with qs).
Proof.
  induction 1 as [|q qs Hq Hqs IH]; [constructor|].
  destruct qs as [|q' qs]; [assumption|].
  rewrite join_with_cons. apply nul_free_app; [assumption|].
  constructor; [exact separator_not_nul | assumption].
Qed.

Lemma length_join_with (qs : list (list ascii)) :
  (List.length qs <= List.length (join_with qs) + 1)%nat.
Proof.
  induction qs as [|q qs IH]; [simpl; lia|].
  destruct qs as [|q' qs]; [simpl; lia|].
  rewrite join_with_cons, length_app. cbn [List.length] in *. lia.
Qed.

Lemma path_join_string (BP : Z) (args : list ptr) (qs : list (list ascii)) :
  Forall2 strips_to args qs ->
  Z.of_nat (List.length (join_with qs)) < BP -> BP <= PTRDIFF_MAX ->
  string_of (path_join BP args) = Ret (join_with qs).
Proof.
  intros HF Hlen HBP.
  assert (Hargs : Z.of_nat (List.length args) < 2 ^ 64).
  { rewrite (Forall2_length HF). pose proof (length_join_with qs).
    unfold PTRDIFF_MAX in HBP. lia. }
  rewrite (@path_join_spec BP args qs HF (conj Hlen HBP) Hargs).
  unfold string_of. cbn [bind deref].
  apply cstring_path_buffer; [|assumption].
  apply nul_free_join_with.
  clear - HF. induction HF; constructor; eauto using strips_to_nul_free.
Qed.

Lemma join_with_leading_separator (qs : list (list ascii)) :
  hd_error (join_with qs) = Some PATH_SEPARATOR <->
  exists (q : list ascii) (qs' : list (list ascii)),
    qs = q :: qs' /\
    (hd_error q = Some PATH_SEPARATOR \/ (q = [] /\ qs' <> [])).
Proof.
  destruct qs as [|q [|q' qs']].
  - cbn [join_with hd_error]. split; [discriminate|].
    intros (q & qs' & E & _). discriminate.
  - cbn [join_with]. split.
    + intros H. exists q, []. split; [reflexivity | now left].
    + intros (q0 & qs0 & [= <- <-] & [H | [_ H]]); [assumption | contradiction].
  - rewrite join_with_cons. split.
    + intros H. exists q, (q' :: qs'). split; [reflexivity|].
      destruct q as [|c q]; [right; split; [reflexivity | discriminate]|].
      left. exact H.
    + intros (q0 & qs0 & [= <- <-] & [H | [-> _]]); [|reflexivity].
      destruct q as [|c q]; [discriminate | exact H].
Qed.

(** C5, amended.  [path_join] applies [path_remove_prefix] and then
    [path_remove_suffix] to every argument, the first and the last included,
    and writes the results in order with exactly one separator after each
    of them except the last, as long as the result fits the path buffer.  A
    separator that the stripping leaves at the start of a later argument is
    kept next to the one written.  The result starts with a separator
    exactly when the first stripped argument does, or is empty and is
    followed by another argument. *)
Theorem path_join_strips_every_part (BP : Z) (args : list ptr)
  (qs : list (list ascii)) :
  strip_all args = Ret qs ->
  Z.of_nat (List.length (join_with qs)) < BP -> BP <= PTRDIFF_MAX ->
  exists joined : list ascii,
    string_of (path_join BP args) = Ret joined /\
    joined = join_with qs /\
    (hd_error joined = Some PATH_SEPARATOR <->
     exists (q : list ascii) (qs' : list (list ascii)),
       qs = q :: qs' /\
       (hd_error q = Some PATH_SEPARATOR \/ (q = [] /\ qs' <> []))).
Proof.
  intros Hstrip Hlen HBP. exists (join_with qs).
  split; [|split; [reflexivity | apply join_with_leading_separator]].
  apply path_join_string; [|assumption..]. now apply strip_all_strips_to.
Qed.

Lemma path_join_strips_every_part_witness :
  string_of (path_join 64 [Some (lit (str "a")); Some (lit (str "b/"));
                           Some (lit (str "c"))])
  = Ret (str "a/b/c")
  /\ string_of (path_join 64 [Some (lit (str "")); Some (lit (str "b"))])
     = Ret (str "/b")
  /\ string_of (path_join 64 [Some (lit (str ""))]) = Ret (str "").
Proof.
  split; [|split].
  - destruct (@path_join_strips_every_part 64
                [Some (lit (str "a")); Some (lit (str "b/")); Some (lit (str "c"))]
                [str "a"; str "b"; str "c"]) as (joined & H & -> & _).
    + vm_compute. reflexivity.
    + simpl. lia.
    + vm_compute. discriminate.
    + exact H.
  - destruct (@path_join_strips_every_part 64
                [Some (lit (str "")); Some (lit (str "b"))]
                [str ""; str "b"]) as (joined & H & -> & _).
    + vm_compute. reflexivity.
    + simpl. lia.
    + vm_compute. discriminate.
    + exact H.
  - destruct (@path_join_strips_every_part 64 [Some (lit (str ""))] [str ""])
      as (joined & H & -> & _).
    + vm_compute. reflexivity.
    + simpl. lia.
    + vm_compute. discriminate.
    + exact H.
Defined.

(** C5, as stated, fails on both of its examples: the second yields
    "/root/sub//lea", the first faults. *)
Lemma path_join_counterexample :
  string_of (path_join 64 [Some (lit (str "/root/")); Some (lit (str "sub/"));
                           Some (lit (str "/leaf"))])
  = Ret (str "/root/sub//lea")
  /\ string_of (path_join 64 [Some (lit (str "/root/")); Some (lit (str "sub/"));
                              Some (lit (str "/leaf"))])
     <> Ret (str "/root/sub/leaf")
  /\ string_of (path_join 64 [Some (lit (str "./a//")); Some (lit (str "/b/"));
                              Some (lit (str "c"))])
     <> Ret (str "a/b/c").
Proof. repeat split; vm_compute; (reflexivity || discriminate). Qed.

(** The second example of C5 for every size of the path buffer that can
    hold the result. *)
Lemma path_join_example_any_size (BP : Z) :
  14 < BP <= PTRDIFF_MAX ->
  string_of (path_join BP [Some (lit (str "/root/")); Some (lit (str "sub/"));
                           Some (lit (str "/leaf"))])
  = Ret (str "/root/sub//lea").
Proof.
  intros [Hlo Hhi].
  apply (@path_join_string BP _ [str "/root"; str "sub"; str "/lea"]);
    [|simpl; lia | assumption].
  apply strip_all_strips_to. vm_compute. reflexivity.
Qed.

Lemma join_with_split_sep (s : list ascii) : join_with (split_sep s) = s.
Proof.
  induction s as [|c s IH]; [reflexivity|].
  cbn [split_sep]. rewrite (split_sep_hd_tl s) in IH |- *.
  destruct (Ascii.eqb_spec c PATH_SEPARATOR) as [->|_].
  - rewrite join_with_cons. cbn [app]. now rewrite IH.
  - cbn [hd tl]. destruct (tl (split_sep s)) as [|q qs].
    + cbn [join_with] in IH |- *. now rewrite IH.
    + rewrite join_with_cons in IH |- *. cbn [app]. now rewrite IH.
Qed.

Lemma sep_free_split_sep (s : list ascii) : Forall sep_free (split_sep s).
Proof.
  induction s as [|c s IH]; cbn [split_sep].
  - repeat constructor.
  - rewrite (split_sep_hd_tl s) in IH. inversion IH as [|h t Hh Ht]; subst.
    destruct (Ascii.eqb_spec c PATH_SEPARATOR) as [->|Hc].
    + constructor; [constructor | now rewrite (split_sep_hd_tl s)].
    + constructor; [now constructor | assumption].
Qed.

Lemma length_split_sep_count (s : list ascii) :
  List.length (split_sep s) = S (count_sep s).
Proof.
  unfold count_sep. induction s as [|c s IH]; [reflexivity|].
  cbn [split_sep filter]. rewrite (Ascii.eqb_sym PATH_SEPARATOR c).
  destruct (Ascii.eqb c PATH_SEPARATOR); cbn [List.length].
  - now rewrite IH.
  - rewrite (split_sep_hd_tl s) in IH. cbn [List.length] in IH. exact IH.
Qed.

(** C6, amended.  For every path that contains a separator and whose
    components fit the name buffer, [path_split] returns the components
    that lie between consecutive separators, in order and each with its
    terminator: one more than there are separators, none containing a
    separator, and giving the path back when joined by separators.  Empty
    components are kept: one before a leading separator, one after a
    trailing separator, one between two adjacent separators. *)
Theorem path_split_components (BN : Z) (w : list ascii) :
  (0 < count_sep w)%nat ->
  forallb (fun comp => Z.of_nat (List.length comp) <? BN) (split_sep w) = true ->
  Z.of_nat (List.length w) < 2 ^ 59 -> BN <= PTRDIFF_MAX ->
  exists L,
    path_split BN (Some (lit w)) (Z.of_nat (List.length w)) = Ret L /\
    elements L = Ret (map lit (split_sep w)) /\
    List.length (split_sep w) = S (count_sep w) /\
    Forall sep_free (split_sep w) /\
    join_with (split_sep w) = w.
Proof.
  intros Hsep Hsizes Hlen HBN.
  destruct (exists_last (@split_sep_nonempty w)) as (init & last & Hsplit).
  pose proof (length_split_sep_count w) as Hcount.
  pose proof (length_split_sep w) as Hle.
  rewrite Hsplit, length_app in Hcount, Hle. cbn [List.length] in Hcount, Hle.
  assert (Hsizes' : Forall (fun comp => Z.of_nat (List.length comp) < BN)
                      (init ++ [last])).
  { rewrite <- Hsplit. apply Forall_forall. intros comp Hin.
    rewrite forallb_forall in Hsizes. now apply Z.ltb_lt, Hsizes. }
  destruct (@path_split_spec BN w [Byte NUL] init last Hsplit Hsizes'
              ltac:(lia) HBN) as (L & HL & Hholds).
  exists L. split; [exact HL|]. split.
  - destruct init as [|i0 init']; [cbn [List.length] in Hcount; lia|].
    rewrite (elements_holds Hholds), Hsplit, map_app. reflexivity.
  - split; [apply length_split_sep_count|].
    split; [apply sep_free_split_sep | apply join_with_split_sep].
Qed.

Lemma path_split_components_witness :
  exists L,
    path_split 16 (Some (lit (str "/a//b/c/"))) 8 = Ret L /\
    elements L
    = Ret (map lit [str ""; str "a"; str ""; str "b"; str "c"; str ""]).
Proof.
  destruct (@path_split_components 16 (str "/a//b/c/"))
    as (L & HL & Hel & _).
  - vm_compute. lia.
  - reflexivity.
  - vm_compute. reflexivity.
  - vm_compute. discriminate.
  - exists L. split; [exact HL | exact Hel].
Defined.

(** C6, as stated, fails on both of its examples: adjacent separators and
    a trailing separator give empty components, and the empty path gives
    one component. *)
Lemma path_split_counterexample :
  (l <- path_split 16 (Some (lit (str "/a//b/c/"))) 8 ;; elements l)
  <> Ret (map lit [str ""; str "a"; str "b"; str "c"])
  /\ (l <- path_split 16 (Some (lit (str ""))) 0 ;; elements l) <> Ret [].
Proof. split; vm_compute; discriminate. Qed.

Lemma find_slash_sep_free (s : list ascii) :
  forall (pre : list ascii) (rest : buffer),
    sep_free s ->
    find_slash (List.length s) (Some (bytes (pre ++ s) ++ rest))
      (Z.of_nat (List.length pre))
    = Ret (Z.of_nat (List.length (pre ++ s))).
Proof.
  induction s as [|c s IH]; intros pre rest Hs.
  - cbn [find_slash List.length]. now rewrite app_nil_r.
  - inversion Hs as [|? ? Hc Hs']; subst.
    cbn [find_slash List.length deref bind].
    assert (Hload : load (bytes (pre ++ c :: s) ++ rest) (Z.of_nat (List.length pre))
                    = Ret c).
    { unfold bytes. rewrite map_app, <- app_assoc. cbn [map app].
      rewrite <- (length_map Byte pre). apply load_mid. }
    rewrite Hload. cbn [bind].
    destruct (Ascii.eqb_spec c PATH_SEPARATOR) as [->|_]; [contradiction|].
    specialize (IH (pre ++ [c]) rest Hs').
    rewrite <- app_assoc in IH. cbn [app] in IH.
    rewrite length_app in IH at 1. cbn [List.length] in IH.
    replace (Z.of_nat (List.length pre) + 1)
      with (Z.of_nat (List.length pre + 1)) by lia.
    exact IH.
Qed.

(** C8, amended.  For a string shorter than 3 bytes
    [path_replace_grandparent] returns [NULL], and for a string of at
    least 3 bytes that contains no separator it returns the string it was
    given. *)
Theorem path_replace_grandparent_without_head (BP : Z) (path_str grandparent : ptr)
  (length_str : Z) (s : list ascii) :
  (length_str < 3 ->
   path_replace_grandparent BP path_str length_str grandparent = Ret None) /\
  (componentb s = true -> 3 <= Z.of_nat (List.length s) ->
   path_replace_grandparent BP (Some (lit s)) (Z.of_nat (List.length s)) grandparent
   = Ret (Some (lit s))).
Proof.
  split.
  - intros H. unfold path_replace_grandparent.
    now rewrite (proj2 (Z.ltb_lt _ _) H).
  - intros Hs Hlen. unfold path_replace_grandparent.
    replace (Z.of_nat (List.length s) <? 3) with false
      by (symmetry; apply Z.ltb_ge; lia).
    rewrite Nat2Z.id.
    pose proof (@find_slash_sep_free s [] [Byte NUL]
                  (componentb_sep_free _ Hs)) as Hfind.
    cbn [app List.length] in Hfind. change (Z.of_nat 0) with 0 in Hfind.
    replace (find_slash (List.length s) (Some (lit s)) 0)
      with (Ret (Z.of_nat (List.length s))) by (symmetry; exact Hfind).
    cbn [bind]. now rewrite Z.eqb_refl.
Qed.

Lemma path_replace_grandparent_without_head_witness :
  path_replace_grandparent 64 (Some (lit (str "ab"))) 2 (Some (lit (str "new")))
  = Ret None
  /\ path_replace_grandparent 64 (Some (lit (str "abc"))) 3
       (Some (lit (str "new")))
     = Ret (Some (lit (str "abc"))).
Proof.
  split.
  - apply (@path_replace_grandparent_without_head 64 (Some (lit (str "ab")))
             (Some (lit (str "new"))) 2 (str "abc")).
    lia.
  - apply (@path_replace_grandparent_without_head 64 (Some (lit (str "ab")))
             (Some (lit (str "new"))) 2 (str "abc")).
    + reflexivity.
    + simpl. lia.
Defined.

(** C8, as stated, fails: the two-byte string "ab" is not returned
    unchanged, the result is [NULL]; and on the specification's example the
    slice of the remainder faults. *)
Lemma path_replace_grandparent_counterexample :
  path_replace_grandparent 64 (Some (lit (str "ab"))) 2 (Some (lit (str "new")))
  <> Ret (Some (lit (str "ab")))
  /\ string_of (path_replace_grandparent 64 (Some (lit (str "/old/x/y"))) 8
                  (Some (lit (str "new"))))
     <> Ret (str "new/x/y").
Proof. split; vm_compute; discriminate. Qed.

(** * The dynamic sequence *)

Lemma run_holds {A : Type} (ops : list (mutation A)) :
  forall (self self' : ListT.t A) (xs : list A),
    list_holds self xs -> run self ops = Ret self' ->
    (exists xs', list_holds self' xs') /\
    ListT.allocated self <= ListT.allocated self'.
Proof.
  induction ops as [|[x|] ops IH]; intros self self' xs H Hrun;
    cbn [run] in Hrun.
  - injection Hrun as <-. split; [eauto | lia].
  - apply bind_ret in Hrun as (self1 & Hpush & Hrun).
    destruct (List_push_inv x H Hpush) as (H1 & Hmono).
    destruct (IH _ _ _ H1 Hrun) as (Hex & Hmono').
    split; [assumption | lia].
  - apply bind_ret in Hrun as (r & Hpop & Hrun).
    induction xs as [|x xs' _] using rev_ind.
    + rewrite (List_pop_empty H) in Hpop. injection Hpop as <-.
      exact (IH _ _ _ H Hrun).
    + destruct (@List_pop_holds _ self xs' x H) as (self1 & Hpop' & H1 & Heq).
      rewrite Hpop' in Hpop. injection Hpop as <-. cbn [snd] in Hrun.
      destruct (IH _ _ _ H1 Hrun) as (Hex & Hmono').
      split; [assumption | lia].
Qed.

(** C10.  Starting from a new list, after any run of pushes and pops that
    returns, [0 <= length <= allocated] holds, and over any further run
    that returns [allocated] does not decrease; and any [N] pushes into a
    new list return a list with [length = N] and [allocated >= N] (for [N]
    up to 2^59, a size whose block the allocator can still return). *)
Theorem dynamic_sequence_invariant (A : Type) (reserve : Z)
  (ops1 ops2 : list (mutation A)) (s1 s2 : ListT.t A) (xs : list A) :
  0 <= reserve -> reserve * PTR_SIZE <= PTRDIFF_MAX ->
  (run (List_new A reserve PTR_SIZE) ops1 = Ret s1 ->
   run s1 ops2 = Ret s2 ->
   list_invariant s1 /\ list_invariant s2 /\
   ListT.allocated s1 <= ListT.allocated s2) /\
  (Z.of_nat (List.length xs) <= 2 ^ 59 ->
   exists s,
     push_all (List_new A reserve PTR_SIZE) xs = Ret s /\
     ListT.length s = Z.of_nat (List.length xs) /\
     Z.of_nat (List.length xs) <= ListT.allocated s).
Proof.
  intros Hres Hmax.
  pose proof (list_holds_new A Hres Hmax) as Hnew.
  split.
  - intros Hrun1 Hrun2.
    destruct (run_holds _ Hnew Hrun1) as ((xs1 & H1) & _).
    destruct (run_holds _ H1 Hrun2) as ((xs2 & H2) & Hmono).
    eauto using list_holds_invariant.
  - intros Hlen.
    destruct (@push_all_holds A xs _ [] Hnew Hlen) as (s & Hs & Hholds & _).
    exists s. cbn [app] in Hholds.
    pose proof (list_holds_small Hholds).
    split; [assumption|]. split; [now apply list_holds_length | lia].
Qed.

Lemma dynamic_sequence_invariant_witness :
  exists s1 s2 : ListT.t nat,
    run (List_new nat 0 PTR_SIZE) [Push 1; Push 2; Push 3; Push 4; Push 5]%nat
    = Ret s1 /\
    run s1 [Pop; Push 6; Pop; Pop]%nat = Ret s2 /\
    (list_invariant s1 /\ list_invariant s2 /\
     ListT.allocated s1 <= ListT.allocated s2) /\
    exists s,
      push_all (List_new nat 0 PTR_SIZE) [7; 8; 9]%nat = Ret s /\
      ListT.length s = 3 /\ 3 <= ListT.allocated s.
Proof.
  eexists. eexists.
  split; [vm_compute; reflexivity|].
  split; [vm_compute; reflexivity|].
  split.
  - eapply (@dynamic_sequence_invariant nat 0
              [Push 1; Push 2; Push 3; Push 4; Push 5]%nat
              [Pop; Push 6; Pop; Pop]%nat _ _ [7; 8; 9]%nat).
    + lia.
    + vm_compute. discriminate.
    + vm_compute. reflexivity.
    + vm_compute. reflexivity.
  - eapply (@dynamic_sequence_invariant nat 0 [] [] (List_new nat 0 PTR_SIZE)
              (List_new nat 0 PTR_SIZE) [7; 8; 9]%nat).
    + lia.
    + vm_compute. discriminate.
    + vm_compute. discriminate.
Defined.

(** * The local path materializer *)

Lemma split_sep_join_with (comps : list (list ascii)) :
  comps <> [] -> Forall sep_free comps -> split_sep (join_with comps) = comps.
Proof.
  induction comps as [|c comps IH]; intros Hne HF; [contradiction|].
  inversion HF as [|? ? Hc HF']; subst.
  destruct comps as [|c' comps].
  - cbn [join_with]. now apply split_sep_sep_free.
  - rewrite join_with_cons, split_sep_app_sep, IH by (assumption || discriminate).
    now rewrite split_sep_sep_free.
Qed.

Lemma dir_nameb_inv (BN : Z) (c : list ascii) :
  dir_nameb BN c = true ->
  componentb c = true /\ c <> [] /\ Z.of_nat (List.length c) < BN.
Proof.
  unfold dir_nameb. intros H.
  apply andb_prop in H as [H H3]. apply andb_prop in H as [H1 H2].
  apply Z.ltb_lt in H3. repeat split; try assumption.
  intros ->. discriminate.
Qed.

Lemma last_app_cons (a : list ascii) (x : ascii) (b : list ascii) (d : ascii) :
  last (a ++ x :: b) d = last (x :: b) d.
Proof.
  induction a as [|y a IH]; [reflexivity|].
  cbn [app]. rewrite <- IH. destruct (a ++ x :: b) eqn:E; [|reflexivity].
  now destruct a.
Qed.

Lemma steady_extend (prefix c : list ascii) :
  steady prefix -> componentb c = true -> c <> [] ->
  steady (prefix ++ PATH_SEPARATOR :: c).
Proof.
  intros (Hplain & Hne & Hdot) Hc Hcne.
  pose proof (componentb_sep_free _ Hc) as Hsep.
  pose proof (componentb_nul_free _ Hc) as Hnul.
  split; [|split].
  - pose proof (plainb_nul_free _ Hplain) as Hpn.
    unfold plainb in Hplain |- *.
    apply andb_prop in Hplain as [Hplain _].
    apply andb_prop in Hplain as [Hplain Hds].
    apply andb_prop in Hplain as [_ Hhd].
    repeat (apply andb_true_intro; split).
    + apply forallb_forall. intros x Hx.
      assert (Hall : nul_free (prefix ++ PATH_SEPARATOR :: c)).
      { apply nul_free_app; [assumption|].
        constructor; [exact separator_not_nul | assumption]. }
      unfold nul_free in Hall. rewrite Forall_forall in Hall.
      specialize (Hall x Hx). now destruct (Ascii.eqb_spec x NUL).
    + destruct prefix as [|c0 prefix]; [contradiction | exact Hhd].
    + destruct prefix as [|c0 [|c1 prefix]]; [contradiction | | exact Hds].
      cbn [app]. destruct (Ascii.eqb_spec c0 "."%char) as [->|_];
        [now contradiction Hdot | reflexivity].
    + rewrite last_app_cons.
      destruct c as [|x c]; [contradiction|].
      change (last (PATH_SEPARATOR :: x :: c) NUL) with (last (x :: c) NUL).
      pose proof (@sep_free_last (x :: c) NUL Hsep ltac:(discriminate)).
      now destruct (Ascii.eqb_spec (last (x :: c) NUL) PATH_SEPARATOR).
  - now destruct prefix.
  - destruct prefix as [|c0 prefix]; [contradiction|].
    destruct prefix; discriminate.
Qed.

Section MaterializerFacts.

Variables BN BP : Z.
Hypothesis BN_max : BN <= PTRDIFF_MAX.
Hypothesis BP_max : BP <= 2 ^ 59.

Variable world : Type.
Variable stat : world -> result (list ascii) -> Z.
Variable mkdir : world -> result (list ascii) -> Z -> Z * world.
Variable mode : Z.

(** [mkdir] returns 0 or -1, as POSIX has it. *)
Hypothesis mkdir_status :
  forall w p m, fst (mkdir w p m) = 0 \/ fst (mkdir w p m) = -1.

Lemma mkdir_tested (w : world) (p : result (list ascii)) :
  (int8_t (fst (mkdir w p mode)) =? 0) = (fst (mkdir w p mode) =? 0).
Proof. now destruct (mkdir_status w p mode) as [-> | ->]. Qed.

(** The loop of [path_mkdir_parents] from the second component on:
    [path_buf] holds the prefix joined so far. *)
Lemma mkdir_loop_spec (L : ListT.t buffer) (cs : list (list ascii)) :
  forall (done : list (list ascii)) (prefix : list ascii) (rest : buffer)
         (w : world) (calls : list syscall),
    list_holds L (map lit (done ++ cs)) ->
    done <> [] -> steady prefix ->
    Forall (fun c => dir_nameb BN c = true) cs ->
    (cs <> [] ->
     Z.of_nat (List.length prefix + 1 + List.length (join_with cs)) < BP) ->
    mkdir_loop BP stat mkdir mode (List.length cs) L
      (Z.of_nat (List.length done)) (Some (bytes prefix ++ Byte NUL :: rest))
      w calls
    = Ret (materialize stat mkdir mode (prefix_paths_from prefix cs) w calls).
Proof.
  induction cs as [|c cs IH]; intros done prefix rest w calls HL Hdone Hst HF Hlen;
    [reflexivity|].
  inversion HF as [|? ? Hc HF']; subst.
  destruct (dir_nameb_inv _ _ Hc) as (Hcomp & Hcne & HcBN).
  specialize (Hlen ltac:(discriminate)).
  assert (Hlen' : Z.of_nat (List.length (prefix ++ PATH_SEPARATOR :: c)) < BP).
  { rewrite length_app. cbn [List.length].
    destruct cs as [|c' cs']; [cbn [join_with] in Hlen; lia|].
    rewrite join_with_cons, length_app in Hlen. lia. }
  pose proof (steady_extend Hst Hcomp Hcne) as Hst'.
  cbn [mkdir_loop List.length materialize prefix_paths_from].
  replace (negb (Z.of_nat (List.length done) =? 0)) with true.
  2:{ symmetry. apply negb_true_iff, Z.eqb_neq. destruct done; [contradiction|].
      cbn [List.length]. lia. }
  assert (Hget : List_get L (Z.of_nat (List.length done)) = Ret (Some (lit c))).
  { rewrite map_app in HL. cbn [map] in HL.
    rewrite <- (length_map lit done). exact (List_get_holds _ _ _ HL). }
  rewrite Hget. cbn [bind].
  pose proof (@join_dir_name BP BP_max prefix c rest (proj1 Hst) Hcomp Hlen')
    as Hjoin.
  match goal with
  | |- bind ?m _ = _ =>
      replace m with (Ret (Some (path_buffer BP (prefix ++ PATH_SEPARATOR :: c))))
        by (symmetry; exact Hjoin)
  end.
  cbn [bind]. cbv zeta. unfold path_arg. cbn [bind deref].
  assert (Hnul : nul_free (prefix ++ PATH_SEPARATOR :: c))
    by (apply plainb_nul_free, Hst').
  rewrite cstring_path_buffer by assumption.
  rewrite (@path_buffer_unfold BP (prefix ++ PATH_SEPARATOR :: c) 1) by lia.
  cbn [repeat app].
  assert (Hnext : forall w' calls',
             mkdir_loop BP stat mkdir mode (List.length cs) L
               (Z.of_nat (List.length done) + 1)
               (Some (bytes (prefix ++ PATH_SEPARATOR :: c) ++ Byte NUL ::
                        repeat (Byte NUL)
                          (Z.to_nat BP
                           - List.length (prefix ++ PATH_SEPARATOR :: c) - 1)))
               w' calls'
             = Ret (materialize stat mkdir mode
                      (prefix_paths_from (prefix ++ PATH_SEPARATOR :: c) cs)
                      w' calls')).
  { intros w' calls'.
    replace (Z.of_nat (List.length done) + 1)
      with (Z.of_nat (List.length (done ++ [c])))
      by (rewrite length_app; cbn [List.length]; lia).
    apply IH; try assumption.
    - rewrite <- app_assoc. exact HL.
    - now destruct done.
    - intros Hne. destruct cs as [|c' cs']; [contradiction|].
      rewrite join_with_cons, !length_app in Hlen.
      rewrite length_app. cbn [List.length] in Hlen |- *. lia. }
  destruct (stat w (Ret (prefix ++ PATH_SEPARATOR :: c)) =? -1).
  - pose proof (mkdir_tested w (Ret (prefix ++ PATH_SEPARATOR :: c))) as Ht.
    destruct (mkdir w (Ret (prefix ++ PATH_SEPARATOR :: c)) mode) as [result w'].
    cbn [fst] in Ht. rewrite Ht.
    destruct (negb (result =? 0)); [reflexivity | apply Hnext].
  - apply Hnext.
Qed.

(** [path_mkdir_parents] on a relative path of two or more non-empty
    components: it probes and creates the prefixes in order. *)
Lemma path_mkdir_parents_spec (c1 : list ascii) (cs : list (list ascii)) (w : world) :
  cs <> [] ->
  Forall (fun c => dir_nameb BN c = true) (c1 :: cs) ->
  c1 <> ["."%char] ->
  Z.of_nat (List.length (join_with (c1 :: cs))) < BP ->
  path_mkdir_parents BN BP stat mkdir mode
    (Some (lit (join_with (c1 :: cs))))
    (Z.of_nat (List.length (join_with (c1 :: cs)))) w
  = Ret (materialize stat mkdir mode (prefix_paths (c1 :: cs)) w []).
Proof.
  intros Hcs HF Hdot Hlen.
  inversion HF as [|? ? Hc1 HF']; subst.
  destruct (dir_nameb_inv _ _ Hc1) as (Hcomp1 & Hc1ne & Hc1BN).
  assert (Hsep : Forall sep_free (c1 :: cs)).
  { apply Forall_forall. intros c Hin. rewrite Forall_forall in HF.
    apply componentb_sep_free. now destruct (dir_nameb_inv _ _ (HF c Hin)). }
  assert (Hsizes : Forall (fun comp => Z.of_nat (List.length comp) < BN) (c1 :: cs)).
  { apply Forall_forall. intros c Hin. rewrite Forall_forall in HF.
    now destruct (dir_nameb_inv _ _ (HF c Hin)) as (_ & _ & ?). }
  pose proof (@split_sep_join_with (c1 :: cs) ltac:(discriminate) Hsep) as Hsplit.
  destruct (@exists_last _ (c1 :: cs) ltac:(discriminate)) as (init & last & Hcomps).
  assert (Hsplit' : split_sep (join_with (c1 :: cs)) = init ++ [last])
    by (rewrite Hsplit; exact Hcomps).
  assert (Hsizes' : Forall (fun comp => Z.of_nat (List.length comp) < BN)
                      (init ++ [last]))
    by (rewrite <- Hcomps; exact Hsizes).
  pose proof (length_split_sep (join_with (c1 :: cs))) as Hcount.
  rewrite Hsplit', length_app in Hcount. cbn [List.length] in Hcount.
  destruct (@path_split_spec BN (join_with (c1 :: cs)) [Byte NUL] init last
              Hsplit' Hsizes' ltac:(lia) BN_max) as (L & HL & Hholds).
  assert (Hinit : init <> []).
  { intros ->. destruct cs; [contradiction | discriminate]. }
  destruct init as [|i0 init']; [contradiction|].
  change (bytes last ++ [Byte NUL]) with (lit last) in Hholds.
  change (map lit (i0 :: init') ++ [lit last])
    with (map lit (i0 :: init') ++ map lit [last]) in Hholds.
  rewrite <- map_app, <- Hcomps in Hholds.
  unfold path_mkdir_parents.
  replace (path_split BN (Some (lit (join_with (c1 :: cs))))
             (Z.of_nat (List.length (join_with (c1 :: cs)))))
    with (Ret L) by (symmetry; exact HL).
  cbn [bind].
  assert (Hget : List_get L 0 = Ret (Some (lit c1)))
    by exact (@List_get_holds _ L [] (lit c1) (map lit cs) Hholds).
  rewrite Hget. cbn [bind].
  rewrite (list_holds_length Hholds), Nat2Z.id, length_map.
  cbn [List.length mkdir_loop prefix_paths materialize].
  change (negb (0 =? 0)) with false. cbv iota. cbn [bind]. cbv zeta.
  unfold path_arg. cbn [bind deref].
  rewrite cstring_lit by now apply componentb_nul_free.
  assert (Hnext : forall w' calls',
             mkdir_loop BP stat mkdir mode (List.length cs) L (0 + 1)
               (Some (lit c1)) w' calls'
             = Ret (materialize stat mkdir mode (prefix_paths_from c1 cs)
                      w' calls')).
  { intros w' calls'.
    apply (@mkdir_loop_spec L cs [c1] c1 [] w' calls'); try assumption.
    - discriminate.
    - repeat split; [now apply componentb_plainb | assumption | assumption].
    - intros _. destruct cs as [|c' cs']; [contradiction|].
      rewrite join_with_cons, length_app in Hlen.
      cbn [List.length] in Hlen. lia. }
  destruct (stat w (Ret c1) =? -1).
  - pose proof (mkdir_tested w (Ret c1)) as Ht.
    destruct (mkdir w (Ret c1) mode) as [result w'].
    cbn [fst] in Ht. rewrite Ht.
    destruct (negb (result =? 0)); [reflexivity | apply Hnext].
  - apply Hnext.
Qed.

End MaterializerFacts.

Section FileSystemFacts.

Variable world : Type.
Variable stat : world -> result (list ascii) -> Z.
Variable mkdir : world -> result (list ascii) -> Z -> Z * world.
Variable mode : Z.

(** What is assumed of the file system: a successful [mkdir] makes its
    path exist and removes nothing, a failing one changes nothing. *)
Hypothesis mkdir_creates :
  forall w p m w', mkdir w (Ret p) m = (0, w') -> stat w' (Ret p) <> -1.
Hypothesis mkdir_keeps :
  forall w p m w' q,
    mkdir w (Ret p) m = (0, w') -> stat w (Ret q) <> -1 -> stat w' (Ret q) <> -1.
Hypothesis mkdir_fails :
  forall w p m r w', mkdir w (Ret p) m = (r, w') -> r <> 0 -> w' = w.

Lemma materialize_all_exist (paths : list (list ascii)) :
  forall (w : world) (calls : list syscall),
    Forall (fun p => stat w (Ret p) <> -1) paths ->
    materialize stat mkdir mode paths w calls
    = (1, w, calls ++ map (fun p => Stat (Ret p)) paths).
Proof.
  induction paths as [|p paths IH]; intros w calls HF; cbn [materialize map].
  - now rewrite app_nil_r.
  - inversion HF as [|? ? Hp HF']; subst.
    rewrite (proj2 (Z.eqb_neq _ _) Hp), IH by assumption.
    now rewrite <- app_assoc.
Qed.

Lemma materialize_ok (paths : list (list ascii)) :
  forall (w w' : world) (calls calls' : list syscall),
    materialize stat mkdir mode paths w calls = (1, w', calls') ->
    (forall q, stat w (Ret q) <> -1 -> stat w' (Ret q) <> -1) /\
    Forall (fun p => stat w' (Ret p) <> -1) paths.
Proof.
  induction paths as [|p paths IH]; intros w w' calls calls'; cbn [materialize].
  - intros [= <- <-]. split; [auto | constructor].
  - destruct (Z.eqb_spec (stat w (Ret p)) (-1)) as [Habs|Hex].
    + destruct (mkdir w (Ret p) mode) as [result w1] eqn:Hmk.
      destruct (Z.eqb_spec result 0) as [->|Hr]; cbn [negb]; [|discriminate].
      intros H. destruct (IH _ _ _ _ H) as (Hkeep & HF).
      split.
      * intros q Hq. eapply Hkeep, mkdir_keeps; eassumption.
      * constructor; [|assumption]. eapply Hkeep, mkdir_creates; eassumption.
    + intros H. destruct (IH _ _ _ _ H) as (Hkeep & HF).
      split; [assumption|]. constructor; [now apply Hkeep | assumption].
Qed.

Lemma materialize_failed (paths : list (list ascii)) :
  forall (w w' : world) (calls calls' : list syscall) (ok : Z),
    materialize stat mkdir mode paths w calls = (ok, w', calls') ->
    ok <> 1 ->
    ok = 0 /\ exists p, In p paths /\ stat w' (Ret p) = -1.
Proof.
  induction paths as [|p paths IH]; intros w w' calls calls' ok; cbn [materialize].
  - intros [= <- <- <-] H. contradiction.
  - destruct (Z.eqb_spec (stat w (Ret p)) (-1)) as [Habs|Hex].
    + destruct (mkdir w (Ret p) mode) as [result w1] eqn:Hmk.
      destruct (Z.eqb_spec result 0) as [->|Hr]; cbn [negb].
      * intros H Hok. destruct (IH _ _ _ _ _ H Hok) as (-> & q & Hin & Hq).
        split; [reflexivity|]. exists q. split; [now right | assumption].
      * intros [= <- <- <-] _. split; [reflexivity|].
        exists p. split; [now left|].
        now rewrite (mkdir_fails Hmk Hr).
    + intros H Hok. destruct (IH _ _ _ _ _ H Hok) as (-> & q & Hin & Hq).
      split; [reflexivity|]. exists q. split; [now right | assumption].
Qed.

End FileSystemFacts.

Lemma model_mkdir_status (w : list (list ascii)) (p : result (list ascii))
  (m : Z) :
  fst (model_mkdir w p m) = 0 \/ fst (model_mkdir w p m) = -1.
Proof.
  unfold model_mkdir. destruct p as [[|c p]|]; cbn [fst]; auto.
  destruct (in_dec (list_eq_dec ascii_dec) (c :: p) w); cbn [fst]; auto.
Qed.

Lemma model_mkdir_creates (w : list (list ascii)) (p : list ascii) (m : Z)
  (w' : list (list ascii)) :
  model_mkdir w (Ret p) m = (0, w') -> model_stat w' (Ret p) <> -1.
Proof.
  unfold model_mkdir, model_stat. destruct p as [|c p]; [discriminate|].
  destruct (in_dec (list_eq_dec ascii_dec) (c :: p) w); [discriminate|]. intros [= <-].
  destruct (in_dec (list_eq_dec ascii_dec) (c :: p) (w ++ [c :: p])) as [|Hn]; [discriminate|].
  exfalso. apply Hn, in_or_app. right. now left.
Qed.

Lemma model_mkdir_keeps (w : list (list ascii)) (p : list ascii) (m : Z)
  (w' : list (list ascii)) (q : list ascii) :
  model_mkdir w (Ret p) m = (0, w') ->
  model_stat w (Ret q) <> -1 -> model_stat w' (Ret q) <> -1.
Proof.
  unfold model_mkdir, model_stat. destruct p as [|c p]; [discriminate|].
  destruct (in_dec (list_eq_dec ascii_dec) (c :: p) w); [discriminate|]. intros [= <-].
  destruct q as [|d q]; [contradiction|].
  destruct (in_dec (list_eq_dec ascii_dec) (d :: q) w) as [Hq|]; [|contradiction]. intros _.
  destruct (in_dec (list_eq_dec ascii_dec) (d :: q) (w ++ [c :: p])) as [|Hn]; [discriminate|].
  exfalso. apply Hn, in_or_app. now left.
Qed.

Lemma model_mkdir_fails (w : list (list ascii)) (p : list ascii) (m r : Z)
  (w' : list (list ascii)) :
  model_mkdir w (Ret p) m = (r, w') -> r <> 0 -> w' = w.
Proof.
  unfold model_mkdir. destruct p as [|c p]; [now intros [= <- <-]|].
  destruct (in_dec (list_eq_dec ascii_dec) (c :: p) w); intros [= <- <-]; [reflexivity | contradiction].
Qed.

(** X23.  For a relative path of two or more non-empty components that
    fit the buffers, the first not ".", on a file system whose [mkdir]
    returns 0 or -1, [path_mkdir_parents] probes the prefixes of the path
    with [stat] from the shortest to the longest and creates with [mkdir]
    and the fixed mode each one for which [stat] returned -1, stopping with
    0 at the first [mkdir] that fails; it returns 1 exactly when every
    prefix exists afterwards; and when every prefix exists beforehand it
    returns 1 having made only the [stat] calls, the file system being left
    as it was. *)
Theorem ensure_parents_materializes (BN BP : Z) (world : Type)
  (stat : world -> result (list ascii) -> Z)
  (mkdir : world -> result (list ascii) -> Z -> Z * world)
  (mode : Z) (c1 : list ascii) (cs : list (list ascii)) (w : world) :
  BN <= PTRDIFF_MAX -> BP <= 2 ^ 59 ->
  (forall w p m, fst (mkdir w p m) = 0 \/ fst (mkdir w p m) = -1) ->
  (forall w p m w', mkdir w (Ret p) m = (0, w') -> stat w' (Ret p) <> -1) ->
  (forall w p m w' q,
      mkdir w (Ret p) m = (0, w') ->
      stat w (Ret q) <> -1 -> stat w' (Ret q) <> -1) ->
  (forall w p m r w', mkdir w (Ret p) m = (r, w') -> r <> 0 -> w' = w) ->
  cs <> [] ->
  forallb (dir_nameb BN) (c1 :: cs) = true ->
  c1 <> str "." ->
  Z.of_nat (List.length (join_with (c1 :: cs))) < BP ->
  exists (ok : Z) (w' : world) (calls : list syscall),
    path_mkdir_parents BN BP stat mkdir mode
      (Some (lit (join_with (c1 :: cs))))
      (Z.of_nat (List.length (join_with (c1 :: cs)))) w
    = Ret (ok, w', calls) /\
    materialize stat mkdir mode (prefix_paths (c1 :: cs)) w [] = (ok, w', calls) /\
    (ok = 1 <->
     Forall (fun p => stat w' (Ret p) <> -1) (prefix_paths (c1 :: cs))) /\
    (Forall (fun p => stat w (Ret p) <> -1) (prefix_paths (c1 :: cs)) ->
     ok = 1 /\ w' = w /\
     calls = map (fun p => Stat (Ret p)) (prefix_paths (c1 :: cs))).
Proof.
  intros HBN HBP Hstatus Hcreates Hkeeps Hfails Hcs Hnames Hdot Hlen.
  assert (HF : Forall (fun c => dir_nameb BN c = true) (c1 :: cs))
    by (apply Forall_forall; intros c Hin;
        rewrite forallb_forall in Hnames; now apply Hnames).
  pose proof (@path_mkdir_parents_spec BN BP HBN HBP world stat mkdir mode
                Hstatus c1 cs w Hcs HF Hdot Hlen) as Hrun.
  destruct (materialize stat mkdir mode (prefix_paths (c1 :: cs)) w [])
    as [[ok w'] calls] eqn:Hm.
  exists ok, w', calls. split; [exact Hrun|]. split; [reflexivity|]. split.
  - split.
    + intros ->.
      eapply (@materialize_ok world stat mkdir mode Hcreates Hkeeps). exact Hm.
    + intros Hall. destruct (Z.eq_dec ok 1) as [|Hne]; [assumption|].
      destruct (@materialize_failed world stat mkdir mode Hfails _ _ _ _ _ _
                  Hm Hne) as (_ & p & Hin & Hp).
      rewrite Forall_forall in Hall. now contradiction (Hall p Hin).
  - intros Hall.
    rewrite (@materialize_all_exist world stat mkdir mode _ w [] Hall) in Hm.
    now injection Hm as <- <- <-.
Qed.

Lemma ensure_parents_materializes_witness :
  path_mkdir_parents 16 64 model_stat model_mkdir 493
    (Some (lit (str "a/b/c"))) 5 []
  = Ret (1, [str "a"; str "a/b"; str "a/b/c"],
         [Stat (Ret (str "a")); Mkdir (Ret (str "a")) 493;
          Stat (Ret (str "a/b")); Mkdir (Ret (str "a/b")) 493;
          Stat (Ret (str "a/b/c")); Mkdir (Ret (str "a/b/c")) 493])
  /\ path_mkdir_parents 16 64 model_stat model_mkdir 493
       (Some (lit (str "a/b/c"))) 5 [str "a"; str "a/b"; str "a/b/c"]
     = Ret (1, [str "a"; str "a/b"; str "a/b/c"],
            [Stat (Ret (str "a")); Stat (Ret (str "a/b"));
             Stat (Ret (str "a/b/c"))]).
Proof.
  split.
  - destruct (@ensure_parents_materializes 16 64 _ model_stat model_mkdir 493
                (str "a") [str "b"; str "c"] [])
      as (ok & w' & calls & Hrun & Hm & _).
    + vm_compute. discriminate.
    + vm_compute. discriminate.
    + exact model_mkdir_status.
    + exact model_mkdir_creates.
    + exact model_mkdir_keeps.
    + exact model_mkdir_fails.
    + discriminate.
    + reflexivity.
    + discriminate.
    + vm_compute. reflexivity.
    + vm_compute in Hm. injection Hm as <- <- <-. exact Hrun.
  - destruct (@ensure_parents_materializes 16 64 _ model_stat model_mkdir 493
                (str "a") [str "b"; str "c"]
                [str "a"; str "a/b"; str "a/b/c"])
      as (ok & w' & calls & Hrun & Hm & _).
    + vm_compute. discriminate.
    + vm_compute. discriminate.
    + exact model_mkdir_status.
    + exact model_mkdir_creates.
    + exact model_mkdir_keeps.
    + exact model_mkdir_fails.
    + discriminate.
    + reflexivity.
    + discriminate.
    + vm_compute. reflexivity.
    + vm_compute in Hm. injection Hm as <- <- <-. exact Hrun.
Defined.

(** C9.  On an absolute path [path_mkdir_parents] does not get as far as
    the first directory.  [path_split] gives the empty string that
    precedes the leading separator as the first component, and the loop
    passes it to [stat] as it is; on a file system where [stat] reports the
    empty path absent and [mkdir] fails on it, the call returns 0 after
    these two calls, whatever the path goes on with and whichever of its
    directories exist. *)
Theorem ensure_parents_absolute_path (BN BP : Z) (world : Type)
  (stat : world -> result (list ascii) -> Z)
  (mkdir : world -> result (list ascii) -> Z -> Z * world)
  (mode : Z) (w : list ascii) (rest : buffer) (fs : world) :
  Ascii.eqb (hd NUL w) PATH_SEPARATOR = true ->
  forallb (fun comp => Z.of_nat (List.length comp) <? BN) (split_sep w) = true ->
  BN <= PTRDIFF_MAX ->
  Z.of_nat (List.length w) < 2 ^ 59 ->
  stat fs (Ret []) = -1 ->
  int8_t (fst (mkdir fs (Ret []) mode)) <> 0 ->
  path_mkdir_parents BN BP stat mkdir mode (Some (bytes w ++ rest))
    (Z.of_nat (List.length w)) fs
  = Ret (0, snd (mkdir fs (Ret []) mode),
         [Stat (Ret []); Mkdir (Ret []) mode]).
Proof.
  intros Habs Hsizes HBN Hlen Hstat Hmkdir.
  destruct w as [|c0 w0]; [discriminate|]. cbn [hd] in Habs.
  apply Ascii.eqb_eq in Habs. subst c0.
  change (PATH_SEPARATOR :: w0) with ([] ++ PATH_SEPARATOR :: w0) in Hsizes |- *.
  pose proof (@split_sep_at_sep [] w0 ltac:(constructor)) as Hsplit.
  destruct (exists_last (@split_sep_nonempty w0)) as (init & lst & Hw0).
  rewrite Hw0 in Hsplit.
  change ([] :: init ++ [lst]) with (([] :: init) ++ [lst]) in Hsplit.
  pose proof (length_split_sep ([] ++ PATH_SEPARATOR :: w0)) as Hcount.
  rewrite Hsplit, length_app in Hcount. cbn [List.length] in Hcount.
  assert (Hsizes' : Forall (fun comp => Z.of_nat (List.length comp) < BN)
                      (([] :: init) ++ [lst])).
  { rewrite <- Hsplit. apply Forall_forall. intros comp Hin.
    rewrite forallb_forall in Hsizes. now apply Z.ltb_lt, Hsizes. }
  destruct (@path_split_spec BN ([] ++ PATH_SEPARATOR :: w0) rest
              ([] :: init) lst Hsplit Hsizes'
              ltac:(cbn [app List.length] in *; lia) HBN)
    as (L & HL & Hholds).
  unfold path_mkdir_parents. rewrite HL. cbn [bind].
  cbn [map app] in Hholds.
  pose proof (@List_get_holds _ L [] (lit []) _ Hholds) as Hget.
  cbn [List.length] in Hget. change (Z.of_nat 0) with 0 in Hget.
  rewrite Hget. cbn [bind].
  rewrite (list_holds_length Hholds), Nat2Z.id.
  cbn [List.length mkdir_loop].
  change (negb (0 =? 0)) with false. cbv iota. cbn [bind]. cbv zeta.
  change (path_arg (Some (lit []))) with (@Ret (list ascii) []).
  rewrite Hstat. change (-1 =? -1) with true. cbv iota.
  destruct (mkdir fs (Ret []) mode) as [result fs'].
  cbn [fst snd] in *.
  now rewrite (proj2 (Z.eqb_neq _ _) Hmkdir).
Qed.

Lemma ensure_parents_absolute_path_witness :
  path_mkdir_parents 256 4096 model_stat model_mkdir 493
    (Some (lit (str "/a/b"))) 4 [str "/a"; str "/a/b"]
  = Ret (0, [str "/a"; str "/a/b"], [Stat (Ret []); Mkdir (Ret []) 493]).
Proof.
  apply (@ensure_parents_absolute_path 256 4096 _ model_stat model_mkdir 493
           (str "/a/b") [Byte NUL] [str "/a"; str "/a/b"]).
  - reflexivity.
  - reflexivity.
  - vm_compute. discriminate.
  - vm_compute. reflexivity.
  - reflexivity.
  - vm_compute. discriminate.
Defined.

(** * Outside the hypotheses

    What the code does on inputs the theorems above leave out. *)

(** The components of a path without separator: one component, pushed
    with the byte that follows it in the uninitialised buffer. *)
Lemma path_split_without_separator :
  (l <- path_split 16 (Some (lit (str "abc"))) 3 ;; elements l)
  = Ret [bytes (str "abc") ++ [Undef]].
Proof. vm_compute. reflexivity. Qed.

(** * Further properties of the code *)

Lemma nul_freeb_nul_free (s : list ascii) : nul_freeb s = true -> nul_free s.
Proof.
  unfold nul_freeb. intros H. apply Forall_forall. intros c Hc.
  rewrite forallb_forall in H. specialize (H c Hc).
  destruct (Ascii.eqb_spec c NUL); [discriminate | assumption].
Qed.

(** ** The predicates on paths *)

(** X1.  [path_is_dotted], given a string and its length, answers true exactly
    for "." and "..": the early exit on a length above 2 never hides one of
    the two. *)
Theorem path_is_dotted_iff (s : list ascii) (rest : buffer) :
  nul_freeb s = true ->
  exists b : bool,
    path_is_dotted (Some (bytes s ++ Byte NUL :: rest))
      (Z.of_nat (List.length s)) = Ret b /\
    (b = true <-> s = str "." \/ s = str "..").
Proof.
  intros Hs. apply nul_freeb_nul_free in Hs. unfold path_is_dotted.
  destruct (Z.ltb_spec 2 (Z.of_nat (List.length s))) as [Hlong|Hshort].
  - exists false. split; [reflexivity|]. split; [discriminate|].
    intros [-> | ->]; simpl in Hlong; lia.
  - unfold streq. cbn [deref bind]. rewrite cstring_bytes by assumption.
    cbn [bind].
    destruct (list_eq_dec ascii_dec s (str ".")) as [E1|N1].
    + exists true. split; [reflexivity|]. split; auto.
    + cbn [bind].
      destruct (list_eq_dec ascii_dec s (str "..")) as [E2|N2].
      * exists true. split; [reflexivity|]. split; auto.
      * exists false. split; [reflexivity|]. split; [discriminate|].
        intros [E | E]; contradiction.
Qed.

Lemma path_is_dotted_iff_witness :
  exists b : bool,
    path_is_dotted (Some (lit (str ".."))) 2 = Ret b /\
    (b = true <-> str ".." = str "." \/ str ".." = str "..").
Proof.
  apply (@path_is_dotted_iff (str "..") []).
  reflexivity.
Defined.

(** [path_is_hidden], given a string and its length, answers true exactly
    when the string starts with a dot; the empty string is not hidden, and
    nothing but the first byte is looked at. *)
Theorem path_is_hidden_iff (s : list ascii) (rest : buffer) :
  exists b : bool,
    path_is_hidden (Some (bytes s ++ Byte NUL :: rest))
      (Z.of_nat (List.length s)) = Ret b /\
    (b = true <-> exists t, s = "."%char :: t).
Proof.
  unfold path_is_hidden. destruct s as [|c s].
  - exists false. split; [reflexivity|]. split; [discriminate|].
    intros (t & E). discriminate.
  - replace (Z.of_nat (List.length (c :: s)) =? 0) with false
      by (symmetry; apply Z.eqb_neq; simpl; lia).
    cbn [deref bind]. rewrite load_bytes_0. cbn [bind].
    exists (Ascii.eqb c "."%char). split; [reflexivity|].
    destruct (Ascii.eqb_spec c "."%char) as [->|Hc].
    + split; eauto.
    + split; [discriminate|]. intros (t & [= E _]). contradiction.
Qed.

(** X2.  Every path [path_is_dotted] accepts is one [path_is_hidden] accepts,
    for the same pointer and the same length, unless the length passed is
    0: [path_is_hidden] then answers false without looking at the string. *)
Theorem path_is_dotted_is_hidden (path_str : ptr) (length : Z) :
  path_is_dotted path_str length = Ret true ->
  length <> 0 ->
  path_is_hidden path_str length = Ret true.
Proof.
  unfold path_is_dotted, path_is_hidden, streq. intros H Hlen.
  rewrite (proj2 (Z.eqb_neq _ _) Hlen).
  destruct (2 <? length); [discriminate|].
  destruct path_str as [b|]; [|discriminate]. cbn [deref bind] in *.
  destruct (cstring b) as [t|] eqn:Ht; [|discriminate]. cbn [bind] in H.
  destruct (cstring_inv _ Ht) as (_ & rest & ->).
  destruct (list_eq_dec ascii_dec t (str ".")) as [->|_].
  - reflexivity.
  - cbn [bind] in H.
    destruct (list_eq_dec ascii_dec t (str "..")) as [->|_]; [|discriminate].
    reflexivity.
Qed.

Lemma path_is_dotted_is_hidden_witness :
  path_is_hidden (Some (lit (str "."))) 1 = Ret true.
Proof.
  apply (@path_is_dotted_is_hidden (Some (lit (str "."))) 1).
  - reflexivity.
  - discriminate.
Defined.

(** ** [path_remove_suffix] and [path_buf_clear] *)

(** X3.  The whole of [path_remove_suffix] on a string and its length: a string
    of fewer than 2 bytes, or one that does not end in a separator, is
    returned as the pointer it came in; any other string comes back as a
    new block without its last byte. *)
Theorem path_remove_suffix_result (s : list ascii) (rest : buffer) :
  Z.of_nat (List.length s) < PTRDIFF_MAX ->
  path_remove_suffix (Some (bytes s ++ Byte NUL :: rest))
    (Z.of_nat (List.length s))
  = if (2 <=? Z.of_nat (List.length s))
       && Ascii.eqb (last s NUL) PATH_SEPARATOR
    then Ret (Some (lit (removelast s)))
    else Ret (Some (bytes s ++ Byte NUL :: rest)).
Proof.
  intros Hmax.
  destruct (Z.leb_spec 2 (Z.of_nat (List.length s))) as [Hlong|Hshort];
    cbn [andb]; [|apply remove_suffix_short; lia].
  destruct (@exists_last _ s) as (s' & c & ->).
  { intros ->. simpl in Hlong. lia. }
  rewrite last_last, removelast_last.
  destruct (Ascii.eqb_spec c PATH_SEPARATOR) as [->|Hc].
  - rewrite length_snoc in Hlong.
    apply remove_suffix_chop; lia.
  - apply (@remove_suffix_keep s' c rest Hc). lia.
Qed.

Lemma path_remove_suffix_result_witness :
  path_remove_suffix (Some (lit (str "a/b"))) 3 = Ret (Some (lit (str "a/b")))
  /\ path_remove_suffix (Some (lit (str "a/b/"))) 4 = Ret (Some (lit (str "a/b"))).
Proof.
  split.
  - apply (@path_remove_suffix_result (str "a/b") []). vm_compute. reflexivity.
  - apply (@path_remove_suffix_result (str "a/b/") []). vm_compute. reflexivity.
Defined.

Lemma buf_clear_loop_mid (r : buffer) :
  forall a t : buffer,
    buf_clear_loop (List.length r) (a ++ r ++ t) (blen a)
    = Ret (a ++ repeat (Byte NUL) (List.length r) ++ t).
Proof.
  induction r as [|v r IH]; intros a t; cbn [buf_clear_loop List.length repeat app].
  - reflexivity.
  - rewrite store_mid. cbn [bind].
    replace (blen a + 1) with (blen (a ++ [Byte NUL]))
      by (autorewrite with blen; lia).
    change (a ++ Byte NUL :: r ++ t) with (a ++ [Byte NUL] ++ r ++ t).
    rewrite app_assoc, IH, <- app_assoc. reflexivity.
Qed.

Lemma buf_clear_loop_overrun (r : buffer) :
  forall (a : buffer) (k : nat),
    buf_clear_loop (List.length r + S k) (a ++ r) (blen a) = Fault.
Proof.
  induction r as [|v r IH]; intros a k; cbn [buf_clear_loop List.length Nat.add].
  - rewrite app_nil_r, store_out by lia. reflexivity.
  - rewrite store_mid. cbn [bind].
    replace (blen a + 1) with (blen (a ++ [Byte NUL]))
      by (autorewrite with blen; lia).
    change (a ++ Byte NUL :: r) with (a ++ [Byte NUL] ++ r).
    rewrite app_assoc. apply IH.
Qed.

(** X4.  [path_buf_clear] zeroes exactly the first [length] bytes of the buffer
    and leaves the rest as it was; a [length] beyond the size of the
    buffer runs off its end. *)
Theorem path_buf_clear_result (path_buf : buffer) (length : Z) :
  path_buf_clear path_buf length
  = if length <=? blen path_buf
    then Ret (repeat (Byte NUL) (Z.to_nat length)
                ++ skipn (Z.to_nat length) path_buf)
    else Fault.
Proof.
  unfold path_buf_clear.
  destruct (Z.leb_spec length (blen path_buf)) as [Hin|Hout].
  - assert (Hlen : List.length (firstn (Z.to_nat length) path_buf)
                   = Z.to_nat length)
      by (rewrite length_firstn; unfold blen in Hin; lia).
    pose proof (buf_clear_loop_mid (firstn (Z.to_nat length) path_buf) []
                  (skipn (Z.to_nat length) path_buf)) as H.
    cbn [app] in H. change (blen []) with 0 in H.
    now rewrite firstn_skipn, Hlen in H.
  - replace (Z.to_nat length)
      with (List.length path_buf + S (Z.to_nat length - List.length path_buf - 1))%nat
      by (unfold blen in Hout; lia).
    exact (buf_clear_loop_overrun path_buf [] _).
Qed.

(** ** The dynamic list *)

Lemma reachable_holds {A : Type} (reserve : Z) (ops : list (mutation A))
  (s : ListT.t A) :
  0 <= reserve -> reserve * PTR_SIZE <= PTRDIFF_MAX ->
  run (List_new A reserve PTR_SIZE) ops = Ret s ->
  exists xs, list_holds s xs.
Proof.
  intros Hres Hmax Hrun.
  exact (proj1 (run_holds _ (list_holds_new A Hres Hmax) Hrun)).
Qed.

Lemma over_allocate_quotient (n : Z) :
  0 <= n <= 2 ^ 61 -> over_allocate n = 4 * ((n + n / 8 + 6) / 4).
Proof.
  intros Hn. unfold over_allocate.
  rewrite Z.shiftr_div_pow2 by lia. change (2 ^ 3) with 8.
  pose proof (Z.mul_div_le n 8 ltac:(lia)) as Hle.
  assert (0 <= n / 8) by (apply Z.div_pos; lia).
  rewrite size_t_small by lia.
  apply land_clear_low. lia.
Qed.

Lemma over_allocate_bounds_wide (n : Z) :
  0 <= n <= 2 ^ 61 ->
  n + 3 <= over_allocate n /\ 8 * over_allocate n <= 9 * n + 48.
Proof.
  intros Hn. rewrite over_allocate_quotient by assumption.
  pose proof (Z.mul_div_le n 8 ltac:(lia)) as Hle.
  assert (0 <= n / 8) by (apply Z.div_pos; lia).
  pose proof (Z.mul_div_le (n + n / 8 + 6) 4 ltac:(lia)).
  pose proof (Z.div_mod (n + n / 8 + 6) 4 ltac:(lia)).
  pose proof (Z.mod_pos_bound (n + n / 8 + 6) 4 ltac:(lia)).
  lia.
Qed.

Lemma re_alloc_length {A : Type} (self : ListT.t A) (n : Z) :
  ListT.length (List_re_alloc self n) = ListT.length self.
Proof.
  unfold List_re_alloc. destruct (ListT.allocated self >=? n); [reflexivity|].
  now destruct (realloc_slots _ _).
Qed.

Lemma re_alloc_enough {A : Type} (self : ListT.t A) (n : Z) :
  n <= ListT.allocated self -> List_re_alloc self n = self.
Proof.
  intros H. unfold List_re_alloc.
  destruct (Z.geb_spec (ListT.allocated self) n); [reflexivity | lia].
Qed.

Lemma re_alloc_allocated {A : Type} (self : ListT.t A) (n : Z) :
  ListT.allocated self < n ->
  ListT.list (List_re_alloc self n) <> None ->
  ListT.allocated (List_re_alloc self n) = over_allocate n.
Proof.
  intros H. unfold List_re_alloc.
  destruct (Z.geb_spec (ListT.allocated self) n); [lia|].
  fold (over_allocate n).
  destruct (realloc_slots _ _); cbn [ListT.list ListT.allocated];
    [reflexivity | contradiction].
Qed.

(** [List_re_alloc] on a well-formed list, for a request the allocator can
    serve: the elements stay, the block has room for the request. *)
Lemma re_alloc_holds {A : Type} (self : ListT.t A) (xs : list A) (n : Z) :
  list_holds self xs -> 0 <= n <= 2 ^ 59 ->
  list_holds (List_re_alloc self n) xs /\
  n <= ListT.allocated (List_re_alloc self n) /\
  ListT.allocated self <= ListT.allocated (List_re_alloc self n).
Proof.
  intros H Hn. pose proof (list_holds_small H) as Hsmall.
  destruct (Z.le_gt_cases n (ListT.allocated self)) as [Hle|Hgt].
  - rewrite re_alloc_enough by assumption. repeat split; (assumption || lia).
  - destruct H as (rest & Hlist & Hl & Ha & Hm).
    pose proof (@over_allocate_bounds_wide n ltac:(lia)) as Hov.
    unfold List_re_alloc.
    destruct (Z.geb_spec (ListT.allocated self) n) as [|_]; [lia|].
    fold (over_allocate n). set (new_size := over_allocate n) in *.
    unfold realloc_slots. rewrite Hlist.
    rewrite size_t_small by (unfold PTR_SIZE; lia).
    rewrite !Z.div_mul by (unfold PTR_SIZE; discriminate).
    replace (new_size * PTR_SIZE <=? PTRDIFF_MAX) with true
      by (symmetry; apply Z.leb_le; unfold PTR_SIZE, PTRDIFF_MAX; lia).
    cbn [ListT.list ListT.length ListT.allocated].
    split; [|lia].
    exists (rest ++ repeat None (Z.to_nat new_size - List.length (map Some xs ++ rest))).
    cbn [ListT.list ListT.length ListT.allocated].
    rewrite firstn_all2 by (rewrite length_app, length_map; lia).
    rewrite <- app_assoc.
    repeat split; try assumption.
    + rewrite !length_app, length_map, repeat_length. lia.
    + unfold PTR_SIZE, PTRDIFF_MAX. lia.
Qed.

(** X5.  A push followed by a pop, on any list that a run of pushes and pops
    has produced from a new one: the pop returns the pointer that was
    pushed, and the list has the elements and the length it had before. *)
Theorem List_push_pop (A : Type) (reserve : Z) (ops : list (mutation A))
  (s : ListT.t A) (x : A) :
  0 <= reserve -> reserve * PTR_SIZE <= PTRDIFF_MAX ->
  run (List_new A reserve PTR_SIZE) ops = Ret s ->
  ListT.length s < 2 ^ 59 ->
  exists (s1 s2 : ListT.t A) (xs : list A),
    elements s = Ret xs /\
    List_push s x = Ret s1 /\ elements s1 = Ret (xs ++ [x]) /\
    List_pop s1 = Ret (Some x, s2) /\ elements s2 = Ret xs /\
    ListT.length s2 = ListT.length s.
Proof.
  intros Hres Hmax Hrun Hlen.
  destruct (reachable_holds _ Hres Hmax Hrun) as (xs & H).
  rewrite (list_holds_length H) in Hlen.
  destruct (@List_push_ok _ s xs x H Hlen) as (s1 & Hpush).
  destruct (List_push_inv x H Hpush) as (H1 & _).
  destruct (@List_pop_holds _ s1 xs x H1) as (s2 & Hpop & H2 & _).
  exists s1, s2, xs.
  rewrite (list_holds_length H), (list_holds_length H2).
  repeat split; try assumption; now apply elements_holds.
Qed.

Lemma List_push_pop_witness :
  exists (s s1 s2 : ListT.t nat) (xs : list nat),
    run (List_new nat 0 PTR_SIZE) [Push 1; Push 2; Pop; Push 4]%nat = Ret s /\
    elements s = Ret xs /\
    List_push s 7%nat = Ret s1 /\ elements s1 = Ret (xs ++ [7%nat]) /\
    List_pop s1 = Ret (Some 7%nat, s2) /\ elements s2 = Ret xs /\
    ListT.length s2 = ListT.length s.
Proof.
  exists (ListT.mk (Some [Some 1; Some 4; None; None]%nat) 2 4).
  destruct (@List_push_pop nat 0 [Push 1; Push 2; Pop; Push 4]%nat
              (ListT.mk (Some [Some 1; Some 4; None; None]%nat) 2 4) 7%nat)
    as (s1 & s2 & xs & H); cycle 4.
  - exists s1, s2, xs. split; [|exact H]. vm_compute. reflexivity.
  - lia.
  - vm_compute. discriminate.
  - vm_compute. reflexivity.
  - vm_compute. reflexivity.
Defined.

Lemma pop_all_succ {A : Type} (n : nat) (self : ListT.t A) :
  pop_all (S n) self
  = (r <- List_pop self ;;
     rs <- pop_all n (snd r) ;;
     Ret (fst r :: fst rs, snd rs)).
Proof. reflexivity. Qed.

Lemma pop_all_holds {A : Type} (xs : list A) :
  forall self : ListT.t A,
    list_holds self xs ->
    exists self',
      pop_all (S (List.length xs)) self
      = Ret (map Some (rev xs) ++ [None], self') /\
      list_holds self' [] /\
      ListT.allocated self' = ListT.allocated self.
Proof.
  induction xs as [|x xs IH] using rev_ind; intros self H.
  - exists self. cbn [List.length rev map app].
    rewrite pop_all_succ, (List_pop_empty H). cbn [bind snd fst pop_all].
    repeat split. assumption.
  - destruct (@List_pop_holds _ self xs x H) as (s1 & Hpop & H1 & Ha).
    destruct (IH s1 H1) as (s' & Hall & H' & Ha').
    exists s'. rewrite length_app, Nat.add_1_r, rev_app_distr.
    cbn [List.length rev app map].
    rewrite pop_all_succ, Hpop. cbn [bind snd fst]. rewrite Hall.
    cbn [bind snd fst]. repeat split; [assumption | congruence].
Qed.

(** X6.  The list is a stack: after the elements [xs] have been pushed onto a
    new list, as many pops return them last to first, one more pop returns
    [NULL], and the list is then empty with the block it had. *)
Theorem List_pop_all_reverses (A : Type) (reserve : Z) (xs : list A) :
  0 <= reserve -> reserve * PTR_SIZE <= PTRDIFF_MAX ->
  Z.of_nat (List.length xs) <= 2 ^ 59 ->
  exists s s' : ListT.t A,
    push_all (List_new A reserve PTR_SIZE) xs = Ret s /\
    pop_all (S (List.length xs)) s = Ret (map Some (rev xs) ++ [None], s') /\
    List_is_empty s' = true /\
    ListT.allocated s' = ListT.allocated s.
Proof.
  intros Hres Hmax Hlen.
  pose proof (list_holds_new A Hres Hmax) as Hnew.
  destruct (@push_all_holds A xs _ [] Hnew Hlen) as (s & Hs & Hholds & _).
  cbn [app] in Hholds.
  destruct (pop_all_holds Hholds) as (s' & Hpop & Hempty & Ha).
  exists s, s'. repeat split; try assumption.
  unfold List_is_empty. now rewrite (list_holds_length Hempty).
Qed.

Lemma List_pop_all_reverses_witness :
  exists s s' : ListT.t nat,
    push_all (List_new nat 0 PTR_SIZE) [1; 2; 3]%nat = Ret s /\
    pop_all 4 s = Ret ([Some 3; Some 2; Some 1; None]%nat, s') /\
    List_is_empty s' = true /\
    ListT.allocated s' = ListT.allocated s.
Proof.
  apply (@List_pop_all_reverses nat 0 [1; 2; 3]%nat).
  - lia.
  - vm_compute. discriminate.
  - vm_compute. discriminate.
Defined.

(** [List_re_alloc] on a well-formed list, when [realloc] has returned a
    block. *)
Lemma re_alloc_block_holds {A : Type} (self : ListT.t A) (xs : list A) (n : Z) :
  list_holds self xs -> 0 <= n <= 2 ^ 60 + 2 ^ 59 ->
  ListT.list (List_re_alloc self n) <> None ->
  list_holds (List_re_alloc self n) xs /\
  n <= ListT.allocated (List_re_alloc self n) /\
  ListT.allocated self <= ListT.allocated (List_re_alloc self n).
Proof.
  intros H Hn. pose proof (list_holds_small H) as Hsmall.
  destruct (Z.le_gt_cases n (ListT.allocated self)) as [Hle|Hgt].
  - rewrite re_alloc_enough by assumption. repeat split; (assumption || lia).
  - destruct H as (rest & Hlist & Hl & Ha & Hm).
    pose proof (@over_allocate_bounds_wide n ltac:(lia)) as Hov.
    unfold List_re_alloc.
    destruct (Z.geb_spec (ListT.allocated self) n) as [|_]; [lia|].
    fold (over_allocate n). set (new_size := over_allocate n) in *.
    unfold realloc_slots. rewrite Hlist.
    rewrite size_t_small by (unfold PTR_SIZE; lia).
    rewrite !Z.div_mul by (unfold PTR_SIZE; discriminate).
    destruct (Z.leb_spec (new_size * PTR_SIZE) PTRDIFF_MAX) as [Hfits|Hbig];
      cbn [ListT.list ListT.length ListT.allocated]; [|contradiction].
    intros _. split; [|lia].
    exists (rest ++ repeat None (Z.to_nat new_size - List.length (map Some xs ++ rest))).
    cbn [ListT.list ListT.length ListT.allocated].
    rewrite firstn_all2 by (rewrite length_app, length_map; lia).
    rewrite <- app_assoc.
    repeat split; try assumption.
    rewrite !length_app, length_map, repeat_length. lia.
Qed.

(** X7.  [List_re_alloc] as a reservation, on any list that a run of
    pushes and pops has produced from a new one, when [realloc] returns a
    block (as it does when no new block is needed): the elements and the
    length are kept, the block has exactly [allocated] slots afterwards,
    which are at least the request and at least what was allocated before;
    a request above the old capacity gives the capacity [(n + n / 8 + 6)]
    rounded down to a multiple of 4. *)
Theorem List_re_alloc_reserves (A : Type) (reserve : Z)
  (ops : list (mutation A)) (s : ListT.t A) (n : Z) :
  0 <= reserve -> reserve * PTR_SIZE <= PTRDIFF_MAX ->
  run (List_new A reserve PTR_SIZE) ops = Ret s ->
  0 <= n <= 2 ^ 60 + 2 ^ 59 ->
  ListT.list (List_re_alloc s n) <> None ->
  elements (List_re_alloc s n) = elements s /\
  ListT.length (List_re_alloc s n) = ListT.length s /\
  n <= ListT.allocated (List_re_alloc s n) /\
  ListT.allocated s <= ListT.allocated (List_re_alloc s n) /\
  (ListT.allocated s < n ->
   ListT.allocated (List_re_alloc s n) = 4 * ((n + n / 8 + 6) / 4)) /\
  exists l : slots A,
    ListT.list (List_re_alloc s n) = Some l /\
    Z.of_nat (List.length l) = ListT.allocated (List_re_alloc s n).
Proof.
  intros Hres Hmax Hrun Hn Hblock.
  destruct (reachable_holds _ Hres Hmax Hrun) as (xs & H).
  destruct (re_alloc_block_holds H Hn Hblock) as (H' & Hreq & Hmono).
  rewrite (elements_holds H), (elements_holds H'), re_alloc_length.
  repeat split; try assumption.
  - intros Hlt. rewrite re_alloc_allocated, over_allocate_quotient; (assumption || lia).
  - destruct H' as (rest & Hlist & _ & Ha & _).
    exists (map Some xs ++ rest). split; [assumption|].
    rewrite Ha, length_app, length_map. reflexivity.
Qed.

Lemma List_re_alloc_reserves_witness :
  exists s : ListT.t nat,
    run (List_new nat 0 PTR_SIZE) [Push 1; Push 2; Push 3]%nat = Ret s /\
    elements (List_re_alloc s 100) = elements s /\
    ListT.length (List_re_alloc s 100) = ListT.length s /\
    100 <= ListT.allocated (List_re_alloc s 100) /\
    ListT.allocated s <= ListT.allocated (List_re_alloc s 100) /\
    (ListT.allocated s < 100 ->
     ListT.allocated (List_re_alloc s 100) = 4 * ((100 + 100 / 8 + 6) / 4)) /\
    exists l : slots nat,
      ListT.list (List_re_alloc s 100) = Some l /\
      Z.of_nat (List.length l) = ListT.allocated (List_re_alloc s 100).
Proof.
  exists (ListT.mk (Some [Some 1; Some 2; Some 3; None]%nat) 3 4).
  split; [vm_compute; reflexivity|].
  apply (@List_re_alloc_reserves nat 0 [Push 1; Push 2; Push 3]%nat).
  - lia.
  - vm_compute. discriminate.
  - vm_compute. reflexivity.
  - lia.
  - vm_compute. discriminate.
Defined.

(** X8.  When the block requested cannot be allocated, [List_re_alloc] stores
    the [NULL] it got from [realloc] in [list] and leaves [length] and
    [allocated] as they were: the elements are gone, and a pop from a list
    that was not empty reads through [NULL]. *)
Theorem List_re_alloc_too_large (A : Type) (self : ListT.t A) (new_size : Z) :
  ListT.allocated self < new_size ->
  2 ^ 60 <= new_size <= 2 ^ 60 + 2 ^ 59 ->
  List_re_alloc self new_size
  = ListT.mk None (ListT.length self) (ListT.allocated self) /\
  (ListT.length self <> 0 -> List_pop (List_re_alloc self new_size) = Fault).
Proof.
  intros Hlt Hn.
  assert (E : List_re_alloc self new_size
              = ListT.mk None (ListT.length self) (ListT.allocated self)).
  { unfold List_re_alloc.
    destruct (Z.geb_spec (ListT.allocated self) new_size) as [|_]; [lia|].
    fold (over_allocate new_size).
    pose proof (@over_allocate_bounds_wide new_size ltac:(lia)) as Hov.
    unfold realloc_slots.
    rewrite size_t_small by (unfold PTR_SIZE; lia).
    replace (over_allocate new_size * PTR_SIZE <=? PTRDIFF_MAX) with false
      by (symmetry; apply Z.leb_gt; unfold PTR_SIZE, PTRDIFF_MAX; lia).
    reflexivity. }
  split; [exact E|]. intros Hne. rewrite E.
  unfold List_pop, List_is_empty. cbn [ListT.length].
  now rewrite (proj2 (Z.eqb_neq _ _) Hne).
Qed.

Lemma List_re_alloc_too_large_witness :
  List_re_alloc (List_new nat 4 PTR_SIZE) (2 ^ 60)
  = ListT.mk None 0 4.
Proof.
  apply (@List_re_alloc_too_large nat (List_new nat 4 PTR_SIZE) (2 ^ 60)).
  - vm_compute. reflexivity.
  - lia.
Defined.

(** X9.  How [List_push] grows the block, on any list that a run of pushes and
    pops has produced from a new one: a push that returns adds 1 to
    [length]; it leaves [allocated] alone while a slot is free, and on a
    full list it sets [allocated] to [(n + n / 8 + 6)] rounded down to a
    multiple of 4, [n] being the new length, which leaves at least 3 free
    slots behind the element pushed. *)
Theorem List_push_growth (A : Type) (reserve : Z) (ops : list (mutation A))
  (s s1 : ListT.t A) (x : A) :
  0 <= reserve -> reserve * PTR_SIZE <= PTRDIFF_MAX ->
  run (List_new A reserve PTR_SIZE) ops = Ret s ->
  List_push s x = Ret s1 ->
  ListT.length s1 = ListT.length s + 1 /\
  (ListT.length s < ListT.allocated s ->
   ListT.allocated s1 = ListT.allocated s) /\
  (ListT.length s = ListT.allocated s ->
   ListT.allocated s1
   = 4 * ((ListT.length s1 + ListT.length s1 / 8 + 6) / 4) /\
   ListT.length s1 + 3 <= ListT.allocated s1).
Proof.
  intros Hres Hmax Hrun Hpush.
  destruct (reachable_holds _ Hres Hmax Hrun) as (xs & H).
  pose proof (list_holds_small H) as Hsmall.
  pose proof (list_holds_length H) as Hl.
  destruct (List_push_inv x H Hpush) as (H1 & _).
  pose proof (list_holds_length H1) as Hl1.
  rewrite length_snoc in Hl1.
  assert (Hlen : ListT.length s1 = ListT.length s + 1) by lia.
  unfold List_push in Hpush.
  rewrite (size_t_small (z := ListT.length s + 1)) in Hpush by lia.
  set (self1 := List_re_alloc s (ListT.length s + 1)) in *.
  apply bind_ret in Hpush as (t & Hset & [= <-]).
  assert (Hlist : ListT.list self1 <> None).
  { unfold set_slot in Hset. destruct (ListT.list self1); [discriminate|].
    discriminate. }
  assert (Ha : forall k, ListT.allocated (set_length t k)
                         = ListT.allocated self1).
  { intros k. unfold set_slot in Hset.
    destruct (ListT.list self1); [|discriminate].
    destruct (_ && _); [|discriminate]. now injection Hset as <-. }
  rewrite !Ha. split; [assumption|]. split.
  - intros Hfree. subst self1. rewrite re_alloc_enough by lia. reflexivity.
  - intros Hfull. subst self1.
    rewrite re_alloc_allocated by (assumption || lia).
    rewrite Hlen.
    pose proof (@over_allocate_bounds_wide (ListT.length s + 1) ltac:(lia)).
    split; [apply over_allocate_quotient|]; lia.
Qed.

Lemma List_push_growth_witness :
  exists s s1 : ListT.t nat,
    run (List_new nat 0 PTR_SIZE) [Push 1; Push 2; Push 3; Push 4]%nat = Ret s /\
    List_push s 5%nat = Ret s1 /\
    ListT.length s1 = ListT.length s + 1 /\
    (ListT.length s < ListT.allocated s ->
     ListT.allocated s1 = ListT.allocated s) /\
    (ListT.length s = ListT.allocated s ->
     ListT.allocated s1
     = 4 * ((ListT.length s1 + ListT.length s1 / 8 + 6) / 4) /\
     ListT.length s1 + 3 <= ListT.allocated s1).
Proof.
  eexists. eexists.
  split; [vm_compute; reflexivity|].
  split; [vm_compute; reflexivity|].
  apply (@List_push_growth nat 0 [Push 1; Push 2; Push 3; Push 4]%nat _ _ 5%nat).
  - lia.
  - vm_compute. discriminate.
  - vm_compute. reflexivity.
  - vm_compute. reflexivity.
Defined.

(** ** [path_remove_prefix] *)

Lemma load_at (pre : list ascii) (c : ascii) (s : list ascii) (rest : buffer) :
  load (bytes (pre ++ c :: s) ++ rest) (Z.of_nat (List.length pre)) = Ret c.
Proof.
  unfold bytes. rewrite map_app, <- app_assoc. cbn [map app].
  rewrite <- (length_map Byte pre). apply load_mid.
Qed.

Lemma count_prefix_spec (s : list ascii) :
  forall (pre : list ascii) (rest : buffer) (num : Z),
    0 <= num -> num + Z.of_nat (List.length s) < 2 ^ 64 ->
    count_prefix (List.length s) (Some (bytes (pre ++ s) ++ rest))
      (Z.of_nat (List.length pre)) num
    = Ret (num + Z.of_nat (leading_seps s)).
Proof.
  induction s as [|c s IH]; intros pre rest num Hnum Hmax.
  - cbn [count_prefix List.length leading_seps]. f_equal. lia.
  - cbn [List.length] in Hmax. rewrite Nat2Z.inj_succ in Hmax.
    cbn [count_prefix List.length leading_seps deref bind].
    rewrite load_at. cbn [bind].
    destruct (Ascii.eqb c PATH_SEPARATOR); [|f_equal; lia].
    rewrite size_t_small by lia.
    specialize (IH (pre ++ [c]) rest (num + 1)).
    rewrite <- app_assoc in IH. cbn [app] in IH.
    rewrite length_app in IH. cbn [List.length] in IH.
    replace (Z.of_nat (List.length pre) + 1)
      with (Z.of_nat (List.length pre + 1)) by lia.
    rewrite IH by lia. f_equal. lia.
Qed.

Lemma leading_seps_length (s : list ascii) :
  (leading_seps s <= List.length s)%nat.
Proof.
  induction s as [|c s IH]; cbn [leading_seps List.length]; [lia|].
  destruct (Ascii.eqb c PATH_SEPARATOR); lia.
Qed.

(** X10.  The whole of [path_remove_prefix] on a string and its length.  A
    string of fewer than 2 bytes, or one that starts neither with a
    separator nor with "./", is returned as the pointer it came in.  "./"
    alone gives [NULL]; "./" followed by anything, and any string that
    starts with two separators, make the slice write outside its block.  A
    string with exactly one leading separator comes back as a new block
    that has lost its last byte. *)
Theorem path_remove_prefix_result (s : list ascii) (rest : buffer) :
  Z.of_nat (List.length s) < PTRDIFF_MAX ->
  path_remove_prefix (Some (bytes s ++ Byte NUL :: rest))
    (Z.of_nat (List.length s))
  = remove_prefix_result s (Some (bytes s ++ Byte NUL :: rest)).
Proof.
  intros Hmax.
  destruct s as [|c0 [|c1 t]];
    try (apply remove_prefix_short; cbn [List.length]; lia).
  cbn [remove_prefix_result].
  destruct (Ascii.eqb_spec c0 "."%char) as [->|Hdot]; cbn [andb].
  - destruct (Ascii.eqb_spec c1 PATH_SEPARATOR) as [->|Hc1].
    + unfold path_remove_prefix.
      replace (Z.of_nat (List.length ("."%char :: PATH_SEPARATOR :: t)) <? 2)
        with false by (symmetry; apply Z.ltb_ge; cbn [List.length]; lia).
      cbn [deref bind]. rewrite load_bytes_0. cbn [bind].
      change (Ascii.eqb "." ".") with true. cbv iota.
      rewrite load_bytes_1. cbn [bind].
      change (Ascii.eqb PATH_SEPARATOR PATH_SEPARATOR) with true. cbv iota.
      destruct t as [|c2 t].
      * cbn [List.length]. change (Z.of_nat 2) with 2.
        rewrite slice_empty. reflexivity.
      * rewrite slice_from_later; [reflexivity | cbn [List.length]; lia | lia].
    + change (Ascii.eqb "." PATH_SEPARATOR) with false. cbv iota.
      apply remove_prefix_keep; [discriminate|].
      intros _ t' [= E _]. contradiction.
  - destruct (Ascii.eqb_spec c0 PATH_SEPARATOR) as [->|Hsep].
    + destruct (Ascii.eqb_spec c1 PATH_SEPARATOR) as [->|Hc1].
      * unfold path_remove_prefix.
        replace (Z.of_nat (List.length (PATH_SEPARATOR :: PATH_SEPARATOR :: t)) <? 2)
          with false by (symmetry; apply Z.ltb_ge; cbn [List.length]; lia).
        cbn [deref bind]. rewrite load_bytes_0. cbn [bind].
        change (Ascii.eqb PATH_SEPARATOR ".") with false. cbn [bind].
        rewrite Nat2Z.id.
        pose proof (@count_prefix_spec (PATH_SEPARATOR :: PATH_SEPARATOR :: t) []
                      (Byte NUL :: rest) 0 ltac:(lia)) as Hcount.
        cbn [app] in Hcount. change (Z.of_nat (List.length [])) with 0 in Hcount.
        rewrite Hcount by (unfold PTRDIFF_MAX in Hmax; lia). cbn [bind].
        pose proof (leading_seps_length t) as Hle.
        cbn [leading_seps List.length] in Hmax |- *.
        change (Ascii.eqb PATH_SEPARATOR PATH_SEPARATOR) with true. cbv iota.
        replace (0 + Z.of_nat (S (S (leading_seps t))) =? 0) with false
          by (symmetry; apply Z.eqb_neq; lia).
        unfold PTRDIFF_MAX in Hmax.
        rewrite size_t_small by lia.
        apply slice_from_later; unfold PTRDIFF_MAX; lia.
      * destruct (@exists_last _ (PATH_SEPARATOR :: c1 :: t) ltac:(discriminate))
          as (w & c & Hw).
        rewrite Hw in Hmax |- *. rewrite removelast_last.
        apply (@remove_prefix_chop c1 t w c rest Hw Hc1). lia.
    + apply remove_prefix_keep; [assumption|].
      intros E. contradiction.
Qed.

Lemma path_remove_prefix_result_witness :
  path_remove_prefix (Some (lit (str "/usr/lib"))) 8
  = Ret (Some (lit (str "/usr/li")))
  /\ path_remove_prefix (Some (lit (str "./usr"))) 5 = Fault
  /\ path_remove_prefix (Some (lit (str "//usr"))) 5 = Fault
  /\ path_remove_prefix (Some (lit (str "usr/lib"))) 7
     = Ret (Some (lit (str "usr/lib"))).
Proof.
  split; [|split; [|split]].
  - apply (@path_remove_prefix_result (str "/usr/lib") []). vm_compute. reflexivity.
  - apply (@path_remove_prefix_result (str "./usr") []). vm_compute. reflexivity.
  - apply (@path_remove_prefix_result (str "//usr") []). vm_compute. reflexivity.
  - apply (@path_remove_prefix_result (str "usr/lib") []). vm_compute. reflexivity.
Defined.

(** ** [path_replace_grandparent] *)

Lemma first_separator (s : list ascii) :
  existsb (Ascii.eqb PATH_SEPARATOR) s = true ->
  exists a post : list ascii, sep_free a /\ s = a ++ PATH_SEPARATOR :: post.
Proof.
  induction s as [|c s IH]; cbn [existsb]; [discriminate|].
  destruct (Ascii.eqb_spec PATH_SEPARATOR c) as [<-|Hc]; cbn [orb].
  - intros _. exists [], s. split; [constructor | reflexivity].
  - intros H. destruct (IH H) as (a & post & Ha & ->).
    exists (c :: a), post. split; [|reflexivity].
    constructor; [congruence | assumption].
Qed.

Lemma find_slash_first (a : list ascii) :
  forall (pre post : list ascii) (rest : buffer) (k : nat),
    sep_free a ->
    find_slash (List.length a + S k)
      (Some (bytes (pre ++ a ++ PATH_SEPARATOR :: post) ++ rest))
      (Z.of_nat (List.length pre))
    = Ret (Z.of_nat (List.length (pre ++ a))).
Proof.
  induction a as [|c a IH]; intros pre post rest k Ha.
  - cbn [List.length Nat.add find_slash deref bind app].
    rewrite load_at. cbn [bind].
    change (Ascii.eqb PATH_SEPARATOR PATH_SEPARATOR) with true.
    now rewrite app_nil_r.
  - inversion Ha as [|? ? Hc Ha']; subst.
    cbn [List.length Nat.add find_slash deref bind app].
    rewrite load_at. cbn [bind].
    destruct (Ascii.eqb_spec c PATH_SEPARATOR) as [->|_]; [contradiction|].
    specialize (IH (pre ++ [c]) post rest k Ha').
    rewrite <- !app_assoc in IH. cbn [app] in IH.
    rewrite length_app in IH at 1. cbn [List.length] in IH.
    replace (Z.of_nat (List.length pre) + 1)
      with (Z.of_nat (List.length pre + 1)) by lia.
    exact IH.
Qed.

(** X11.  In the replacing branch of [path_replace_grandparent] the
    remainder is cut out by a slice that starts after index 0, and that
    slice writes its terminator past the end of the block it allocated:
    for every string of at least 3 bytes that has a separator before its
    last byte, with [k] the index of its first separator, the call
    [path_str_slice (path_str, k + 1, length_str)] is made with
    [0 < k + 1 < length_str] and is an out-of-bounds write, whatever the
    new head and the size of the path buffer. *)
Theorem path_replace_grandparent_faults (BP : Z) (s : list ascii)
  (rest : buffer) (grandparent : ptr) :
  existsb (Ascii.eqb PATH_SEPARATOR) (removelast s) = true ->
  3 <= Z.of_nat (List.length s) < PTRDIFF_MAX ->
  exists k : Z,
    find_slash (List.length s) (Some (bytes s ++ rest)) 0 = Ret k /\
    0 < k + 1 < Z.of_nat (List.length s) /\
    path_str_slice (Some (bytes s ++ rest)) (size_t (k + 1))
      (Z.of_nat (List.length s)) = Fault /\
    path_replace_grandparent BP (Some (bytes s ++ rest))
      (Z.of_nat (List.length s)) grandparent
    = Fault.
Proof.
  intros Hsep [Hlo Hhi].
  destruct (first_separator _ Hsep) as (a & post' & Ha & Hs').
  assert (Hne : s <> []) by (intros ->; simpl in Hlo; lia).
  pose proof (app_removelast_last NUL Hne) as Hs.
  rewrite Hs' in Hs. rewrite <- app_assoc in Hs. cbn [app] in Hs.
  set (post := post' ++ [last s NUL]) in Hs.
  assert (Hpost : (1 <= List.length post)%nat)
    by (subst post; rewrite length_app; simpl; lia).
  assert (Hlen : List.length s = (List.length a + S (List.length post))%nat)
    by (rewrite Hs at 1; rewrite length_app; reflexivity).
  pose proof (@find_slash_first a [] post rest (List.length post) Ha) as Hfind.
  cbn [app List.length] in Hfind. change (Z.of_nat 0) with 0 in Hfind.
  rewrite <- Hs, <- Hlen in Hfind.
  assert (Hslice : path_str_slice (Some (bytes s ++ rest))
                     (size_t (Z.of_nat (List.length a) + 1))
                     (Z.of_nat (List.length s)) = Fault).
  { unfold PTRDIFF_MAX in Hhi. rewrite size_t_small by lia.
    apply slice_from_later; unfold PTRDIFF_MAX; lia. }
  exists (Z.of_nat (List.length a)).
  split; [exact Hfind|]. split; [lia|]. split; [exact Hslice|].
  unfold path_replace_grandparent.
  replace (Z.of_nat (List.length s) <? 3) with false
    by (symmetry; apply Z.ltb_ge; lia).
  rewrite Nat2Z.id, Hfind. cbn [bind].
  replace (Z.of_nat (List.length a) =? Z.of_nat (List.length s))
    with false by (symmetry; apply Z.eqb_neq; lia).
  now rewrite Hslice.
Qed.

Lemma path_replace_grandparent_faults_witness :
  exists k : Z,
    find_slash 13 (Some (lit (str "old/is/a/path"))) 0 = Ret k /\
    0 < k + 1 < 13 /\
    path_str_slice (Some (lit (str "old/is/a/path"))) (size_t (k + 1)) 13
    = Fault /\
    path_replace_grandparent 4096 (Some (lit (str "old/is/a/path"))) 13
      (Some (lit (str "new")))
    = Fault.
Proof.
  apply (@path_replace_grandparent_faults 4096 (str "old/is/a/path")
           [Byte NUL] (Some (lit (str "new")))).
  - reflexivity.
  - vm_compute. split; [discriminate | reflexivity].
Defined.

(** ** [path_split] and [path_join] together *)

Lemma cstring_undef (s : list ascii) (r : buffer) :
  nul_free s -> cstring (bytes s ++ Undef :: r) = Fault.
Proof.
  induction 1 as [|c s Hc _ IH]; cbn [bytes map app cstring]; [reflexivity|].
  destruct (Ascii.eqb_spec c NUL) as [->|_]; [contradiction|].
  fold (bytes s). now rewrite IH.
Qed.

Lemma cstring_unterminated (s : list ascii) :
  nul_free s -> cstring (bytes s) = Fault.
Proof.
  induction 1 as [|c s Hc _ IH]; cbn [bytes map cstring]; [reflexivity|].
  destruct (Ascii.eqb_spec c NUL) as [->|_]; [contradiction|].
  fold (bytes s). now rewrite IH.
Qed.

Lemma component_of (s : list ascii) :
  nul_free s -> sep_free s -> componentb s = true.
Proof.
  intros Hn Hs. unfold componentb. apply forallb_forall. intros c Hc.
  unfold nul_free, sep_free in *. rewrite Forall_forall in Hn, Hs.
  specialize (Hn c Hc). specialize (Hs c Hc).
  destruct (Ascii.eqb_spec c NUL); [contradiction|].
  destruct (Ascii.eqb_spec c PATH_SEPARATOR); [contradiction|].
  reflexivity.
Qed.

Lemma strips_to_components (cs : list (list ascii)) :
  Forall nul_free cs -> Forall sep_free cs ->
  Forall (fun c => Z.of_nat (List.length c) <= PTRDIFF_MAX) cs ->
  Forall2 strips_to (map Some (map lit cs)) cs.
Proof.
  induction cs as [|c cs IH]; intros Hn Hs Hl; cbn [map]; [constructor|].
  inversion Hn; inversion Hs; inversion Hl; subst.
  constructor; [|now apply IH].
  apply (@strips_to_plain c []); [|assumption].
  now apply componentb_plainb, component_of.
Qed.

(** X12.  Splitting and joining are inverse to each other on the code: for every
    path with at least one separator that fits the buffers, [path_join]
    applied to the components [path_split] returns gives the path back,
    leading, trailing and doubled separators included. *)
Theorem path_split_join_round_trip (BN BP : Z) (w : list ascii) :
  nul_freeb w = true ->
  (0 < count_sep w)%nat ->
  forallb (fun comp => Z.of_nat (List.length comp) <? BN) (split_sep w) = true ->
  BN <= PTRDIFF_MAX ->
  Z.of_nat (List.length w) < BP -> BP <= 2 ^ 59 ->
  exists (L : ListT.t buffer) (comps : list buffer),
    path_split BN (Some (lit w)) (Z.of_nat (List.length w)) = Ret L /\
    elements L = Ret comps /\
    string_of (path_join BP (map Some comps)) = Ret w.
Proof.
  intros Hnul Hsep Hsizes HBN Hlen HBP. apply nul_freeb_nul_free in Hnul.
  destruct (exists_last (@split_sep_nonempty w)) as (init & lst & Hsplit).
  pose proof (length_split_sep_count w) as Hcount.
  pose proof (length_split_sep w) as Hle.
  rewrite Hsplit, length_app in Hcount, Hle. cbn [List.length] in Hcount, Hle.
  assert (Hsizes' : Forall (fun comp => Z.of_nat (List.length comp) < BN)
                      (split_sep w)).
  { apply Forall_forall. intros comp Hin.
    rewrite forallb_forall in Hsizes. now apply Z.ltb_lt, Hsizes. }
  destruct (@path_split_spec BN w [Byte NUL] init lst Hsplit
              ltac:(rewrite <- Hsplit; exact Hsizes') ltac:(lia) HBN)
    as (L & HL & Hholds).
  exists L, (map lit (split_sep w)). split; [exact HL|]. split.
  - destruct init as [|i0 init']; [cbn [List.length] in Hcount; lia|].
    rewrite (elements_holds Hholds), Hsplit, map_app. reflexivity.
  - replace (@Ret (list ascii) w) with (Ret (join_with (split_sep w)))
      by (now rewrite join_with_split_sep).
    apply (@path_join_string BP _ (split_sep w)).
    + apply strips_to_components.
      * now apply nul_free_split_sep.
      * apply sep_free_split_sep.
      * eapply Forall_impl; [|exact Hsizes']. cbv beta. intros c Hc. lia.
    + now rewrite join_with_split_sep.
    + unfold PTRDIFF_MAX. lia.
Qed.

Lemma path_split_join_round_trip_witness :
  exists (L : ListT.t buffer) (comps : list buffer),
    path_split 16 (Some (lit (str "/a//b/c/"))) 8 = Ret L /\
    elements L = Ret comps /\
    string_of (path_join 64 (map Some comps)) = Ret (str "/a//b/c/").
Proof.
  apply (@path_split_join_round_trip 16 64 (str "/a//b/c/")).
  - reflexivity.
  - vm_compute. lia.
  - reflexivity.
  - vm_compute. discriminate.
  - vm_compute. reflexivity.
  - vm_compute. discriminate.
Defined.

Lemma write_string_overflow (dst : buffer) (n : Z) (s : list ascii) :
  blen dst < n + Z.of_nat (List.length s) + 1 -> write_string dst n s = Fault.
Proof.
  intros H. unfold write_string.
  replace (n + Z.of_nat (List.length s) + 1 <=? blen dst) with false
    by (symmetry; apply Z.leb_gt; lia).
  now rewrite andb_false_r.
Qed.

(** The loop of [path_join] when the joined string does not fit: either
    [strcat] writes past the buffer, or the separator written into the last
    byte of the buffer takes the place of the terminator and the loop
    stops. *)
Lemma join_loop_overflow (size : Z) (args : list ptr) :
  forall (qs : list (list ascii)) (acc : list ascii) (i num_paths : Z),
    Forall2 strips_to args qs ->
    nul_free acc ->
    0 <= i -> i + Z.of_nat (List.length args) = num_paths ->
    num_paths < 2 ^ 64 ->
    Z.of_nat (List.length acc) < size ->
    size <= Z.of_nat (List.length (acc ++ join_with qs)) -> size < 2 ^ 64 ->
    string_of (join_loop size args i num_paths (Some (path_buffer size acc))
                 (Z.of_nat (List.length acc)))
    = Fault.
Proof.
  induction args as [|a args IH];
    intros qs acc i num_paths HF Hacc Hi Hnum Hnmax Hlt Hsize Hsmax;
    inversion HF as [|a' q args' qs' (b & Hstrip & Hq) HF']; subst.
  - cbn [join_with] in Hsize. rewrite app_nil_r in Hsize. lia.
  - cbn [join_loop].
    replace (Z.of_nat (List.length acc) <? size) with true
      by (symmetry; apply Z.ltb_lt; lia).
    unfold strip_part in Hstrip.
    apply bind_ret in Hstrip as (n1 & -> & Hstrip).
    apply bind_ret in Hstrip as (p1 & H1 & Hstrip).
    apply bind_ret in Hstrip as (n2 & H2 & Hstrip).
    cbn [bind]. rewrite H1; cbn [bind]. rewrite H2; cbn [bind].
    rewrite Hstrip; cbn [bind].
    destruct (cstring_inv _ Hq) as (Hqn & rest & ->).
    rewrite strlen_bytes by assumption; cbn [bind].
    unfold strcat; cbn [deref bind].
    rewrite strlen_path_buffer by (assumption || lia); cbn [bind].
    rewrite cstring_bytes by assumption; cbn [bind].
    destruct (Z_lt_le_dec
                (Z.of_nat (List.length acc) + Z.of_nat (List.length q)) size)
      as [Hfits|Hover].
    2:{ rewrite write_string_overflow; [reflexivity|].
        rewrite blen_path_buffer by lia. lia. }
    rewrite write_string_path_buffer by lia; cbn [bind].
    cbn [List.length] in Hnmax |- *. rewrite Nat2Z.inj_succ in Hnmax |- *.
    rewrite !size_t_small by lia.
    replace (Z.of_nat (List.length acc) + Z.of_nat (List.length q))
      with (Z.of_nat (List.length (acc ++ q))) in * by (rewrite length_app; lia).
    destruct qs' as [|q' qs''].
    + cbn [join_with] in Hsize. lia.
    + inversion HF' as [|a2 ? args'' ? Hs2 HF'']; subst.
      cbn [List.length] in Hnmax |- *. rewrite Nat2Z.inj_succ in Hnmax |- *.
      replace (i <? i + Z.succ (Z.succ (Z.of_nat (List.length args''))) - 1)
        with true by (symmetry; apply Z.ltb_lt; lia).
      rewrite store_path_buffer by lia.
      cbn [bind].
      assert (Hacc2 : nul_free ((acc ++ q) ++ [PATH_SEPARATOR])).
      { apply nul_free_app; [now apply nul_free_app|].
        constructor; [exact separator_not_nul | constructor]. }
      replace (Z.of_nat (List.length (acc ++ q)) + 1)
        with (Z.of_nat (List.length ((acc ++ q) ++ [PATH_SEPARATOR])))
        by (rewrite !length_app; simpl; lia).
      destruct (Z_lt_le_dec
                  (Z.of_nat (List.length ((acc ++ q) ++ [PATH_SEPARATOR]))) size)
        as [Hroom|Hfull].
      * apply (IH (q' :: qs'') ((acc ++ q) ++ [PATH_SEPARATOR]) (i + 1)
                 (i + Z.succ (Z.succ (Z.of_nat (List.length args'')))));
          try assumption.
        -- lia.
        -- cbn [List.length]. lia.
        -- rewrite join_with_cons in Hsize. rewrite <- !app_assoc. exact Hsize.
      * cbn [join_loop].
        replace (Z.of_nat (List.length ((acc ++ q) ++ [PATH_SEPARATOR])) <? size)
          with false by (symmetry; apply Z.ltb_ge; lia).
        unfold string_of. cbn [bind deref]. unfold path_buffer.
        replace (Z.to_nat size - List.length ((acc ++ q) ++ [PATH_SEPARATOR]))%nat
          with 0%nat by lia.
        cbn [repeat]. rewrite app_nil_r.
        now apply cstring_unterminated.
Qed.

(** X13.  [path_join] never returns a shortened path: when the string made of
    the stripped arguments and the separators between them does not fit
    the path buffer with its terminator, no string can be read from the
    result.  Either [strcat] has written past the end of the buffer, or
    the buffer comes back full, without a terminator. *)
Theorem path_join_overflow (BP : Z) (args : list ptr) (qs : list (list ascii)) :
  strip_all args = Ret qs ->
  Z.of_nat (List.length args) < 2 ^ 64 ->
  BP <= Z.of_nat (List.length (join_with qs)) -> BP <= PTRDIFF_MAX ->
  string_of (path_join BP args) = Fault.
Proof.
  intros Hstrip Hargs Hlen HBP. unfold path_join.
  rewrite calloc_ok by assumption.
  destruct (Z_lt_le_dec 0 BP) as [Hpos|Hneg].
  - change (repeat (Byte NUL) (Z.to_nat BP)) with
      (bytes [] ++ repeat (Byte NUL) (Z.to_nat BP)).
    replace (Z.to_nat BP) with (Z.to_nat BP - List.length (@nil ascii))%nat
      by (simpl; lia).
    fold (path_buffer BP []).
    pose proof (strip_all_strips_to _ Hstrip) as HF.
    apply (@join_loop_overflow BP args qs [] 0); try assumption; try lia.
    + constructor.
    + unfold PTRDIFF_MAX in HBP; lia.
  - replace (Z.to_nat BP) with 0%nat by lia. cbn [repeat].
    destruct args as [|a args]; cbn [join_loop].
    + reflexivity.
    + replace (0 <? BP) with false by (symmetry; apply Z.ltb_ge; lia).
      reflexivity.
Qed.

Lemma path_join_overflow_witness :
  string_of (path_join 10 [Some (lit (str "/root/")); Some (lit (str "sub/"));
                           Some (lit (str "/leaf"))])
  = Fault.
Proof.
  apply (@path_join_overflow 10
           [Some (lit (str "/root/")); Some (lit (str "sub/"));
            Some (lit (str "/leaf"))]
           [str "/root"; str "sub"; str "/lea"]).
  - vm_compute. reflexivity.
  - vm_compute. reflexivity.
  - vm_compute. discriminate.
  - vm_compute. discriminate.
Defined.

(** ** File system entries *)

Lemma load_first (w : list ascii) (rest : buffer) :
  load (bytes w ++ Byte NUL :: rest) 0 = Ret (hd NUL w).
Proof.
  destruct w as [|c0 w]; [exact (load_mid [] NUL rest) | apply load_bytes_0].
Qed.

(** What [FileSystem_from_path] builds for a path with at least one
    separator: the name is the last component, and the path is copied
    into [absolute_path] when it starts with a separator, into
    [relative_path] otherwise; the other path buffers stay as [malloc]
    returned them. *)
Lemma from_path_fields (BN BP : Z) (w : list ascii) (rest : buffer)
  (ty : FileTypesT) :
  nul_free w ->
  (0 < count_sep w)%nat ->
  Forall (fun comp => Z.of_nat (List.length comp) < BN) (split_sep w) ->
  BN <= PTRDIFF_MAX ->
  Z.of_nat (List.length w) < BP -> BP <= 2 ^ 59 ->
  FileSystem_from_path BN BP (Some (bytes w ++ Byte NUL :: rest)) ty
  = Ret (if Ascii.eqb (hd NUL w) PATH_SEPARATOR
         then mkFileSystem (Some (named BN (last (split_sep w) [])))
                (malloc BP) (Some (named BP w)) (malloc BP) (malloc BP) ty
         else mkFileSystem (Some (named BN (last (split_sep w) [])))
                (Some (named BP w)) (malloc BP) (malloc BP) (malloc BP) ty).
Proof.
  intros Hnul Hsep Hsizes HBN Hlen HBP.
  assert (HBP' : BP <= PTRDIFF_MAX) by (unfold PTRDIFF_MAX; lia).
  destruct (exists_last (@split_sep_nonempty w)) as (init & lst & Hsplit).
  pose proof (length_split_sep_count w) as Hcount.
  pose proof (length_split_sep w) as Hle.
  rewrite Hsplit in Hsizes.
  rewrite Hsplit, length_app in Hcount, Hle. cbn [List.length] in Hcount, Hle.
  rewrite Hsplit, last_last.
  destruct (@path_split_spec BN w (Byte NUL :: rest) init lst Hsplit Hsizes
              ltac:(lia) HBN) as (L & HL & Hholds).
  destruct init as [|i0 init']; [cbn [List.length] in Hcount; lia|].
  change (bytes lst ++ [Byte NUL]) with (lit lst) in Hholds.
  destruct (@List_pop_holds _ L (map lit (i0 :: init')) (lit lst) Hholds)
    as (L' & Hpop & _).
  assert (Hlast : nul_free lst).
  { pose proof (nul_free_split_sep Hnul) as HF. rewrite Hsplit in HF.
    apply Forall_app in HF as [_ HF]. now inversion HF. }
  assert (Hfit : Z.of_nat (List.length lst) < BN).
  { apply Forall_app in Hsizes as [_ HF]. now inversion HF. }
  unfold FileSystem_from_path. cbn [deref bind].
  rewrite load_first. cbn [bind].
  destruct (Ascii.eqb (hd NUL w) PATH_SEPARATOR);
    cbn [relative_path name absolute_path grandparent_path parent_path];
    rewrite (@strcpy_malloc BP _ w) by (try apply cstring_bytes; auto);
    cbn [bind relative_path name absolute_path grandparent_path parent_path];
    rewrite strlen_bytes by assumption; cbn [bind];
    rewrite HL; cbn [bind]; rewrite Hpop; cbn [bind];
    rewrite (@strcpy_malloc BN _ lst) by (try apply cstring_lit; auto);
    reflexivity.
Qed.

(** X14.  [FileSystem_from_path] on a path with at least one separator, whose
    components fit the name buffer and which fits the path buffer: the
    entry has the type given, its name is the last component of the path,
    and the path itself is copied into [absolute_path] when it starts with
    a separator and into [relative_path] otherwise.  The three other path
    buffers are left as [malloc] returned them. *)
Theorem FileSystem_from_path_fields (BN BP : Z) (w : list ascii)
  (rest : buffer) (ty : FileTypesT) :
  nul_freeb w = true ->
  (0 < count_sep w)%nat ->
  forallb (fun comp => Z.of_nat (List.length comp) <? BN) (split_sep w) = true ->
  BN <= PTRDIFF_MAX ->
  Z.of_nat (List.length w) < BP -> BP <= 2 ^ 59 ->
  FileSystem_from_path BN BP (Some (bytes w ++ Byte NUL :: rest)) ty
  = Ret (if Ascii.eqb (hd NUL w) PATH_SEPARATOR
         then mkFileSystem (Some (named BN (last (split_sep w) [])))
                (malloc BP) (Some (named BP w)) (malloc BP) (malloc BP) ty
         else mkFileSystem (Some (named BN (last (split_sep w) [])))
                (Some (named BP w)) (malloc BP) (malloc BP) (malloc BP) ty).
Proof.
  intros Hnul Hsep Hsizes. apply from_path_fields; try assumption.
  - now apply nul_freeb_nul_free.
  - apply Forall_forall. intros comp Hin.
    rewrite forallb_forall in Hsizes. now apply Z.ltb_lt, Hsizes.
Qed.

Lemma FileSystem_from_path_fields_witness :
  FileSystem_from_path 16 64 (Some (lit (str "/srv/www"))) FS_DIRECTORY
  = Ret (mkFileSystem (Some (named 16 (str "www"))) (malloc 64)
           (Some (named 64 (str "/srv/www"))) (malloc 64) (malloc 64)
           FS_DIRECTORY)
  /\ FileSystem_from_path 16 64 (Some (lit (str "srv/www"))) FS_REG_FILE
     = Ret (mkFileSystem (Some (named 16 (str "www")))
              (Some (named 64 (str "srv/www"))) (malloc 64) (malloc 64)
              (malloc 64) FS_REG_FILE).
Proof.
  split.
  - apply (@FileSystem_from_path_fields 16 64 (str "/srv/www") [] FS_DIRECTORY).
    + reflexivity.
    + vm_compute. lia.
    + reflexivity.
    + vm_compute. discriminate.
    + vm_compute. reflexivity.
    + vm_compute. discriminate.
  - apply (@FileSystem_from_path_fields 16 64 (str "srv/www") [] FS_REG_FILE).
    + reflexivity.
    + vm_compute. lia.
    + reflexivity.
    + vm_compute. discriminate.
    + vm_compute. reflexivity.
    + vm_compute. discriminate.
Defined.

Lemma split_single (BN : Z) (w : list ascii) (rest : buffer) :
  componentb w = true ->
  Z.of_nat (List.length w) < BN -> BN <= PTRDIFF_MAX ->
  exists L,
    path_split BN (Some (bytes w ++ rest)) (Z.of_nat (List.length w)) = Ret L /\
    list_holds L [bytes w ++ [Undef]].
Proof.
  intros Hw Hfit HBN.
  apply (@path_split_spec BN w rest [] w).
  - cbn [app]. apply split_sep_sep_free. now apply componentb_sep_free.
  - cbn [app]. constructor; [assumption | constructor].
  - cbn [List.length]. lia.
  - assumption.
Qed.

(** X15.  [FileSystem_from_path] on a path without separator, the empty
    path included, reads uninitialised memory: the string it copies into
    [name] is the element [path_split] pushed, the bytes of the path
    followed by a byte that was never written, so [strcpy] runs into that
    byte; the name stored is not determined by the path. *)
Theorem FileSystem_from_path_single_component (BN BP : Z) (w : list ascii)
  (rest : buffer) (ty : FileTypesT) :
  componentb w = true ->
  Z.of_nat (List.length w) < BN -> BN <= PTRDIFF_MAX ->
  Z.of_nat (List.length w) < BP -> BP <= PTRDIFF_MAX ->
  exists L L' : ListT.t buffer,
    path_split BN (Some (bytes w ++ Byte NUL :: rest))
      (Z.of_nat (List.length w)) = Ret L /\
    List_pop L = Ret (Some (bytes w ++ [Undef]), L') /\
    strcpy (malloc BN) (Some (bytes w ++ [Undef])) = Fault /\
    FileSystem_from_path BN BP (Some (bytes w ++ Byte NUL :: rest)) ty = Fault.
Proof.
  intros Hw HfitN HBN HfitP HBP.
  pose proof (componentb_nul_free _ Hw) as Hnul.
  pose proof (componentb_sep_free _ Hw) as Hsep.
  destruct (@split_single BN w (Byte NUL :: rest) Hw HfitN HBN)
    as (L & HL & Hholds).
  destruct (@List_pop_holds _ L [] (bytes w ++ [Undef]) Hholds)
    as (L' & Hpop & _).
  assert (Hcopy : strcpy (malloc BN) (Some (bytes w ++ [Undef])) = Fault).
  { unfold strcpy. rewrite malloc_ok by assumption. cbn [deref bind].
    now rewrite cstring_undef. }
  exists L, L'. split; [exact HL|]. split; [exact Hpop|]. split; [exact Hcopy|].
  unfold FileSystem_from_path. cbn [deref bind].
  rewrite load_first. cbn [bind].
  assert (Hhd : Ascii.eqb (hd NUL w) PATH_SEPARATOR = false).
  { destruct w as [|c0 w0]; [reflexivity|]. cbn [hd].
    inversion Hsep; subst. now destruct (Ascii.eqb_spec c0 PATH_SEPARATOR). }
  rewrite Hhd.
  cbn [relative_path name absolute_path grandparent_path parent_path].
  rewrite (@strcpy_malloc BP _ w) by (try apply cstring_bytes; auto).
  cbn [bind relative_path name absolute_path grandparent_path parent_path].
  rewrite strlen_bytes by assumption. cbn [bind].
  rewrite HL. cbn [bind]. rewrite Hpop. cbn [bind].
  match goal with
  | |- bind ?m _ = _ => replace m with (@Fault buffer) by (symmetry; exact Hcopy)
  end.
  reflexivity.
Qed.

Lemma FileSystem_from_path_single_component_witness :
  exists L L' : ListT.t buffer,
    path_split 256 (Some (lit (str "notes.txt"))) 9 = Ret L /\
    List_pop L = Ret (Some (bytes (str "notes.txt") ++ [Undef]), L') /\
    strcpy (malloc 256) (Some (bytes (str "notes.txt") ++ [Undef])) = Fault /\
    FileSystem_from_path 256 4096 (Some (lit (str "notes.txt"))) FS_REG_FILE
    = Fault.
Proof.
  apply (@FileSystem_from_path_single_component 256 4096 (str "notes.txt") []
           FS_REG_FILE).
  - reflexivity.
  - vm_compute. reflexivity.
  - vm_compute. discriminate.
  - vm_compute. reflexivity.
  - vm_compute. discriminate.
Defined.

(** [FileSystem_list_push] builds the entry it stores from
    [fs->relative_path]: when that buffer is as [malloc] returned it, the
    first byte tested is one that was never written. *)
Lemma list_push_unwritten (BN BP : Z) (L : ListT.t FileSystemT)
  (fs : FileSystemT) :
  relative_path fs = malloc BP ->
  (b <- deref (relative_path fs) ;; load b 0) = Fault /\
  FileSystem_list_push BN BP L fs = Fault.
Proof.
  intros Hrel.
  assert (Hload : (b <- deref (malloc BP) ;; load b 0) = Fault).
  { unfold malloc. destruct (BP <=? PTRDIFF_MAX); [|reflexivity].
    cbn [deref bind]. now destruct (Z.to_nat BP). }
  rewrite Hrel. split; [exact Hload|].
  unfold FileSystem_list_push. cbv zeta. rewrite Hrel.
  unfold FileSystem_from_path.
  destruct (deref (malloc BP)) as [b|]; [|reflexivity].
  cbn [bind] in Hload |- *. now rewrite Hload.
Qed.

(** X16.  Pushing an entry that [FileSystem_from_path] built from an
    absolute path reads uninitialised memory: [FileSystem_list_push]
    builds the entry it stores from [fs->relative_path], which
    [FileSystem_from_path] left as [malloc] returned it for a path that
    starts with a separator, so the first byte it tests, and the string it
    would go on to copy, were never written. *)
Theorem FileSystem_list_push_absolute (BN BP : Z) (w : list ascii)
  (rest : buffer) (ty : FileTypesT) :
  nul_freeb w = true ->
  Ascii.eqb (hd NUL w) PATH_SEPARATOR = true ->
  forallb (fun comp => Z.of_nat (List.length comp) <? BN) (split_sep w) = true ->
  BN <= PTRDIFF_MAX ->
  Z.of_nat (List.length w) < BP -> BP <= 2 ^ 59 ->
  exists fs,
    FileSystem_from_path BN BP (Some (bytes w ++ Byte NUL :: rest)) ty = Ret fs /\
    relative_path fs = malloc BP /\
    (b <- deref (relative_path fs) ;; load b 0) = Fault /\
    forall L : ListT.t FileSystemT, FileSystem_list_push BN BP L fs = Fault.
Proof.
  intros Hnul Habs Hsizes HBN Hlen HBP.
  assert (Hsep : (0 < count_sep w)%nat).
  { destruct w as [|c0 w0]; [discriminate|]. cbn [hd] in Habs.
    unfold count_sep. cbn [filter]. rewrite (Ascii.eqb_sym PATH_SEPARATOR c0), Habs.
    cbn [List.length]. lia. }
  set (fs := mkFileSystem (Some (named BN (last (split_sep w) [])))
               (malloc BP) (Some (named BP w)) (malloc BP) (malloc BP) ty).
  exists fs. split.
  - rewrite from_path_fields; try assumption.
    + rewrite Habs. reflexivity.
    + now apply nul_freeb_nul_free.
    + apply Forall_forall. intros comp Hin.
      rewrite forallb_forall in Hsizes. now apply Z.ltb_lt, Hsizes.
  - split; [reflexivity|]. split.
    + exact (proj1 (@list_push_unwritten BN BP (List_new FileSystemT 1 PTR_SIZE)
                      fs eq_refl)).
    + intros L. exact (proj2 (@list_push_unwritten BN BP L fs eq_refl)).
Qed.

Lemma FileSystem_list_push_absolute_witness :
  exists fs,
    FileSystem_from_path 16 64 (Some (lit (str "/srv/www"))) FS_DIRECTORY = Ret fs /\
    relative_path fs = malloc 64 /\
    (b <- deref (relative_path fs) ;; load b 0) = Fault /\
    forall L : ListT.t FileSystemT, FileSystem_list_push 16 64 L fs = Fault.
Proof.
  apply (@FileSystem_list_push_absolute 16 64 (str "/srv/www") [] FS_DIRECTORY).
  - reflexivity.
  - reflexivity.
  - reflexivity.
  - vm_compute. discriminate.
  - vm_compute. reflexivity.
  - vm_compute. discriminate.
Defined.

Lemma write_string_0 (d : buffer) (s : list ascii) :
  Z.of_nat (List.length s) < blen d ->
  write_string d 0 s = Ret (bytes s ++ Byte NUL :: skipn (List.length s + 1) d).
Proof.
  intros H. unfold write_string.
  replace ((0 <=? 0) && (0 + Z.of_nat (List.length s) + 1 <=? blen d)) with true
    by (symmetry; apply andb_true_intro; split; apply Z.leb_le; lia).
  cbn [Z.to_nat firstn app Nat.add]. unfold lit. now rewrite <- app_assoc.
Qed.

(** X17.  [FileSystem_copy] copies two strings and nothing else: afterwards
    [dest] has the name and the relative path of [self], in the blocks it
    already had, while its type and its absolute, parent and grandparent
    paths are the ones it had before. *)
Theorem FileSystem_copy_fields (self dest : FileSystemT)
  (sn sr dn dr : buffer) (nm rel : list ascii) :
  name self = Some sn -> cstring sn = Ret nm ->
  relative_path self = Some sr -> cstring sr = Ret rel ->
  name dest = Some dn -> Z.of_nat (List.length nm) < blen dn ->
  relative_path dest = Some dr -> Z.of_nat (List.length rel) < blen dr ->
  exists d,
    FileSystem_copy self dest = Ret d /\
    string_of (Ret (name d)) = Ret nm /\
    string_of (Ret (relative_path d)) = Ret rel /\
    type d = type dest /\
    absolute_path d = absolute_path dest /\
    parent_path d = parent_path dest /\
    grandparent_path d = grandparent_path dest.
Proof.
  intros Hsn Hnm Hsr Hrel Hdn Hfn Hdr Hfr.
  unfold FileSystem_copy, strcpy. rewrite Hsn, Hsr, Hdn, Hdr.
  cbn [deref bind]. rewrite Hnm. cbn [bind].
  rewrite write_string_0 by assumption. cbn [bind].
  rewrite Hrel. cbn [bind].
  rewrite write_string_0 by assumption. cbn [bind].
  eexists. split; [reflexivity|].
  cbn [name relative_path type absolute_path parent_path grandparent_path].
  unfold string_of. cbn [bind deref].
  rewrite !cstring_bytes by (eapply cstring_inv; eassumption).
  repeat split.
Qed.

Lemma FileSystem_copy_fields_witness :
  exists d,
    FileSystem_copy (entry 16 64 (str "f") (str "d/f") FS_REG_FILE)
      (entry 16 64 (str "other") (str "x/other") FS_DIRECTORY) = Ret d /\
    string_of (Ret (name d)) = Ret (str "f") /\
    string_of (Ret (relative_path d)) = Ret (str "d/f") /\
    type d = FS_DIRECTORY /\
    absolute_path d = malloc 64 /\
    parent_path d = malloc 64 /\
    grandparent_path d = malloc 64.
Proof.
  apply (@FileSystem_copy_fields
           (entry 16 64 (str "f") (str "d/f") FS_REG_FILE)
           (entry 16 64 (str "other") (str "x/other") FS_DIRECTORY)
           (named 16 (str "f")) (named 64 (str "d/f"))
           (named 16 (str "other")) (named 64 (str "x/other"))
           (str "f") (str "d/f")).
  - reflexivity.
  - vm_compute. reflexivity.
  - reflexivity.
  - vm_compute. reflexivity.
  - reflexivity.
  - vm_compute. reflexivity.
  - reflexivity.
  - vm_compute. reflexivity.
Defined.

(** ** The local path materializer *)

(** X18.  [path_mkdir_parents] on a path of one component hands [stat],
    and [mkdir] when [stat] returns -1, the pointer to the component as
    [path_split] stored it: its bytes followed by a byte that was never
    written, which is not a terminated string.  One [stat] and at most one
    [mkdir] are made, both through that pointer; the value returned is 1
    when [stat] does not return -1 or [mkdir] returns 0, and when [mkdir]
    fails its report prints through the same pointer once more. *)
Theorem path_mkdir_parents_single_component (BN BP : Z) (world : Type)
  (stat : world -> result (list ascii) -> Z)
  (mkdir : world -> result (list ascii) -> Z -> Z * world) (mode : Z)
  (w : list ascii) (rest : buffer) (fs : world) :
  componentb w = true ->
  Z.of_nat (List.length w) < BN -> BN <= PTRDIFF_MAX ->
  exists L : ListT.t buffer,
    path_split BN (Some (bytes w ++ rest)) (Z.of_nat (List.length w)) = Ret L /\
    List_get L 0 = Ret (Some (bytes w ++ [Undef])) /\
    path_arg (Some (bytes w ++ [Undef])) = Fault /\
    path_mkdir_parents BN BP stat mkdir mode (Some (bytes w ++ rest))
      (Z.of_nat (List.length w)) fs
    = (if stat fs Fault =? -1
       then if negb (int8_t (fst (mkdir fs Fault mode)) =? 0) then Fault
            else Ret (1, snd (mkdir fs Fault mode), [Stat Fault; Mkdir Fault mode])
       else Ret (1, fs, [Stat Fault])).
Proof.
  intros Hw Hfit HBN.
  destruct (@split_single BN w rest Hw Hfit HBN) as (L & HL & Hholds).
  pose proof (@List_get_holds _ L [] (bytes w ++ [Undef]) [] Hholds) as Hget.
  cbn [List.length] in Hget. change (Z.of_nat 0) with 0 in Hget.
  assert (Harg : path_arg (Some (bytes w ++ [Undef])) = Fault).
  { unfold path_arg. cbn [deref bind].
    apply cstring_undef. now apply componentb_nul_free. }
  exists L. split; [exact HL|]. split; [exact Hget|]. split; [exact Harg|].
  unfold path_mkdir_parents. rewrite HL. cbn [bind].
  rewrite Hget. cbn [bind].
  rewrite (list_holds_length Hholds). cbn [List.length].
  change (Z.to_nat (Z.of_nat 1)) with 1%nat.
  cbn [mkdir_loop Z.eqb negb bind]. cbv zeta.
  unfold path_arg. cbn [deref bind].
  rewrite cstring_undef by (now apply componentb_nul_free).
  destruct (stat fs Fault =? -1); [|reflexivity].
  destruct (mkdir fs Fault mode) as [result fs']. cbn [fst snd app].
  now destruct (negb (int8_t result =? 0)).
Qed.

Lemma path_mkdir_parents_single_component_witness :
  exists L : ListT.t buffer,
    path_split 256 (Some (lit (str "build"))) 5 = Ret L /\
    List_get L 0 = Ret (Some (bytes (str "build") ++ [Undef])) /\
    path_arg (Some (bytes (str "build") ++ [Undef])) = Fault /\
    path_mkdir_parents 256 4096
      (fun (created : nat) (path : result (list ascii)) => -1)
      (fun (created : nat) (path : result (list ascii)) (mode : Z) =>
         (0, S created))
      493 (Some (lit (str "build"))) 5 0%nat
    = Ret (1, 1%nat, [Stat Fault; Mkdir Fault 493]).
Proof.
  apply (@path_mkdir_parents_single_component 256 4096 nat
           (fun (created : nat) (path : result (list ascii)) => -1)
           (fun (created : nat) (path : result (list ascii)) (mode : Z) =>
              (0, S created))
           493 (str "build") [Byte NUL] 0%nat).
  - reflexivity.
  - vm_compute. reflexivity.
  - vm_compute. discriminate.
Defined.

(** ** Bounds *)

(** The loop of [path_split] and the push that follows it, when a
    component still to be read does not fit the name buffer. *)
Lemma split_loop_overflow (BN : Z) (s : list ascii) :
  forall (pre cur : list ascii) (rest : buffer) (L : ListT.t buffer)
         (done : list buffer) (fill : memval),
    sep_free cur ->
    Z.of_nat (List.length cur) <= BN ->
    Exists (fun comp => BN <= Z.of_nat (List.length comp)) (split_sep (cur ++ s)) ->
    list_holds L done ->
    Z.of_nat (List.length done + List.length s) < 2 ^ 59 ->
    BN <= PTRDIFF_MAX ->
    ('(path_list, path_buf, path_buf_len) <-
        split_loop BN (List.length s) (Some (bytes (pre ++ s) ++ rest))
          (Z.of_nat (List.length pre)) L (block BN cur fill)
          (Z.of_nat (List.length cur)) ;;
      List_push_sized path_list path_buf (size_t (path_buf_len + 1)))
    = Fault.
Proof.
  induction s as [|c s IH];
    intros pre cur rest L done fill Hcur Hle Hlong HL Hcount HBN.
  - rewrite app_nil_r, split_sep_sep_free in Hlong by assumption.
    inversion Hlong as [? ? Hbig | ? ? Hnil]; [|inversion Hnil]. subst.
    cbn [split_loop List.length bind]. unfold List_push_sized.
    unfold PTRDIFF_MAX in HBN.
    rewrite size_t_small by lia. rewrite blen_block by lia.
    replace (Z.of_nat (List.length cur) + 1 <=? BN) with false
      by (symmetry; apply Z.leb_gt; lia).
    reflexivity.
  - assert (HBN' : BN < 2 ^ 63) by (unfold PTRDIFF_MAX in HBN; lia).
    cbn [split_loop List.length deref bind].
    rewrite load_at. cbn [bind].
    destruct (Z_lt_le_dec (Z.of_nat (List.length cur)) BN) as [Hroom|Hfull].
    2:{ destruct (negb (Ascii.eqb c PATH_SEPARATOR));
          rewrite store_out by (rewrite blen_block by lia; lia);
          reflexivity. }
    destruct (Ascii.eqb_spec c PATH_SEPARATOR) as [->|Hc]; cbn [negb]; cbv iota.
    + rewrite split_sep_at_sep in Hlong by assumption.
      inversion Hlong as [? ? Hbig | ? ? Hlong']; subst; [lia|].
      rewrite store_block by assumption. cbn [bind].
      cbn [List.length] in Hcount.
      destruct (@List_push_sized_spec L done (block BN (cur ++ [NUL]) fill)
                  (List.length (cur ++ [NUL])) HL ltac:(lia))
        as (L1 & Hpush & Hholds1).
      { pose proof (@blen_block BN (cur ++ [NUL]) fill) as Hb.
        rewrite length_app in *. cbn [List.length] in *. unfold blen in Hb. lia. }
      { rewrite length_app. cbn [List.length]. lia. }
      rewrite length_app in Hpush. cbn [List.length] in Hpush.
      replace (Z.of_nat (List.length cur + 1))
        with (Z.of_nat (List.length cur) + 1) in Hpush by lia.
      rewrite Hpush. cbn [bind].
      rewrite path_buf_clear_block
        by (apply blen_block; rewrite length_app; cbn [List.length]; lia).
      cbn [bind].
      replace (Z.of_nat (List.length pre) + 1)
        with (Z.of_nat (List.length (pre ++ [PATH_SEPARATOR])))
        by (rewrite length_app; cbn [List.length]; lia).
      replace (pre ++ PATH_SEPARATOR :: s) with ((pre ++ [PATH_SEPARATOR]) ++ s)
        by (now rewrite <- app_assoc).
      eapply (IH (pre ++ [PATH_SEPARATOR]) [] rest L1 _ (Byte NUL)).
      * constructor.
      * cbn [List.length]. lia.
      * exact Hlong'.
      * exact Hholds1.
      * rewrite length_app. cbn [List.length]. lia.
      * assumption.
    + assert (Hcur' : sep_free (cur ++ [c])) by now apply sep_free_snoc.
      rewrite store_block by lia. cbn [bind].
      rewrite size_t_small by lia.
      replace (Z.of_nat (List.length pre) + 1)
        with (Z.of_nat (List.length (pre ++ [c])))
        by (rewrite length_app; cbn [List.length]; lia).
      replace (Z.of_nat (List.length cur) + 1)
        with (Z.of_nat (List.length (cur ++ [c])))
        by (rewrite length_app; cbn [List.length]; lia).
      replace (pre ++ c :: s) with ((pre ++ [c]) ++ s)
        by (now rewrite <- app_assoc).
      cbn [List.length] in Hcount.
      apply (IH (pre ++ [c]) (cur ++ [c]) rest L done fill); try assumption.
      * rewrite length_app. cbn [List.length]. lia.
      * now rewrite <- app_assoc.
      * lia.
Qed.

(** X19.  [path_split] does not check a component against the size of the name
    buffer: whenever some component of the path has [BUF_SIZE_FS_NAME]
    bytes or more, a byte is written, or the component copied, past the
    end of the buffer. *)
Theorem path_split_component_too_long (BN : Z) (w : list ascii) (rest : buffer) :
  existsb (fun comp => BN <=? Z.of_nat (List.length comp)) (split_sep w) = true ->
  0 <= BN <= PTRDIFF_MAX ->
  Z.of_nat (List.length w) < 2 ^ 59 ->
  path_split BN (Some (bytes w ++ rest)) (Z.of_nat (List.length w)) = Fault.
Proof.
  intros Hlong [Hlo Hhi] Hlen.
  unfold path_split. rewrite malloc_ok by assumption. cbn [deref bind].
  rewrite Nat2Z.id.
  pose proof (@list_holds_new buffer 0 ltac:(lia) ltac:(discriminate)) as Hnew.
  pose proof (@split_loop_overflow BN w [] [] rest (List_new buffer 0 PTR_SIZE)
                [] Undef) as H.
  cbn [app List.length] in H. change (Z.of_nat 0) with 0 in H.
  change (block BN [] Undef) with (repeat Undef (Z.to_nat BN - 0)) in H.
  rewrite Nat.sub_0_r in H.
  apply H; try assumption.
  - constructor.
  - apply Exists_exists. apply existsb_exists in Hlong as (comp & Hin & Hc).
    exists comp. split; [assumption | now apply Z.leb_le].
Qed.

Lemma path_split_component_too_long_witness :
  path_split 4 (Some (lit (str "usr/share/doc"))) 13 = Fault.
Proof.
  apply (@path_split_component_too_long 4 (str "usr/share/doc") [Byte NUL]).
  - reflexivity.
  - vm_compute. split; discriminate.
  - vm_compute. reflexivity.
Defined.

(** X20.  [List_new] sets [allocated] to the number of elements asked for but
    allocates [length * type_size] bytes: with an element size under that
    of a pointer the block is shorter than [allocated] says, and when it
    has not even room for one pointer the first push, which sees capacity
    left and does not reallocate, writes outside the block. *)
Theorem List_new_short_block (A : Type) (length type_size : Z) (x : A) :
  1 <= length -> 0 <= length * type_size < PTR_SIZE ->
  ListT.allocated (List_new A length type_size) = length /\
  ListT.list (List_new A length type_size) = Some [] /\
  List_push (List_new A length type_size) x = Fault.
Proof.
  intros Hlen Hsize. unfold PTR_SIZE in Hsize.
  assert (Hlist : ListT.list (List_new A length type_size) = Some []).
  { unfold List_new, malloc_slots. cbn [ListT.list].
    rewrite size_t_small by lia.
    replace (length * type_size <=? PTRDIFF_MAX) with true
      by (symmetry; apply Z.leb_le; unfold PTRDIFF_MAX; lia).
    unfold PTR_SIZE. rewrite Z.div_small by lia. reflexivity. }
  split; [reflexivity|]. split; [exact Hlist|].
  unfold List_push.
  change (ListT.length (List_new A length type_size)) with 0.
  change (size_t (0 + 1)) with 1.
  rewrite re_alloc_enough by (cbn [List_new ListT.allocated]; lia).
  unfold set_slot. rewrite Hlist. reflexivity.
Qed.

Lemma List_new_short_block_witness :
  List_push (List_new nat 4 1) 7%nat = Fault.
Proof.
  apply (@List_new_short_block nat 4 1 7%nat).
  - lia.
  - vm_compute. split; [discriminate | reflexivity].
Defined.

(** X21.  [path_split] on a path without separator, the empty path included:
    the list returned has one element, the bytes of the path followed by a
    byte of the buffer that was never written.  A terminator is only
    stored when a separator is read. *)
Theorem path_split_single_component (BN : Z) (w : list ascii) (rest : buffer) :
  componentb w = true ->
  Z.of_nat (List.length w) < BN -> BN <= PTRDIFF_MAX ->
  exists L,
    path_split BN (Some (bytes w ++ rest)) (Z.of_nat (List.length w)) = Ret L /\
    ListT.length L = 1 /\
    elements L = Ret [bytes w ++ [Undef]].
Proof.
  intros Hw Hfit HBN.
  destruct (@split_single BN w rest Hw Hfit HBN) as (L & HL & Hholds).
  exists L. split; [exact HL|]. split.
  - now rewrite (list_holds_length Hholds).
  - now apply elements_holds.
Qed.

Lemma path_split_single_component_witness :
  exists L,
    path_split 16 (Some (lit (str "abc"))) 3 = Ret L /\
    ListT.length L = 1 /\
    elements L = Ret [bytes (str "abc") ++ [Undef]].
Proof.
  apply (@path_split_single_component 16 (str "abc") [Byte NUL]).
  - reflexivity.
  - vm_compute. reflexivity.
  - vm_compute. discriminate.
Defined.

(** * The remote directory reader on an absolute path *)


